(** * PrivacyShield for AI: the masking engine (src/lib/masking-engine.js)

    A shallow embedding of [class MaskingEngine] and of the JavaScript
    built-ins it calls, followed by the properties of the engine; then
    of the scripts that use the engine (the side panel, the content
    script and the options page), on their variables: a text area is
    the string it holds, stored settings are lists that are passed in.

    Conventions of the embedding.
    - A JavaScript string is the list of its UTF-16 code units ([text]).
    - A regular expression is taken with the [g] flag, as every rule of
      the repository has it (the built-in literals, and
      [new RegExp(source, 'g')] in the side panel), and with [lastIndex]
      at 0, where [matchAll], which works on a copy, leaves it.  It is
      the function that its matcher denotes: subject and start index to
      the length of the match found there.  The five built-in rules are
      given as syntax trees run by a backtracking matcher; custom rules
      are arbitrary such functions.
    - A [Map] is an object on a heap and is handled through its
      location; [this.patterns] and the contents of a Map are
      association lists in creation order.
    - [this.counter] and the object [getStatistics] builds are plain
      objects whose prototype is [Object.prototype]: reading a property
      they do not own finds the inherited one, if there is one
      ([Object_prototype]).  [this.patterns] is given by its own
      properties, which is what [Object.entries] and [delete] see; the
      key [__proto__], which an assignment does not make an own
      property, is excluded where a statement depends on it. *)

From stdpp Require Import base list gmap strings sorting.
From Stdlib Require Import NArith Lia.

Local Open Scope N_scope.
Local Open Scope nat_scope.

(** ** JavaScript strings, objects and Maps *)

Module JS.

(** UTF-16 code units. *)
Abbreviation text := (list N) (only parsing).

(** Source literals: the UTF-8 bytes of a Rocq string as UTF-16. *)
Fixpoint utf16 (s : string) : text :=
  match s with
  | EmptyString => []
  | String a s1 =>
    let b0 := Ascii.N_of_ascii a in
    if (b0 <? 128)%N then b0 :: utf16 s1
    else if (b0 <? 224)%N then
      match s1 with
      | String b s2 =>
        ((b0 mod 32) * 64 + Ascii.N_of_ascii b mod 64)%N :: utf16 s2
      | _ => [65533%N]
      end
    else if (b0 <? 240)%N then
      match s1 with
      | String b (String c s3) =>
        ((b0 mod 16) * 4096 + (Ascii.N_of_ascii b mod 64) * 64
         + Ascii.N_of_ascii c mod 64)%N :: utf16 s3
      | _ => [65533%N]
      end
    else
      match s1 with
      | String b (String c (String d s4)) =>
        let v := ((b0 mod 8) * 262144 + (Ascii.N_of_ascii b mod 64) * 4096
                  + (Ascii.N_of_ascii c mod 64) * 64 + Ascii.N_of_ascii d mod 64
                  - 65536)%N in
        (55296 + v / 1024)%N :: (56320 + v mod 1024)%N :: utf16 s4
      | _ => [65533%N]
      end
  end.

(** [String.fromCharCode(n)]: ToUint16 of the argument. *)
Definition fromCharCode (n : N) : N := (n mod 65536)%N.

(** [s.startsWith(p)] and [s.endsWith(p)]. *)
Definition startsWith (s p : text) : bool :=
  bool_decide (take (length p) s = p).

Definition endsWith (s p : text) : bool :=
  bool_decide (length p ≤ length s) &&
  bool_decide (drop (length s - length p) s = p).

(** [s.slice(a, b)] and [s.slice(a)] for indices that are not negative. *)
Definition slice (s : text) (a b : nat) : text := take (b - a) (drop a s).
Definition slice_from (s : text) (a : nat) : text := drop a s.

(** StringIndexOf(s, search, from): [rest] is [s] from index [i] on. *)
Fixpoint indexOf_from (search rest : text) (i : nat) : option nat :=
  if startsWith rest search then Some i
  else match rest with
       | [] => None
       | _ :: rest' => indexOf_from search rest' (S i)
       end.

Definition StringIndexOf (s search : text) (from : nat) : option nat :=
  if bool_decide (from ≤ length s) then indexOf_from search (drop from s) from
  else None.

(** GetSubstitution for a string search value: there are no captures, so
    of the replacement patterns only [$$], [$&], [$`] and [$'] are
    expanded; [$n] and [$<] stand for themselves. *)
Fixpoint GetSubstitution (matched str : text) (position : nat)
    (template : text) : text :=
  match template with
  | [] => []
  | c :: rest =>
    if (c =? 36)%N then
      match rest with
      | [] => [c]
      | d :: rest' =>
        if (d =? 36)%N then
          36%N :: GetSubstitution matched str position rest'
        else if (d =? 96)%N then
          take position str ++ GetSubstitution matched str position rest'
        else if (d =? 38)%N then
          matched ++ GetSubstitution matched str position rest'
        else if (d =? 39)%N then
          drop (position + length matched) str
            ++ GetSubstitution matched str position rest'
        else c :: GetSubstitution matched str position rest
      end
    else c :: GetSubstitution matched str position rest
  end.

(** [s.replaceAll(searchString, replaceValue)], both strings: the match
    positions first, each search starting [max 1 searchLength] after the
    previous match, then the result assembled around them. *)
Fixpoint matchPositions (fuel : nat) (s search : text) (position : nat)
    : list nat :=
  match fuel with
  | O => []
  | S fuel' =>
    match StringIndexOf s search position with
    | None => []
    | Some p =>
      p :: matchPositions fuel' s search (p + Nat.max 1 (length search))
    end
  end.

Fixpoint spliceAll (s search replaceValue : text) (positions : list nat)
    (endOfLastMatch : nat) : text :=
  match positions with
  | [] => drop endOfLastMatch s
  | p :: ps =>
    slice s endOfLastMatch p
      ++ GetSubstitution search s p replaceValue
      ++ spliceAll s search replaceValue ps (p + length search)
  end.

Definition replaceAll (s search replaceValue : text) : text :=
  spliceAll s search replaceValue
    (matchPositions (S (length s)) s search 0) 0.

(** The names of the properties of [Object.prototype] (ECMAScript with
    its annex B, as [Object.getOwnPropertyNames] lists them): what a
    plain object inherits. *)
Definition Object_prototype : list text :=
  [utf16 "constructor"; utf16 "__defineGetter__"; utf16 "__defineSetter__";
   utf16 "hasOwnProperty"; utf16 "__lookupGetter__";
   utf16 "__lookupSetter__"; utf16 "isPrototypeOf";
   utf16 "propertyIsEnumerable"; utf16 "toString"; utf16 "valueOf";
   utf16 "__proto__"; utf16 "toLocaleString"].

(** The numbers a counter takes: the naturals and [NaN]. *)
Inductive number :=
| Num (n : N)
| NaN.

(** [v + 1] and [64 + v]. *)
Definition add (k : N) (v : number) : number :=
  match v with
  | Num n => Num (k + n)
  | NaN => NaN
  end.

(** What [o[k]] reads on a plain object whose own properties hold
    numbers: an own property, an inherited one (a function, or
    [Object.prototype] itself for [__proto__]), or [undefined]. *)
Inductive property :=
| Own (v : number)
| Inherited
| Missing.

Definition read (o : gmap text number) (k : text) : property :=
  match o !! k with
  | Some v => Own v
  | None =>
    if bool_decide (k ∈ Object_prototype) then Inherited else Missing
  end.

(** [o[k] = v] for a number [v]: the setter of [__proto__] ignores what
    is no object; any other key becomes or stays an own property. *)
Definition write (o : gmap text number) (k : text) (v : number)
    : gmap text number :=
  if bool_decide (k = utf16 "__proto__") then o else <[k := v]> o.

(** ToNumber: [NaN] for [undefined], for a function and for an
    object that prints as [[object Object]]. *)
Definition ToNumber (p : property) : number :=
  match p with
  | Own v => v
  | Inherited | Missing => NaN
  end.

(** [String.fromCharCode(64 + p)]: with a function or an object the sum
    is a string that is no numeral; ToUint16 of [NaN] is 0. *)
Definition fromCharCode64 (p : property) : N :=
  match add 64 (ToNumber p) with
  | Num n => fromCharCode n
  | NaN => 0%N
  end.

(** Objects with string keys, and Maps: entries in insertion order.
    Assigning to a present key keeps its place; a new key goes last. *)
Abbreviation entries V := (list (list N * V)) (only parsing).

Fixpoint set {V} (o : entries V) (k : text) (v : V) : entries V :=
  match o with
  | [] => [(k, v)]
  | (k', v') :: o' =>
    if decide (k' = k) then (k, v) :: o' else (k', v') :: set o' k v
  end.

Fixpoint get {V} (o : entries V) (k : text) : option V :=
  match o with
  | [] => None
  | (k', v') :: o' => if decide (k' = k) then Some v' else get o' k
  end.

(** [delete o[k]]. *)
Definition delete {V} (o : entries V) (k : text) : entries V :=
  filter (λ kv, kv.1 ≠ k) o.

Definition keys {V} (o : entries V) : list text := o.*1.

(** An array index is the canonical decimal form of an integer below
    2^32 - 1; [Object.entries] lists such keys first, in ascending
    numeric order, and then the other keys in creation order. *)
Definition is_digit (c : N) : bool := ((48 <=? c) && (c <=? 57))%N.

Definition digits_value (k : text) : N :=
  fold_left (λ acc c, acc * 10 + (c - 48))%N k 0%N.

Definition array_index (k : text) : option N :=
  match k with
  | [] => None
  | c :: rest =>
    if forallb is_digit k
       && (negb (c =? 48)%N || bool_decide (rest = []))
       && (digits_value k <=? 4294967294)%N
    then Some (digits_value k) else None
  end.

Fixpoint insert_by_index {V} (e : N * (text * V))
    (l : list (N * (text * V))) : list (N * (text * V)) :=
  match l with
  | [] => [e]
  | e' :: l' =>
    if (e.1 <? e'.1)%N then e :: l else e' :: insert_by_index e l'
  end.

Definition index_entries {V} (o : entries V) : list (N * (text * V)) :=
  omap (λ kv, (λ n, (n, kv)) <$> array_index kv.1) o.

Definition Object_entries {V} (o : entries V) : entries V :=
  (foldr insert_by_index [] (index_entries o)).*2
    ++ filter (λ kv, array_index kv.1 = None) o.

(** The heap of Map objects; [new Map(...)] allocates at the end. *)
Abbreviation Map := (list (list N * list N)) (only parsing).
Abbreviation Heap := (list (list (list N * list N))) (only parsing).
Abbreviation loc := nat (only parsing).

(** [new Map(iterable)]: the entries are [set] one by one. *)
Definition Map_of (src : Map) : Map :=
  fold_left (λ m kv, set m kv.1 kv.2) src [].

Definition new_Map (heap : Heap) (src : Map) : loc * Heap :=
  (length heap, heap ++ [Map_of src]).

(** [m.set(k, v)] on the Map object at location [l]. *)
Definition Map_set (heap : Heap) (l : loc) (k v : text) : Heap :=
  alter (λ m, set m k v) l heap.

(** [o[k].field = ...]: the object under key [k] is changed in place. *)
Definition update {V} (o : entries V) (k : text) (f : V → V) : entries V :=
  (λ kv, if decide (kv.1 = k) then (kv.1, f kv.2) else kv) <$> o.

(** [Object.fromEntries(m)] of a Map: one data property per entry. *)
Definition Object_fromEntries (m : Map) : entries (list N) :=
  fold_left (λ o kv, set o kv.1 kv.2) m [].

(** [s.trim()]: white space and line terminators go from both ends
    (the code units of the class [\s]). *)
Definition isWhiteSpace (c : N) : bool :=
  ((9 <=? c) && (c <=? 13))%N || (c =? 32)%N || (c =? 160)%N
  || (c =? 5760)%N || ((8192 <=? c) && (c <=? 8202))%N || (c =? 8232)%N
  || (c =? 8233)%N || (c =? 8239)%N || (c =? 8287)%N || (c =? 12288)%N
  || (c =? 65279)%N.

Fixpoint trimStart (s : text) : text :=
  match s with
  | [] => []
  | c :: s' => if isWhiteSpace c then trimStart s' else s
  end.

Definition trim (s : text) : text :=
  reverse (trimStart (reverse (trimStart s))).

(** [s.includes(p)] *)
Definition includes (s p : text) : bool :=
  bool_decide (is_Some (StringIndexOf s p 0)).

End JS.

(** ** Regular expressions *)

Module RegExp.
Import JS.

(** A regular expression object with the [g] flag, as the function its
    matcher computes: [re s i] is the length of the match of [re] in [s]
    that starts at index [i], if there is one. *)
Definition t := text → nat → option nat.

(** One element of [s.matchAll(re)]: [match.index] and [match[0]]. *)
Record Match := { index : nat; matched : text }.

(** RegExpBuiltinExec iterated as [matchAll] does: the search resumes at
    the end of the previous match, one further after an empty match and
    after an index with no match; it ends beyond the end of [s]. *)
Fixpoint exec_from (re : t) (s : text) (fuel lastIndex : nat)
    : list Match :=
  match fuel with
  | O => []
  | S fuel' =>
    if bool_decide (length s < lastIndex) then []
    else
      match re s lastIndex with
      | None => exec_from re s fuel' (S lastIndex)
      | Some n =>
        let str := slice s lastIndex (lastIndex + n) in
        {| index := lastIndex; matched := str |}
          :: exec_from re s fuel'
               (if bool_decide (str = []) then S lastIndex
                else lastIndex + n)
      end
  end.

Definition matchAll (s : text) (re : t) : list Match :=
  exec_from re s (S (length s)) 0.

(** The syntax the built-in rules are written in: literals, a character
    class under a greedy quantifier [{min,max}], sequence, alternation
    and a greedy optional group. *)
Inductive syntax :=
| Lit (l : text)
| Cls (p : N → bool) (min : nat) (max : option nat)
| Seq (a b : syntax)
| Alt (a b : syntax)
| Opt (a : syntax).

(** Backtracking matchers in continuation style: [k] is run on what is
    left of the input, and the first success in priority order wins.
    The optional groups of the built-in rules match no empty string, so
    the rule that rejects an empty iteration has no case here. *)
Fixpoint rep (p : N → bool) (min : nat) (max : option nat) (s : text)
    (k : text → option text) : option text :=
  let stop := match min with O => k s | S _ => None end in
  match s with
  | [] => stop
  | c :: s' =>
    if p c && negb (bool_decide (max = Some O)) then
      match rep p (Nat.pred min) (Nat.pred <$> max) s' k with
      | Some r => Some r
      | None => stop
      end
    else stop
  end.

Fixpoint run (r : syntax) (s : text) (k : text → option text)
    : option text :=
  match r with
  | Lit l => if startsWith s l then k (drop (length l) s) else None
  | Cls p min max => rep p min max s k
  | Seq a b => run a s (λ s', run b s' k)
  | Alt a b =>
    match run a s k with
    | Some r => Some r
    | None => run b s k
    end
  | Opt a =>
    match run a s k with
    | Some r => Some r
    | None => k s
    end
  end.

Definition compile (r : syntax) : t :=
  λ s i, (λ rest, length (drop i s) - length rest) <$> run r (drop i s) Some.

Fixpoint seqs (l : list syntax) : syntax :=
  match l with
  | [] => Lit []
  | [a] => a
  | a :: l' => Seq a (seqs l')
  end.

Fixpoint alts (a : syntax) (l : list syntax) : syntax :=
  match l with
  | [] => a
  | b :: l' => Alt a (alts b l')
  end.

(** Character classes (no [u] flag: classes range over code units). *)
Definition in_range (lo hi c : N) : bool := ((lo <=? c) && (c <=? hi))%N.

(** [\s]: WhiteSpace and LineTerminator. *)
Definition cls_s (c : N) : bool :=
  in_range 9 13 c || (c =? 32)%N || (c =? 160)%N || (c =? 5760)%N
  || in_range 8192 8202 c || (c =? 8232)%N || (c =? 8233)%N
  || (c =? 8239)%N || (c =? 8287)%N || (c =? 12288)%N || (c =? 65279)%N.

(** [\d] and [\w]. *)
Definition cls_d (c : N) : bool := in_range 48 57 c.
Definition cls_w (c : N) : bool :=
  in_range 97 122 c || in_range 65 90 c || cls_d c || (c =? 95)%N.

(** [.] without the [s] flag: anything but a LineTerminator. *)
Definition cls_dot (c : N) : bool :=
  negb ((c =? 10)%N || (c =? 13)%N || (c =? 8232)%N || (c =? 8233)%N).

(** [[一-龯々]]: U+4E00 to U+9FAF, and U+3005. *)
Definition cls_kanji (c : N) : bool := in_range 19968 40879 c || (c =? 12293)%N.

(** [[\w\.-]], [[-\s]], [[\s　]] and [[^\s、。,\.]]. *)
Definition cls_mail (c : N) : bool := cls_w c || (c =? 46)%N || (c =? 45)%N.
Definition cls_sep (c : N) : bool := (c =? 45)%N || cls_s c.
Definition cls_space (c : N) : bool := cls_s c || (c =? 12288)%N.
Definition cls_body (c : N) : bool :=
  negb (cls_s c || (c =? 12289)%N || (c =? 12290)%N || (c =? 44)%N
        || (c =? 46)%N).

Definition lit (s : string) : syntax := Lit (utf16 s).

(** /[一-龯々]{2,4}(?:\s+)?[一-龯々]{2,4}(?:さん|様|氏|殿|くん|ちゃん)?/g *)
Definition name_regex : syntax :=
  seqs [ Cls cls_kanji 2 (Some 4);
         Opt (Cls cls_s 1 None);
         Cls cls_kanji 2 (Some 4);
         Opt (alts (lit "さん")
                [lit "様"; lit "氏"; lit "殿"; lit "くん"; lit "ちゃん"]) ].

(** /[\w\.-]+@[\w\.-]+\.\w+/g *)
Definition email_regex : syntax :=
  seqs [ Cls cls_mail 1 None; lit "@"; Cls cls_mail 1 None; lit ".";
         Cls cls_w 1 None ].

(** /0\d{1,4}[-\s]?\d{1,4}[-\s]?\d{4}/g *)
Definition phone_regex : syntax :=
  seqs [ lit "0"; Cls cls_d 1 (Some 4); Cls cls_sep 0 (Some 1);
         Cls cls_d 1 (Some 4); Cls cls_sep 0 (Some 1);
         Cls cls_d 4 (Some 4) ].

(** /(東京都|北海道|(?:京都|大阪)府|.{2,3}県)[\s　]*[^\s、。,\.]{2,}/g *)
Definition address_regex : syntax :=
  seqs [ alts (lit "東京都")
           [ lit "北海道";
             Seq (Alt (lit "京都") (lit "大阪")) (lit "府");
             Seq (Cls cls_dot 2 (Some 3)) (lit "県") ];
         Cls cls_space 0 None;
         Cls cls_body 2 None ].

(** /(?:株式会社|有限会社|合同会社|一般社団法人|公益財団法人)[\s　]*[^\s、。,\.]{2,}
     |[^\s、。,\.]{2,}(?:株式会社|有限会社|合同会社)/g *)
Definition company_regex : syntax :=
  Alt
    (seqs [ alts (lit "株式会社")
              [ lit "有限会社"; lit "合同会社"; lit "一般社団法人";
                lit "公益財団法人" ];
            Cls cls_space 0 None;
            Cls cls_body 2 None ])
    (Seq (Cls cls_body 2 None)
         (alts (lit "株式会社") [lit "有限会社"; lit "合同会社"])).

End RegExp.

(** ** The engine's records *)

(** A rule of [this.patterns]. *)
Module Pattern.
Record t := { regex : RegExp.t; label : JS.text; description : JS.text }.
End Pattern.

(** An element of the [detections] array. *)
Module Detection.
Record t := {
  type : JS.text;
  description : JS.text;
  original : JS.text;
  masked : JS.text;
  startIndex : nat;
  endIndex : nat
}.
End Detection.

(** The object [mask] returns; [mappingTable] is a reference to a Map. *)
Module MaskResult.
Record t := {
  maskedText : JS.text;
  detections : list Detection.t;
  mappingTable : JS.loc
}.
End MaskResult.

(** An element of [getAvailablePatterns()]. *)
Module PatternInfo.
Record t := { key : JS.text; label : JS.text; description : JS.text }.
End PatternInfo.

(** A property of [detect(text).summary]. *)
Module Summary.
Record t := { count : nat; description : JS.text; samples : list JS.text }.
End Summary.

(** The object [detect] returns; the early return has no
    [totalDetections]. *)
Module DetectResult.
Record t := {
  hasPersonalInfo : bool;
  totalDetections : option nat;
  summary : JS.entries Summary.t
}.
End DetectResult.

(** A property of the object [getStatistics] returns. *)
Module Statistic.
Record t := { description : JS.text; count : nat }.
End Statistic.

(** ** class MaskingEngine *)

Module MaskingEngine.
Import JS.

(** The fields of an engine: the rule object, a reference to the
    engine's own Map, and the counter object. *)
Record t := {
  patterns : entries Pattern.t;
  mappingTable : loc;
  counter : gmap text number
}.

Definition rule (re : RegExp.syntax) (label description : string)
    : Pattern.t :=
  {| Pattern.regex := RegExp.compile re;
     Pattern.label := utf16 label;
     Pattern.description := utf16 description |}.

Definition default_patterns : entries Pattern.t :=
  [ (utf16 "name", rule RegExp.name_regex "Person" "氏名");
    (utf16 "email", rule RegExp.email_regex "Email" "メールアドレス");
    (utf16 "phone", rule RegExp.phone_regex "Phone" "電話番号");
    (utf16 "address", rule RegExp.address_regex "Location" "住所");
    (utf16 "company", rule RegExp.company_regex "Company" "企業名") ].

Definition constructor (heap : Heap) : t * Heap :=
  let '(m, heap1) := new_Map heap [] in
  ({| patterns := default_patterns; mappingTable := m; counter := ∅ |},
   heap1).

(** What the body of [mask] reads and writes: the engine, the heap and
    the locals [maskedText] and [detections]. *)
Record Frame := {
  this : t;
  heap : Heap;
  maskedText : text;
  detections : list Detection.t
}.

(** [`[${label}_${String.fromCharCode(64 + n)}]`] *)
Definition maskLabel (label : text) (n : N) : text :=
  [91%N] ++ label ++ [95%N] ++ [fromCharCode (64 + n)] ++ [93%N].

(** [originalText.startsWith('[') && originalText.endsWith(']')] *)
Definition isMasked (originalText : text) : bool :=
  startsWith originalText [91%N] && endsWith originalText [93%N].

(** The placeholder with the counter as [this.counter[patternKey]]
    reads it. *)
Definition maskLabelAt (label : text) (p : property) : text :=
  [91%N] ++ label ++ [95%N] ++ [fromCharCode64 p] ++ [93%N].

(** [!this.counter[patternKey]]: the property is missing, zero or
    [NaN]; an inherited one is a function or an object. *)
Definition falsy (p : property) : bool :=
  match p with
  | Own (Num n) => (n =? 0)%N
  | Own NaN => true
  | Inherited => false
  | Missing => true
  end.

(** The body of the inner loop (lines 87 to 115) for one match. *)
Definition maskMatch (patternKey : text) (patternConfig : Pattern.t)
    (f : Frame) (m : RegExp.Match) : Frame :=
  let originalText := RegExp.matched m in
  let startIndex := RegExp.index m in
  let endIndex := startIndex + length originalText in
  if isMasked originalText then f
  else
    (* [this.counter[patternKey]++], and the counter read again. *)
    let counter1 :=
      write (counter (this f)) patternKey
        (add 1 (ToNumber (read (counter (this f)) patternKey))) in
    let label :=
      maskLabelAt (Pattern.label patternConfig) (read counter1 patternKey) in
    {| this := {| patterns := patterns (this f);
                  mappingTable := mappingTable (this f);
                  counter := counter1 |};
       heap := Map_set (heap f) (mappingTable (this f)) label originalText;
       maskedText := slice (maskedText f) 0 startIndex ++ label
                       ++ slice_from (maskedText f) endIndex;
       detections := detections f ++ [
         {| Detection.type := patternKey;
            Detection.description := Pattern.description patternConfig;
            Detection.original := originalText;
            Detection.masked := label;
            Detection.startIndex := startIndex;
            Detection.endIndex := endIndex |} ] |}.

(** Lines 81 to 83: [if (!this.counter[patternKey]) this.counter[patternKey] = 0]. *)
Definition initCounter (patternKey : text) (f : Frame) : Frame :=
  if falsy (read (counter (this f)) patternKey) then
    {| this := {| patterns := patterns (this f);
                  mappingTable := mappingTable (this f);
                  counter := write (counter (this f)) patternKey (Num 0) |};
       heap := heap f;
       maskedText := maskedText f;
       detections := detections f |}
  else f.

(** The body of the outer loop (lines 76 to 116) for one rule: the
    matches are taken from the text as it stands, and are processed from
    the last one to the first. *)
Definition maskPattern (f : Frame) (entry : text * Pattern.t) : Frame :=
  let '(patternKey, patternConfig) := entry in
  let matches := RegExp.matchAll (maskedText f) (Pattern.regex patternConfig) in
  match matches with
  | [] => f
  | _ =>
    fold_left (maskMatch patternKey patternConfig) (reverse matches)
      (initCounter patternKey f)
  end.

(** [patternsToUse] (lines 70 to 72); [None] is the default [null]. *)
Definition patternsToUse (this : t) (enabledPatterns : option (list text))
    : entries Pattern.t :=
  match enabledPatterns with
  | Some enabled =>
    filter (λ kv, kv.1 ∈ enabled) (Object_entries (patterns this))
  | None => Object_entries (patterns this)
  end.

(** [mask(text, enabledPatterns = null)]: the result, and the engine and
    the heap as the call leaves them. *)
Definition mask (this0 : t) (heap0 : Heap) (text0 : text)
    (enabledPatterns : option (list text)) : MaskResult.t * t * Heap :=
  match text0 with
  | [] =>
    let '(m, heap1) := new_Map heap0 [] in
    ({| MaskResult.maskedText := [];
        MaskResult.detections := [];
        MaskResult.mappingTable := m |}, this0, heap1)
  | _ =>
    let '(m, heap1) := new_Map heap0 [] in
    let this1 := {| patterns := patterns this0;
                    mappingTable := m;
                    counter := ∅ |} in
    let f := fold_left maskPattern (patternsToUse this1 enabledPatterns)
               {| this := this1; heap := heap1; maskedText := text0;
                  detections := [] |} in
    let '(r, heap2) :=
      new_Map (heap f) (default [] (heap f !! mappingTable (this f))) in
    ({| MaskResult.maskedText := maskedText f;
        MaskResult.detections := reverse (detections f);
        MaskResult.mappingTable := r |}, this f, heap2)
  end.

(** [restore(maskedText, mappingTable)]; [None] is a missing table. *)
Definition restore (maskedText : text) (mappingTable : option Map) : text :=
  match maskedText, mappingTable with
  | [], _ => maskedText
  | _, None => maskedText
  | _, Some table =>
    fold_left (λ restoredText kv, replaceAll restoredText kv.1 kv.2)
      table maskedText
  end.

(** [addCustomPattern(key, regex, label, description)]: an assignment
    to [this.patterns[key]].  (For the key [__proto__], unless the
    object owns it, the code sets the prototype of [this.patterns]
    instead and adds no rule; the statements on the rule added leave
    that key out.) *)
Definition addCustomPattern (this : t) (key : text) (regex : RegExp.t)
    (label description : text) : t :=
  {| patterns := set (patterns this) key
                   {| Pattern.regex := regex; Pattern.label := label;
                      Pattern.description := description |};
     mappingTable := mappingTable this;
     counter := counter this |}.

(** [removePattern(key)] *)
Definition removePattern (this : t) (key : text) : t :=
  {| patterns := delete (patterns this) key;
     mappingTable := mappingTable this;
     counter := counter this |}.

(** [getAvailablePatterns()] *)
Definition getAvailablePatterns (this : t) : list PatternInfo.t :=
  (λ entry, {| PatternInfo.key := entry.1;
               PatternInfo.label := Pattern.label entry.2;
               PatternInfo.description := Pattern.description entry.2 |})
    <$> Object_entries (patterns this).

(** The body of the loop of [detect] (lines 192 to 200) for one rule:
    every match counts, bracket-delimited or not, and the text is the
    one given, whatever other rules match in it. *)
Definition detectPattern (text0 : text)
    (acc : entries Summary.t * nat) (entry : text * Pattern.t)
    : entries Summary.t * nat :=
  let matches := RegExp.matchAll text0 (Pattern.regex entry.2) in
  if bool_decide (0 < length matches) then
    (set acc.1 entry.1
       {| Summary.count := length matches;
          Summary.description := Pattern.description entry.2;
          Summary.samples := RegExp.matched <$> take 3 matches |},
     acc.2 + length matches)
  else acc.

(** [detect(text)] *)
Definition detect (this : t) (text0 : text) : DetectResult.t :=
  match text0 with
  | [] =>
    {| DetectResult.hasPersonalInfo := false;
       DetectResult.totalDetections := None;
       DetectResult.summary := [] |}
  | _ =>
    let acc := fold_left (detectPattern text0)
                 (Object_entries (patterns this)) ([], 0) in
    {| DetectResult.hasPersonalInfo := bool_decide (0 < acc.2);
       DetectResult.totalDetections := Some acc.2;
       DetectResult.summary := acc.1 |}
  end.

(** The body of the loop of [getStatistics] (lines 219 to 225).  Under
    a name that [Object.prototype] has and [stats] does not own,
    [stats[type]] is the inherited function or object: the guard finds
    it, no entry is made, and [count++] lands on that built-in, which
    nothing here reads. *)
Definition countDetection (stats : entries Statistic.t)
    (detection : Detection.t) : entries Statistic.t :=
  let increment :=
    λ s, {| Statistic.description := Statistic.description s;
            Statistic.count := S (Statistic.count s) |} in
  match get stats (Detection.type detection) with
  | Some _ => update stats (Detection.type detection) increment
  | None =>
    if bool_decide (Detection.type detection ∈ Object_prototype) then stats
    else
      update
        (set stats (Detection.type detection)
           {| Statistic.description := Detection.description detection;
              Statistic.count := 0 |})
        (Detection.type detection) increment
  end.

(** [getStatistics(detections)] *)
Definition getStatistics (detections : list Detection.t)
    : entries Statistic.t :=
  fold_left countDetection detections [].

End MaskingEngine.

(** ** Vocabulary of the statements *)

Module Spec.
Import JS MaskingEngine.

(** The contents of the engine's own Map, as a frame sees them. *)
Definition table (f : Frame) : option Map :=
  heap f !! mappingTable (this f).

(** What the rest of a [mask] call depends on. *)
Definition abs (f : Frame)
    : entries Pattern.t * gmap text number * text * list Detection.t
      * option Map :=
  (patterns (this f), counter (this f), maskedText f, detections f, table f).

(** A frame [f'] reached from [f] kept the rules and the reference to
    the engine's Map, and wrote to no other Map. *)
Definition extends (f f' : Frame) : Prop :=
  patterns (this f') = patterns (this f)
  ∧ mappingTable (this f') = mappingTable (this f)
  ∧ length (heap f') = length (heap f)
  ∧ ∀ l, l ≠ mappingTable (this f) → heap f' !! l = heap f !! l.

(** The Map that results from recording detections in order. *)
Definition table_of (ds : list Detection.t) : Map :=
  fold_left (λ m d, set m (Detection.masked d) (Detection.original d)) ds [].

(** The detections one rule pushed, in the order it pushed them, when
    its counter stood at [c0] before: the ([i]+1)-th carries the rule's
    key and the placeholder of number [c0 + i + 1]. *)
Definition block_of (c0 : N) (rule : text * Pattern.t)
    (block : list Detection.t) : Prop :=
  ∀ i d, block !! i = Some d →
    Detection.type d = rule.1
    ∧ Detection.masked d
      = maskLabel (Pattern.label rule.2) (c0 + N.of_nat (S i)).

(** What a caller observes of a [mask] call: the masked text, the
    detections, and the contents of the returned Map. *)
Definition view (out : MaskResult.t * t * Heap)
    : text * list Detection.t * option Map :=
  (MaskResult.maskedText out.1.1, MaskResult.detections out.1.1,
   out.2 !! MaskResult.mappingTable out.1.1).

(** The frame in which the loop over the rules of a call starts, and
    the frame in which it ends. *)
Definition start (this0 : t) (heap0 : Heap) (text0 : text) : Frame :=
  {| this := {| patterns := patterns this0;
                mappingTable := length heap0;
                counter := ∅ |};
     heap := heap0 ++ [[]];
     maskedText := text0;
     detections := [] |}.

Definition final (this0 : t) (heap0 : Heap) (text0 : text)
    (enabledPatterns : option (list text)) : Frame :=
  fold_left maskPattern (patternsToUse this0 enabledPatterns)
    (start this0 heap0 text0).

(** A sequence of [mask] calls on one engine, results dropped. *)
Definition calls (state : t * Heap)
    (inputs : list (text * option (list text))) : t * Heap :=
  fold_left (λ st input,
               let out := mask st.1 st.2 input.1 input.2 in
               (out.1.2, out.2))
    inputs state.

(** A syntax tree that cannot match without a character that is no
    white space: on a text of white space only it fails, whatever the
    continuation. *)
Definition inked (r : RegExp.syntax) : Prop :=
  ∀ (s : text) k, Forall (λ c, RegExp.cls_s c = true) s →
    RegExp.run r s k = None.

(** Turns a statement on character classes into one on numbers. *)
Ltac classes :=
  unfold RegExp.cls_body, RegExp.cls_kanji, RegExp.cls_mail, RegExp.cls_w,
    RegExp.cls_d, RegExp.cls_s, RegExp.in_range;
  rewrite <-?not_true_iff_false, ?negb_true_iff, <-?not_true_iff_false;
  rewrite ?orb_true_iff, ?andb_true_iff, ?N.leb_le, ?N.eqb_eq.

(** The five built-in rules on a fresh engine. *)
Definition engine0 : t := (constructor []).1.
Definition heap0 : Heap := (constructor []).2.

End Spec.

(** ** A masked text in pieces *)

Module Pieces.
Import JS MaskingEngine.

(** A text that one rule masked, cut at the placeholders: the
    stretches of text between them ([inl]) and the placeholders, by
    their numbers ([inr]). *)
Fixpoint render (label : text) (pieces : list (text + N)) : text :=
  match pieces with
  | [] => []
  | inl stretch :: rest => stretch ++ render label rest
  | inr n :: rest => maskLabel label n ++ render label rest
  end.

(** One [replaceAll] seen on the pieces, and all those of a table. *)
Definition fill1 (label search replaceValue : text) (piece : text + N)
    : text + N :=
  match piece with
  | inl _ => piece
  | inr n =>
    if decide (maskLabel label n = search) then inl replaceValue else piece
  end.

Definition fill (label : text) (table : Map) (piece : text + N)
    : text + N :=
  match piece with
  | inl _ => piece
  | inr n =>
    match get table (maskLabel label n) with
    | Some originalText => inl originalText
    | None => piece
    end
  end.

(** The stretches hold no opening bracket. *)
Definition plain (piece : text + N) : Prop :=
  match piece with
  | inl stretch => 91%N ∉ stretch
  | inr _ => True
  end.

(** Two matches of one [matchAll]: the first ends before the second
    starts. *)
Definition before (m1 m2 : RegExp.Match) : Prop :=
  RegExp.index m1 + length (RegExp.matched m1) ≤ RegExp.index m2.

(** A match of a text [s]: what it matched is where it says. *)
Definition within (s : text) (m : RegExp.Match) : Prop :=
  RegExp.index m + length (RegExp.matched m) ≤ length s
  ∧ RegExp.matched m
    = slice s (RegExp.index m) (RegExp.index m + length (RegExp.matched m)).

End Pieces.

(** ** The side panel (src/sidepanel/sidepanel.js) *)

(** The message [performMasking] sends to the content script. *)
Module MaskedTextUpdated.
Record t := { maskedText : JS.text; detections : list Detection.t }.
End MaskedTextUpdated.

(** A tab as [chrome.tabs.query] lists it: its [id], if it has one. *)
Module Tab.
Record t := { id : option Z }.
End Tab.

(** An element of [savedMappings] in [chrome.storage.local]. *)
Module SavedMapping.
Record t := {
  id : JS.text;
  name : JS.text;
  createdAt : JS.text;
  mappingTable : JS.entries (list N);
  itemCount : nat
}.
End SavedMapping.

(** An element of [customPatterns] in [chrome.storage.sync]. *)
Module CustomPattern.
Record t := {
  key : JS.text;
  label : JS.text;
  regex : JS.text;
  description : JS.text
}.
End CustomPattern.

Module SidePanel.
Import JS.

(** What the functions of the panel read and write: the values of the
    two text areas, the count and the [has-detection] class of each
    stat element, the engine and the reference [currentMappingTable]. *)
Record t := {
  originalText : text;
  maskedText : text;
  statElements : entries (nat * bool);
  maskingEngine : MaskingEngine.t;
  currentMappingTable : loc
}.

(** The keys of [statElements], in the order of the object literal. *)
Definition statKeys : list text :=
  [utf16 "name"; utf16 "phone"; utf16 "email"; utf16 "address";
   utf16 "company"].

(** [updateStats(stats)]: [stats[key]?.count || 0] for each stat
    element, and the class [has-detection] when the count is positive. *)
Definition updateStats (stats : entries Statistic.t) : entries (nat * bool) :=
  (λ key, let count := default 0 (Statistic.count <$> get stats key) in
          (key, (count, bool_decide (0 < count)))) <$> statKeys.

(** [performMasking()]: the panel, the heap and the message it hands
    to [notifyContentScript], if it calls it. *)
Definition performMasking (panel : t) (heap : Heap)
    : t * Heap * option MaskedTextUpdated.t :=
  let text0 := originalText panel in
  match trim text0 with
  | [] =>
    let '(m, heap1) := new_Map heap [] in
    ({| originalText := originalText panel;
        maskedText := [];
        statElements := updateStats [];
        maskingEngine := maskingEngine panel;
        currentMappingTable := m |}, heap1, None)
  | _ =>
    let '(result, engine1, heap1) :=
      MaskingEngine.mask (maskingEngine panel) heap text0 None in
    let stats := MaskingEngine.getStatistics (MaskResult.detections result) in
    ({| originalText := originalText panel;
        maskedText := MaskResult.maskedText result;
        statElements := updateStats stats;
        maskingEngine := engine1;
        currentMappingTable := MaskResult.mappingTable result |}, heap1,
     Some {| MaskedTextUpdated.maskedText := MaskResult.maskedText result;
             MaskedTextUpdated.detections := MaskResult.detections result |})
  end.

(** [notifyContentScript(message)], given what
    [chrome.tabs.query({active: true, currentWindow: true})] yields
    ([None] when it fails): the call of [chrome.tabs.sendMessage] made,
    if one is.  It is made for the first tab, when there is one and its
    [id] is neither missing nor 0; what becomes of the call is not
    looked at. *)
Definition notifyContentScript (tabs : option (list Tab.t))
    (message : MaskedTextUpdated.t) : option (Z * MaskedTextUpdated.t) :=
  match tabs with
  | Some (tab :: _) =>
    match Tab.id tab with
    | Some tabId =>
      if bool_decide (tabId = 0%Z) then None else Some (tabId, message)
    | None => None
    end
  | _ => None
  end.

(** [clearText()] *)
Definition clearText (panel : t) (heap : Heap) : t * Heap :=
  let '(m, heap1) := new_Map heap [] in
  ({| originalText := [];
      maskedText := [];
      statElements := updateStats [];
      maskingEngine := maskingEngine panel;
      currentMappingTable := m |}, heap1).

(** [currentMappingTable.size] *)
Definition size (panel : t) (heap : Heap) : nat :=
  length (default [] (heap !! currentMappingTable panel)).

(** [restoreText()]: nothing is done with an empty table. *)
Definition restoreText (panel : t) (heap : Heap) : t :=
  if bool_decide (size panel heap = 0) then panel
  else
    {| originalText := originalText panel;
       maskedText := MaskingEngine.restore (maskedText panel)
                       (heap !! currentMappingTable panel);
       statElements := statElements panel;
       maskingEngine := maskingEngine panel;
       currentMappingTable := currentMappingTable panel |}.

(** [decryptAIResponse()], given what [navigator.clipboard.readText()]
    yields ([None] when it fails). *)
Definition decryptAIResponse (panel : t) (heap : Heap)
    (clipboard : option text) : t :=
  if bool_decide (size panel heap = 0) then panel
  else
    match clipboard with
    | None => panel
    | Some clipboardText =>
      match trim clipboardText with
      | [] => panel
      | _ =>
        {| originalText := originalText panel;
           maskedText := MaskingEngine.restore clipboardText
                           (heap !! currentMappingTable panel);
           statElements := statElements panel;
           maskingEngine := maskingEngine panel;
           currentMappingTable := currentMappingTable panel |}
      end
    end.

(** [saveMapping()] on the stored list; [id], [name] and [createdAt]
    come from the clock.  The newest mapping goes first and ten are
    kept. *)
Definition saveMapping (panel : t) (heap : Heap)
    (savedMappings : list SavedMapping.t) (id name createdAt : text)
    : list SavedMapping.t :=
  if bool_decide (size panel heap = 0) then savedMappings
  else
    let newMapping :=
      {| SavedMapping.id := id;
         SavedMapping.name := name;
         SavedMapping.createdAt := createdAt;
         SavedMapping.mappingTable :=
           Object_fromEntries (default [] (heap !! currentMappingTable panel));
         SavedMapping.itemCount := size panel heap |} in
    take 10 (newMapping :: savedMappings).

(** [savedMappings.find(m => m.id === selectedId)] *)
Fixpoint find (savedMappings : list SavedMapping.t) (selectedId : text)
    : option SavedMapping.t :=
  match savedMappings with
  | [] => None
  | m :: rest =>
    if decide (SavedMapping.id m = selectedId) then Some m
    else find rest selectedId
  end.

(** [selectMapping()], [selectedId] being [mappingSelect.value]. *)
Definition selectMapping (panel : t) (heap : Heap)
    (savedMappings : list SavedMapping.t) (selectedId : text) : t * Heap :=
  match selectedId with
  | [] => (panel, heap)
  | _ =>
    match find savedMappings selectedId with
    | None => (panel, heap)
    | Some mapping =>
      let '(m, heap1) :=
        new_Map heap (Object_entries (SavedMapping.mappingTable mapping)) in
      ({| originalText := originalText panel;
          maskedText := maskedText panel;
          statElements := statElements panel;
          maskingEngine := maskingEngine panel;
          currentMappingTable := m |}, heap1)
    end
  end.

(** [deleteMapping()] on the stored list. *)
Definition deleteMapping (savedMappings : list SavedMapping.t)
    (selectedId : text) : list SavedMapping.t :=
  match selectedId with
  | [] => savedMappings
  | _ => filter (λ m, SavedMapping.id m ≠ selectedId) savedMappings
  end.

(** [increaseFontSize()] and [decreaseFontSize()] on
    [currentFontSizeIndex]; [fontSizes] has four elements. *)
Definition increaseFontSize (currentFontSizeIndex : Z) : Z :=
  if bool_decide (currentFontSizeIndex < 4 - 1)%Z
  then (currentFontSizeIndex + 1)%Z else currentFontSizeIndex.

Definition decreaseFontSize (currentFontSizeIndex : Z) : Z :=
  if bool_decide (currentFontSizeIndex > 0)%Z
  then (currentFontSizeIndex - 1)%Z else currentFontSizeIndex.

(** [loadCustomPatterns()] on the engine, given the two stored lists:
    the disabled keys are removed, then each custom pattern whose source
    [new RegExp(source, 'g')] accepts is added; one it rejects is
    passed over. *)
Definition loadCustomPatterns (RegExp_new : text → option RegExp.t)
    (engine : MaskingEngine.t) (customPatterns : list CustomPattern.t)
    (disabledPatterns : list text) : MaskingEngine.t :=
  let engine1 :=
    fold_left MaskingEngine.removePattern disabledPatterns engine in
  fold_left
    (λ e pattern,
       match RegExp_new (CustomPattern.regex pattern) with
       | Some regex =>
         MaskingEngine.addCustomPattern e (CustomPattern.key pattern) regex
           (CustomPattern.label pattern) (CustomPattern.description pattern)
       | None => e
       end)
    customPatterns engine1.

End SidePanel.

(** ** The content script (src/content/content.js) *)

Module ContentScript.
Import JS.

(** The variables [isEnabled] and [lastInputValue]. *)
Record t := { isEnabled : bool; lastInputValue : text }.

(** [handleInput(event)], given the text of the element: the new state
    and the text sent to the background as [TEXT_FROM_PAGE], if one
    is. *)
Definition handleInput (state : t) (text0 : text) : t * option text :=
  if negb (isEnabled state) then (state, None)
  else
    match trim text0 with
    | [] => (state, None)
    | _ =>
      if bool_decide (text0 = lastInputValue state) then (state, None)
      else ({| isEnabled := isEnabled state; lastInputValue := text0 |},
            Some text0)
    end.

(** What happens to the script: an input or paste event on an observed
    element, with the text [getInputText] reads from it, or the message
    [ENABLED_STATE_CHANGED] (the answer to [GET_ENABLED_STATE] in
    [init] sets [isEnabled] in the same way). *)
Inductive Event :=
| Input (text0 : text)
| EnabledStateChanged (enabled : bool).

Definition handle (acc : t * list text) (event : Event) : t * list text :=
  match event with
  | Input text0 =>
    let '(state, sent) := handleInput acc.1 text0 in
    (state, acc.2 ++ match sent with Some x => [x] | None => [] end)
  | EnabledStateChanged enabled =>
    ({| isEnabled := enabled; lastInputValue := lastInputValue acc.1 |},
     acc.2)
  end.

(** The script after a sequence of events, with the texts it sent. *)
Definition run (events : list Event) : t * list text :=
  fold_left handle events ({| isEnabled := true; lastInputValue := [] |}, []).

End ContentScript.

(** ** The options page (the second script of src/lib/masking-engine.js) *)

Module Options.
Import JS.

(** [currentSettings.customPatterns], an array ([None] is a hole, which
    an assignment past the end leaves behind), and
    [editingPatternIndex], -1 when a pattern is added. *)
Record t := {
  customPatterns : list (option CustomPattern.t);
  editingPatternIndex : Z
}.

(** [customPatterns.some((p, i) => p.key === key && i !== editing)]:
    holes are passed over. *)
Fixpoint isDuplicate (patterns : list (option CustomPattern.t)) (i : Z)
    (key : text) (editing : Z) : bool :=
  match patterns with
  | [] => false
  | p :: rest =>
    match p with
    | Some q =>
      bool_decide (CustomPattern.key q = key) && negb (i =? editing)%Z
    | None => false
    end
    || isDuplicate rest (i + 1) key editing
  end.

(** [array[i] = x]: past the end the array grows, with holes. *)
Definition assign {A} (array : list (option A)) (i : nat) (x : A)
    : list (option A) :=
  if bool_decide (i < length array) then <[i := Some x]> array
  else array ++ replicate (i - length array) None ++ [Some x].

(** [savePattern()], given the values of the four fields and whether
    [new RegExp(source)] accepts a source: [None] when an alert is
    shown and nothing is saved; otherwise the pattern is stored and the
    dialog closed. *)
Definition savePattern (RegExp_valid : text → bool) (state : t)
    (patternKey patternLabel patternRegex patternDescription : text)
    : option t :=
  let key := trim patternKey in
  let label := trim patternLabel in
  let regex := trim patternRegex in
  let description := trim patternDescription in
  if bool_decide (key = []) || bool_decide (label = [])
     || bool_decide (regex = []) then None
  else if negb (RegExp_valid regex) then None
  else if isDuplicate (customPatterns state) 0 key (editingPatternIndex state)
  then None
  else
    let pattern := {| CustomPattern.key := key;
                      CustomPattern.label := label;
                      CustomPattern.regex := regex;
                      CustomPattern.description := description |} in
    Some {| customPatterns :=
              if bool_decide (0 ≤ editingPatternIndex state)%Z then
                assign (customPatterns state)
                  (Z.to_nat (editingPatternIndex state)) pattern
              else customPatterns state ++ [Some pattern];
            editingPatternIndex := (-1)%Z |}.

(** [deletePattern(index)], given the answer to the confirmation:
    [splice(index, 1)] removes nothing past the end. *)
Definition deletePattern (confirmed : bool) (state : t) (index : nat) : t :=
  if confirmed then
    {| customPatterns := base.delete index (customPatterns state);
       editingPatternIndex := editingPatternIndex state |}
  else state.

(** The keys of the patterns of an array. *)
Definition patternKeys (patterns : list (option CustomPattern.t))
    : list text :=
  omap (fmap CustomPattern.key) patterns.

End Options.

(** * Properties *)

(** ** Objects and Maps *)

Section entries_facts.
Context {V : Type}.
Implicit Types (o : JS.entries V) (k : JS.text) (v : V).

Lemma get_set_eq o k v : JS.get (JS.set o k v) k = Some v.
Proof.
  induction o as [|[k' v'] o IH]; simpl.
  - by rewrite decide_True.
  - destruct (decide (k' = k)) as [->|Hne]; simpl.
    + by rewrite decide_True.
    + by rewrite decide_False.
Qed.

Lemma get_set_ne o k k' v : k ≠ k' → JS.get (JS.set o k v) k' = JS.get o k'.
Proof.
  intros Hne. induction o as [|[k0 v0] o IH]; simpl.
  - by rewrite decide_False.
  - destruct (decide (k0 = k)) as [->|Hk]; simpl.
    + by rewrite !decide_False.
    + by rewrite IH.
Qed.

Lemma keys_set_present o k v :
  k ∈ JS.keys o → JS.keys (JS.set o k v) = JS.keys o.
Proof.
  unfold JS.keys. induction o as [|[k' v'] o IH]; csimpl.
  - by intros ?%elem_of_nil.
  - intros Hin. destruct (decide (k' = k)) as [->|Hne]; csimpl; [done|].
    f_equal. apply IH. apply elem_of_cons in Hin as [?|?]; [congruence|done].
Qed.

Lemma keys_set_absent o k v :
  k ∉ JS.keys o → JS.keys (JS.set o k v) = JS.keys o ++ [k].
Proof.
  unfold JS.keys. induction o as [|[k' v'] o IH]; csimpl; [done|].
  intros Hin. apply not_elem_of_cons in Hin as [Hne Hin].
  rewrite decide_False by done. csimpl. by rewrite IH.
Qed.

Lemma elem_of_keys_set o k v k' :
  k' ∈ JS.keys (JS.set o k v) ↔ k' = k ∨ k' ∈ JS.keys o.
Proof.
  destruct (decide (k ∈ JS.keys o)) as [Hin|Hin].
  - rewrite keys_set_present by done. split; [by right|].
    by intros [->|?].
  - rewrite keys_set_absent by done. rewrite elem_of_app, list_elem_of_singleton.
    tauto.
Qed.

Lemma NoDup_keys_set o k v :
  NoDup (JS.keys o) → NoDup (JS.keys (JS.set o k v)).
Proof.
  intros Hnd. destruct (decide (k ∈ JS.keys o)) as [Hin|Hin].
  - by rewrite keys_set_present.
  - rewrite keys_set_absent by done. apply NoDup_app. split_and!; [done| |].
    + intros x Hx ->%list_elem_of_singleton. done.
    + apply NoDup_singleton.
Qed.


Lemma keys_delete o k : JS.keys (JS.delete o k) = filter (λ k', k' ≠ k) (JS.keys o).
Proof.
  unfold JS.keys, JS.delete. induction o as [|[k' v'] o IH]; [done|].
  rewrite fmap_cons. cbn [fst]. destruct (decide (k' ≠ k)).
  - rewrite !filter_cons_True by done. rewrite fmap_cons. by rewrite IH.
  - rewrite !filter_cons_False by done. done.
Qed.

Lemma NoDup_keys_delete o k :
  NoDup (JS.keys o) → NoDup (JS.keys (JS.delete o k)).
Proof. rewrite keys_delete. apply NoDup_filter. Qed.

Lemma get_delete_eq o k : JS.get (JS.delete o k) k = None.
Proof.
  unfold JS.delete. induction o as [|[k' v'] o IH]; [done|].
  destruct (decide (k' = k)) as [->|Hne].
  - by rewrite filter_cons_False by (simpl; tauto).
  - rewrite filter_cons_True by done. simpl. by rewrite decide_False.
Qed.

Lemma get_delete_ne o k k' :
  k ≠ k' → JS.get (JS.delete o k) k' = JS.get o k'.
Proof.
  intros Hne. unfold JS.delete. induction o as [|[k0 v0] o IH]; [done|].
  destruct (decide (k0 = k)) as [->|Hk].
  - rewrite filter_cons_False by (simpl; tauto). simpl. by rewrite decide_False.
  - rewrite filter_cons_True by done. simpl. by rewrite IH.
Qed.

Lemma get_elem_of o k v : JS.get o k = Some v → (k, v) ∈ o.
Proof.
  induction o as [|[k' v'] o IH]; simpl; [done|].
  destruct (decide (k' = k)) as [->|Hne].
  - intros [= ->]. apply elem_of_cons. by left.
  - intros ?. apply elem_of_cons. right. by apply IH.
Qed.

Lemma get_None o k : JS.get o k = None ↔ k ∉ JS.keys o.
Proof.
  unfold JS.keys. induction o as [|[k' v'] o IH]; simpl.
  - split; [intros _; apply not_elem_of_nil|done].
  - rewrite not_elem_of_cons. destruct (decide (k' = k)) as [->|Hne].
    + split; [done|]. by intros [? _].
    + rewrite IH. split; [by split|]. by intros [_ ?].
Qed.

(** [Object.entries] lists every property exactly once. *)
Lemma insert_by_index_perm (e : N * (JS.text * V)) l :
  JS.insert_by_index e l ≡ₚ e :: l.
Proof.
  induction l as [|e' l IH]; simpl; [done|].
  destruct (e.1 <? e'.1)%N; [done|]. rewrite IH. apply Permutation_swap.
Qed.

Lemma index_sort_perm (l : list (N * (JS.text * V))) :
  foldr JS.insert_by_index [] l ≡ₚ l.
Proof.
  induction l as [|e l IH]; simpl; [done|].
  by rewrite insert_by_index_perm, IH.
Qed.

Lemma index_entries_filter o :
  (JS.index_entries o).*2 = filter (λ kv, ¬ JS.array_index kv.1 = None) o.
Proof.
  unfold JS.index_entries. induction o as [|[k v] o IH]; [done|].
  cbn [omap list_omap fst]. destruct (JS.array_index k) eqn:Hk; cbn [fmap option_fmap option_map].
  - rewrite filter_cons_True by (simpl; congruence). rewrite fmap_cons.
    by rewrite IH.
  - rewrite filter_cons_False by (simpl; tauto). done.
Qed.

Lemma Object_entries_perm o : JS.Object_entries o ≡ₚ o.
Proof.
  unfold JS.Object_entries. rewrite index_sort_perm, index_entries_filter.
  rewrite (comm (++)). apply filter_app_complement.
Qed.

Lemma Object_entries_keys_NoDup o :
  NoDup (JS.keys o) → NoDup (JS.keys (JS.Object_entries o)).
Proof. unfold JS.keys. by rewrite Object_entries_perm. Qed.

(** Keys without array indices are listed in creation order. *)
Lemma Object_entries_plain o :
  Forall (λ kv, JS.array_index kv.1 = None) o → JS.Object_entries o = o.
Proof.
  intros Hall. unfold JS.Object_entries.
  assert (JS.index_entries o = []) as ->.
  { unfold JS.index_entries. induction Hall as [|[k v] o Hk _ IH]; [done|].
    simpl in *. by rewrite Hk. }
  simpl. induction Hall as [|kv o Hk _ IH]; [done|].
  by rewrite filter_cons_True, IH.
Qed.

End entries_facts.

(** [new Map(m)] copies a Map entry by entry. *)
Lemma fold_set_app (m src : JS.Map) :
  NoDup (JS.keys (m ++ src)) →
  fold_left (λ m kv, JS.set m kv.1 kv.2) src m = m ++ src.
Proof.
  revert m. induction src as [|[k v] src IH]; intros m Hnd; simpl.
  - by rewrite app_nil_r.
  - assert (JS.set m k v = m ++ [(k, v)]) as ->.
    { clear IH. unfold JS.keys in Hnd. rewrite fmap_app in Hnd.
      apply NoDup_app in Hnd as (_ & Hnd & _).
      induction m as [|[k' v'] m IHm]; simpl; [done|].
      rewrite decide_False.
      - f_equal. apply IHm. intros x Hx. apply Hnd. simpl. by right.
      - intros ->. eapply (Hnd k); simpl; [by left|]. by left. }
    rewrite IH; rewrite <-(assoc (++)); done.
Qed.

Lemma Map_of_id (m : JS.Map) : NoDup (JS.keys m) → JS.Map_of m = m.
Proof. intros Hnd. unfold JS.Map_of. by rewrite fold_set_app. Qed.

(** ** The loops of [mask] *)

Section mask_loops.
Import JS MaskingEngine Spec.
Implicit Types (f : Frame) (key : list N) (cfg : Pattern.t)
  (m : RegExp.Match) (ds : list Detection.t).

Lemma fold_left_preserves {A B} (P : A → Prop) (g : A → B → A) l a :
  (∀ a b, P a → P (g a b)) → P a → P (fold_left g l a).
Proof.
  intros Hg. revert a. induction l as [|b l IH]; intros a Ha; simpl; [done|].
  apply IH. by apply Hg.
Qed.

(** A match that is already bracket-delimited changes nothing. *)
Lemma maskMatch_skip key cfg f m :
  isMasked (RegExp.matched m) = true → maskMatch key cfg f m = f.
Proof. intros H. unfold maskMatch. by rewrite H. Qed.

Lemma extends_refl f : extends f f.
Proof. done. Qed.

Lemma extends_trans f1 f2 f3 : extends f1 f2 → extends f2 f3 → extends f1 f3.
Proof.
  intros (Hp1 & Hm1 & Hl1 & Hh1) (Hp2 & Hm2 & Hl2 & Hh2).
  split_and!; [congruence..|].
  intros l Hl. rewrite Hh2, Hh1; [done..|congruence].
Qed.

Lemma maskMatch_extends key cfg f m : extends f (maskMatch key cfg f m).
Proof.
  unfold maskMatch. destruct (isMasked _); [apply extends_refl|].
  split_and!; simpl; [done..| |].
  - unfold Map_set. apply length_alter.
  - intros l Hl. unfold Map_set. by apply list_lookup_alter_ne.
Qed.

Lemma maskPattern_extends f rule : extends f (maskPattern f rule).
Proof.
  destruct rule as [key cfg]. unfold maskPattern.
  destruct (RegExp.matchAll _ _) as [|m0 ms]; [apply extends_refl|].
  apply (fold_left_preserves (extends f));
    [|unfold initCounter; by destruct (falsy _)].
  intros a b Ha. eapply extends_trans; [done|]. apply maskMatch_extends.
Qed.

Lemma maskPatterns_extends rules f : extends f (fold_left maskPattern rules f).
Proof.
  apply (fold_left_preserves (extends f)); [|apply extends_refl].
  intros a b Ha. eapply extends_trans; [done|]. apply maskPattern_extends.
Qed.

(** The rest of a pass depends on a frame through [abs] only. *)
Lemma maskMatch_abs key cfg f g m :
  abs f = abs g → abs (maskMatch key cfg f m) = abs (maskMatch key cfg g m).
Proof.
  unfold abs, table. intros [= Hp Hc Ht Hd Hh]. unfold maskMatch.
  destruct (isMasked _); simpl; [by rewrite Hp, Hc, Ht, Hd, Hh|].
  unfold Map_set. rewrite !list_lookup_alter_eq. by rewrite Hp, Hc, Ht, Hd, Hh.
Qed.

Lemma maskMatches_abs key cfg ms f g :
  abs f = abs g →
  abs (fold_left (maskMatch key cfg) ms f)
  = abs (fold_left (maskMatch key cfg) ms g).
Proof.
  revert f g. induction ms as [|m ms IH]; intros f g H; simpl; [done|].
  apply IH. by apply maskMatch_abs.
Qed.

Lemma maskPattern_abs f g rule :
  abs f = abs g → abs (maskPattern f rule) = abs (maskPattern g rule).
Proof.
  intros H. destruct rule as [key cfg]. unfold maskPattern.
  assert (maskedText f = maskedText g) as Ht by (unfold abs in H; congruence).
  assert (counter (this f) = counter (this g)) as Hc
    by (unfold abs in H; congruence).
  rewrite Ht. destruct (RegExp.matchAll _ _) as [|m0 ms]; [done|].
  apply maskMatches_abs. unfold initCounter. rewrite Hc.
  destruct (falsy _); [|done].
  unfold abs, table in *. simpl. congruence.
Qed.

Lemma maskPatterns_abs rules f g :
  abs f = abs g →
  abs (fold_left maskPattern rules f) = abs (fold_left maskPattern rules g).
Proof.
  revert f g. induction rules as [|r rules IH]; intros f g H; simpl; [done|].
  apply IH. by apply maskPattern_abs.
Qed.

(** Properties of frames that every step of a pass preserves. *)
Lemma maskPattern_preserves (P : Frame → Prop) :
  (∀ key cfg f m, P f → P (maskMatch key cfg f m)) →
  (∀ key f, P f → P (initCounter key f)) →
  ∀ f rule, P f → P (maskPattern f rule).
Proof.
  intros Hm Hi f [key cfg] Hf. unfold maskPattern.
  destruct (RegExp.matchAll _ _) as [|m0 ms]; [done|].
  apply fold_left_preserves; [apply Hm|by apply Hi].
Qed.

Lemma maskPatterns_preserves (P : Frame → Prop) :
  (∀ key cfg f m, P f → P (maskMatch key cfg f m)) →
  (∀ key f, P f → P (initCounter key f)) →
  ∀ rules f, P f → P (fold_left maskPattern rules f).
Proof.
  intros Hm Hi rules f Hf. apply fold_left_preserves; [|done].
  intros a b Ha. by apply maskPattern_preserves.
Qed.

(** The engine's Map holds what the detections recorded, in order. *)
Lemma table_of_snoc ds d :
  table_of (ds ++ [d])
  = set (table_of ds) (Detection.masked d) (Detection.original d).
Proof. unfold table_of. by rewrite fold_left_app. Qed.

Lemma maskPatterns_table rules f :
  table f = Some (table_of (detections f)) →
  table (fold_left maskPattern rules f)
  = Some (table_of (detections (fold_left maskPattern rules f))).
Proof.
  apply (maskPatterns_preserves
           (λ f, table f = Some (table_of (detections f)))).
  - intros key cfg g m Hg. unfold maskMatch.
    destruct (isMasked _); [done|]. unfold table in *. simpl.
    unfold Map_set. rewrite list_lookup_alter_eq, Hg. simpl.
    by rewrite table_of_snoc.
  - intros key g Hg. unfold initCounter. by destruct (falsy _).
Qed.

(** No detection is of a bracket-delimited text. *)
Lemma maskPatterns_unmasked rules f :
  Forall (λ d, isMasked (Detection.original d) = false) (detections f) →
  Forall (λ d, isMasked (Detection.original d) = false)
    (detections (fold_left maskPattern rules f)).
Proof.
  apply (maskPatterns_preserves
    (λ f, Forall (λ d, isMasked (Detection.original d) = false)
            (detections f))).
  - intros key cfg g m Hg. unfold maskMatch.
    destruct (isMasked _) eqn:Hm; [done|]. simpl.
    apply Forall_app. split; [done|]. by apply Forall_singleton.
  - intros key g Hg. unfold initCounter. by destruct (falsy _).
Qed.

(** A rule with no match leaves the frame as it is. *)
Lemma maskPatterns_no_match rules f :
  (∀ rule, rule ∈ rules →
     RegExp.matchAll (maskedText f) (Pattern.regex rule.2) = []) →
  fold_left maskPattern rules f = f.
Proof.
  induction rules as [|[key cfg] rules IH]; intros H; [done|].
  cbn [fold_left].
  assert (maskPattern f (key, cfg) = f) as ->.
  { pose proof (H (key, cfg) ltac:(apply elem_of_cons; by left)) as H0.
    unfold maskPattern. cbn [snd] in H0. by rewrite H0. }
  apply IH. intros rule Hr. apply H. apply elem_of_cons. by right.
Qed.

(** Reading and writing a counter under a key that [Object.prototype]
    does not have. *)
Lemma proto_inherited : utf16 "__proto__" ∈ Object_prototype.
Proof. apply (bool_decide_unpack _). vm_compute. reflexivity. Qed.

Lemma write_own (o : gmap (list N) number) key v :
  key ∉ Object_prototype → write o key v = <[key := v]> o.
Proof.
  intros Hkey. unfold write. rewrite bool_decide_eq_false_2; [done|].
  intros ->. apply Hkey, proto_inherited.
Qed.

Lemma read_own (o : gmap (list N) number) key v :
  o !! key = Some v → read o key = Own v.
Proof. intros H. unfold read. by rewrite H. Qed.

Lemma read_missing (o : gmap (list N) number) key :
  key ∉ Object_prototype → o !! key = None → read o key = Missing.
Proof.
  intros Hkey H. unfold read. rewrite H. by rewrite bool_decide_eq_false_2.
Qed.

Lemma maskLabelAt_number label n :
  maskLabelAt label (Own (Num n)) = maskLabel label n.
Proof. done. Qed.

(** Whatever the counter reads, the placeholder is one of [maskLabel]:
    the character of [NaN] is that of 65472, the one of 0 that of
    65536. *)
Lemma maskLabelAt_maskLabel label p :
  ∃ n, (1 ≤ n)%N ∧ maskLabelAt label p = maskLabel label n.
Proof.
  destruct p as [[n|]| |].
  - destruct (decide (n = 0%N)) as [->|Hn].
    + by exists 65536%N.
    + exists n. split; [lia|done].
  - by exists 65472%N.
  - by exists 65472%N.
  - by exists 65472%N.
Qed.

(** The body of the inner loop when the counter of the rule holds a
    number. *)
Lemma maskMatch_numbered key cfg f m n :
  key ∉ Object_prototype → counter (this f) !! key = Some (Num n) →
  isMasked (RegExp.matched m) = false →
  maskMatch key cfg f m
  = {| this := {| patterns := patterns (this f);
                  mappingTable := mappingTable (this f);
                  counter := <[key := Num (N.succ n)]> (counter (this f)) |};
       heap := Map_set (heap f) (mappingTable (this f))
                 (maskLabel (Pattern.label cfg) (N.succ n))
                 (RegExp.matched m);
       maskedText := slice (maskedText f) 0 (RegExp.index m)
                       ++ maskLabel (Pattern.label cfg) (N.succ n)
                       ++ slice_from (maskedText f)
                            (RegExp.index m + length (RegExp.matched m));
       detections := detections f ++ [
         {| Detection.type := key;
            Detection.description := Pattern.description cfg;
            Detection.original := RegExp.matched m;
            Detection.masked := maskLabel (Pattern.label cfg) (N.succ n);
            Detection.startIndex := RegExp.index m;
            Detection.endIndex :=
              RegExp.index m + length (RegExp.matched m) |} ] |}.
Proof.
  intros Hkey Hn Hm. unfold maskMatch. rewrite Hm.
  rewrite (read_own _ _ _ Hn). cbn [ToNumber add]. rewrite write_own by done.
  rewrite (read_own _ _ (Num (1 + n))) by apply lookup_insert_eq.
  rewrite maskLabelAt_number. by replace (1 + n)%N with (N.succ n) by lia.
Qed.

(** A match that is not bracket-delimited pushes one detection, with
    the next number of the rule's counter. *)
Lemma maskMatch_push key cfg f m n :
  key ∉ Object_prototype → counter (this f) !! key = Some (Num n) →
  isMasked (RegExp.matched m) = false →
  ∃ d, detections (maskMatch key cfg f m) = detections f ++ [d]
    ∧ Detection.type d = key
    ∧ Detection.masked d = maskLabel (Pattern.label cfg) (N.succ n)
    ∧ counter (this (maskMatch key cfg f m))
      = <[key := Num (N.succ n)]> (counter (this f)).
Proof.
  intros Hkey Hn Hm. rewrite (maskMatch_numbered key cfg f m n) by done.
  by eexists.
Qed.

(** The detections of one rule carry consecutive placeholder numbers. *)
Lemma maskMatches_block key cfg ms f n :
  key ∉ Object_prototype → counter (this f) !! key = Some (Num n) →
  ∃ block,
    detections (fold_left (maskMatch key cfg) ms f) = detections f ++ block
    ∧ block_of n (key, cfg) block
    ∧ counter (this (fold_left (maskMatch key cfg) ms f)) !! key
      = Some (Num (n + N.of_nat (length block)))
    ∧ ∀ k, k ≠ key →
        counter (this (fold_left (maskMatch key cfg) ms f)) !! k
        = counter (this f) !! k.
Proof.
  intros Hkey. revert f n. induction ms as [|m ms IH]; intros f n Hn.
  - exists []. simpl. rewrite app_nil_r. split_and!; [done| | |done].
    + intros i d Hd. by rewrite lookup_nil in Hd.
    + rewrite Hn. do 2 f_equal. lia.
  - cbn [fold_left]. destruct (isMasked (RegExp.matched m)) eqn:Hm.
    { rewrite maskMatch_skip by done. by apply IH. }
    destruct (maskMatch_push key cfg f m n Hkey Hn Hm)
      as (d & Hd & Hty & Hma & Hctr).
    destruct (IH (maskMatch key cfg f m) (N.succ n))
      as (block & Hds & Hb & Hc & Hk).
    { rewrite Hctr. apply lookup_insert_eq. }
    exists (d :: block). split_and!.
    + rewrite Hds, Hd. by rewrite <-(assoc (++)).
    + intros [|i] d' Hd'.
      * injection Hd' as <-. split; [done|]. rewrite Hma. cbn [fst snd].
        f_equal. lia.
      * destruct (Hb i d' Hd') as [Ht Hl]. split; [done|].
        rewrite Hl. cbn [fst snd]. f_equal. lia.
    + rewrite Hc. cbn [length]. do 2 f_equal. lia.
    + intros k Hne. rewrite Hk by done. rewrite Hctr.
      by rewrite lookup_insert_ne.
Qed.

Lemma initCounter_fresh key f :
  key ∉ Object_prototype → counter (this f) !! key = None →
  counter (this (initCounter key f)) !! key = Some (Num 0)
  ∧ detections (initCounter key f) = detections f
  ∧ maskedText (initCounter key f) = maskedText f
  ∧ ∀ k, k ≠ key →
      counter (this (initCounter key f)) !! k = counter (this f) !! k.
Proof.
  intros Hkey Hnone. unfold initCounter.
  rewrite read_missing by done. cbn [falsy this counter detections maskedText].
  rewrite write_own by done. split_and!; [apply lookup_insert_eq|done..|].
  intros k Hne. by rewrite lookup_insert_ne.
Qed.

Lemma maskPattern_block f rule :
  rule.1 ∉ Object_prototype → counter (this f) !! rule.1 = None →
  ∃ block,
    detections (maskPattern f rule) = detections f ++ block
    ∧ block_of 0 rule block
    ∧ ∀ k, k ≠ rule.1 →
        counter (this (maskPattern f rule)) !! k = counter (this f) !! k.
Proof.
  destruct rule as [key cfg]. unfold maskPattern. cbn [fst]. intros Hkey Hnone.
  destruct (RegExp.matchAll _ _) as [|m0 ms].
  - exists []. rewrite app_nil_r. split_and!; [done| |done].
    intros i d Hd. by rewrite lookup_nil in Hd.
  - destruct (initCounter_fresh key f Hkey Hnone) as (Hzero & Hds0 & _ & Hk0).
    destruct (maskMatches_block key cfg (reverse (m0 :: ms))
                (initCounter key f) 0 Hkey Hzero) as (block & Hds & Hb & _ & Hk).
    exists block. split_and!.
    + by rewrite Hds, Hds0.
    + done.
    + intros k Hne. rewrite Hk by done. by apply Hk0.
Qed.

Lemma maskPatterns_blocks rules f :
  NoDup (keys rules) →
  (∀ k, k ∈ keys rules → k ∉ Object_prototype) →
  (∀ k, k ∈ keys rules → counter (this f) !! k = None) →
  ∃ blocks,
    detections (fold_left maskPattern rules f) = detections f ++ concat blocks
    ∧ Forall2 (block_of 0) rules blocks.
Proof.
  unfold keys. revert f.
  induction rules as [|rule rules IH]; intros f Hnd Hown Hc.
  - exists []. simpl. by rewrite app_nil_r.
  - rewrite fmap_cons in Hnd, Hown, Hc.
    apply NoDup_cons in Hnd as [Hnotin Hnd]. cbn [fold_left].
    destruct (maskPattern_block f rule) as (block & Hds & Hb & Hk).
    { apply Hown. apply elem_of_cons. by left. }
    { apply Hc. apply elem_of_cons. by left. }
    destruct (IH (maskPattern f rule) Hnd) as (blocks & Hds' & Hbs).
    { intros k Hin. apply Hown. apply elem_of_cons. by right. }
    { intros k Hin. rewrite Hk by (intros ->; done).
      apply Hc. apply elem_of_cons. by right. }
    exists (block :: blocks). split.
    + rewrite Hds', Hds. simpl. by rewrite <-(assoc (++)).
    + by constructor.
Qed.

End mask_loops.

(** ** One call of [mask] *)

Section mask_call.
Import JS MaskingEngine Spec.
Implicit Types (this : t) (heap : list (list (list N * list N)))
  (text : list N) (en : option (list (list N))).

Lemma table_of_NoDup (ds : list Detection.t) : NoDup (keys (table_of ds)).
Proof.
  unfold table_of. apply (fold_left_preserves (λ m, NoDup (keys m))).
  - intros m d Hm. by apply NoDup_keys_set.
  - apply NoDup_nil_2.
Qed.

Lemma final_extends this0 heap0 text0 en :
  extends (start this0 heap0 text0) (final this0 heap0 text0 en).
Proof. apply maskPatterns_extends. Qed.

Lemma final_table this0 heap0 text0 en :
  table (final this0 heap0 text0 en)
  = Some (table_of (detections (final this0 heap0 text0 en))).
Proof.
  apply maskPatterns_table. unfold table, start. simpl.
  by rewrite list_lookup_middle.
Qed.

(** At the end of the loop the heap is the old one and the engine's new
    Map after it. *)
Lemma final_heap this0 heap0 text0 en :
  heap (final this0 heap0 text0 en)
  = heap0 ++ [table_of (detections (final this0 heap0 text0 en))].
Proof.
  destruct (final_extends this0 heap0 text0 en) as (_ & Hmt & Hlen & Hother).
  pose proof (final_table this0 heap0 text0 en) as Htab.
  unfold table in Htab. rewrite Hmt in Htab. simpl in Hmt, Hlen, Hother, Htab.
  rewrite length_app in Hlen. simpl in Hlen.
  apply list_eq. intros i. destruct (decide (i = length heap0)) as [->|Hne].
  - by rewrite Htab, list_lookup_middle.
  - rewrite Hother by done. destruct (decide (i < length heap0)).
    + by rewrite !lookup_app_l.
    + rewrite !lookup_ge_None_2; [done|rewrite length_app; simpl; lia|].
      rewrite length_app. simpl. lia.
Qed.

Lemma final_this this0 heap0 text0 en :
  patterns (this (final this0 heap0 text0 en)) = patterns this0
  ∧ mappingTable (this (final this0 heap0 text0 en)) = length heap0.
Proof.
  by destruct (final_extends this0 heap0 text0 en) as (Hp & Hmt & _).
Qed.

(** [mask] in terms of the last frame of its loop. *)
Lemma mask_nonempty this0 heap0 text0 en :
  text0 ≠ [] →
  mask this0 heap0 text0 en
  = ({| MaskResult.maskedText := maskedText (final this0 heap0 text0 en);
        MaskResult.detections :=
          reverse (detections (final this0 heap0 text0 en));
        MaskResult.mappingTable := S (length heap0) |},
     this (final this0 heap0 text0 en),
     heap0 ++ [table_of (detections (final this0 heap0 text0 en));
               table_of (detections (final this0 heap0 text0 en))]).
Proof.
  intros Hne. destruct text0 as [|c text0]; [done|].
  unfold mask, new_Map.
  change (fold_left maskPattern _ _) with (final this0 heap0 (c :: text0) en).
  pose proof (final_table this0 heap0 (c :: text0) en) as Htab.
  unfold table in Htab. rewrite Htab. cbn [default from_option id].
  rewrite Map_of_id by apply table_of_NoDup.
  rewrite final_heap. rewrite length_app. cbn [length].
  rewrite <-(assoc (++)). do 3 f_equal. lia.
Qed.

Lemma mask_empty this0 heap0 en :
  mask this0 heap0 [] en
  = ({| MaskResult.maskedText := [];
        MaskResult.detections := [];
        MaskResult.mappingTable := length heap0 |}, this0, heap0 ++ [[]]).
Proof. done. Qed.

Lemma view_mask this0 heap0 text0 en :
  view (mask this0 heap0 text0 en)
  = match text0 with
    | [] => ([], [], Some [])
    | _ => (maskedText (final this0 heap0 text0 en),
            reverse (detections (final this0 heap0 text0 en)),
            Some (table_of (detections (final this0 heap0 text0 en))))
    end.
Proof.
  destruct text0 as [|c text0].
  - rewrite mask_empty. unfold view. simpl. by rewrite list_lookup_middle.
  - rewrite mask_nonempty by done. unfold view. cbn [fst snd MaskResult.maskedText
      MaskResult.detections MaskResult.mappingTable]. do 2 f_equal.
    rewrite lookup_app_r by lia. by replace (S _ - _) with 1 by lia.
Qed.

(** A call writes to no Map that existed before it. *)
Lemma mask_frame this0 heap0 text0 en :
  length heap0 ≤ length (mask this0 heap0 text0 en).2
  ∧ ∀ l, l < length heap0 →
      (mask this0 heap0 text0 en).2 !! l = heap0 !! l.
Proof.
  destruct text0 as [|c text0].
  - rewrite mask_empty. simpl. rewrite length_app. split; [lia|].
    intros l Hl. by rewrite lookup_app_l.
  - rewrite mask_nonempty by done. simpl. rewrite length_app. split; [lia|].
    intros l Hl. by rewrite lookup_app_l.
Qed.

Lemma calls_cons (state : t * list (list (list N * list N))) input inputs :
  calls state (input :: inputs)
  = calls ((mask state.1 state.2 input.1 input.2).1.2,
           (mask state.1 state.2 input.1 input.2).2) inputs.
Proof. done. Qed.

Lemma calls_frame inputs (state : t * list (list (list N * list N))) :
  length state.2 ≤ length (calls state inputs).2
  ∧ ∀ l, l < length state.2 → (calls state inputs).2 !! l = state.2 !! l.
Proof.
  revert state. induction inputs as [|input inputs IH]; intros state; [done|].
  rewrite calls_cons.
  destruct (IH ((mask state.1 state.2 input.1 input.2).1.2,
                (mask state.1 state.2 input.1 input.2).2)) as [Hlen Hl].
  destruct (mask_frame state.1 state.2 input.1 input.2) as [Hlen1 Hl1].
  cbn [snd] in Hlen, Hl. split; [lia|]. intros l Hlt.
  rewrite Hl by lia. by apply Hl1.
Qed.

End mask_call.

(** ** The Map of a pass and its detections *)

Section table_facts.
Import JS MaskingEngine Spec.
Implicit Types (ds : list Detection.t) (d : Detection.t).

Lemma elem_of_set {V} (o : list (list N * V)) k v kv :
  kv ∈ set o k v → kv = (k, v) ∨ kv ∈ o.
Proof.
  induction o as [|[k' v'] o IH]; simpl.
  - intros ->%list_elem_of_singleton. by left.
  - destruct (decide (k' = k)) as [->|Hne].
    + intros [->|?]%elem_of_cons; [by left|]. right. apply elem_of_cons.
      by right.
    + intros [->|H]%elem_of_cons.
      * right. apply elem_of_cons. by left.
      * destruct (IH H) as [->|?]; [by left|]. right. apply elem_of_cons.
        by right.
Qed.

Lemma table_of_entries ds kv :
  kv ∈ table_of ds →
  ∃ d, d ∈ ds ∧ kv = (Detection.masked d, Detection.original d).
Proof.
  induction ds as [|d ds IH] using rev_ind.
  - by intros ?%elem_of_nil.
  - rewrite table_of_snoc. intros [->|H]%elem_of_set.
    + exists d. split; [|done]. apply elem_of_app. right.
      by apply list_elem_of_singleton.
    + destruct (IH H) as (d' & Hd' & ->). exists d'. split; [|done].
      apply elem_of_app. by left.
Qed.

Lemma table_of_keys ds d :
  d ∈ ds → Detection.masked d ∈ keys (table_of ds).
Proof.
  induction ds as [|d' ds IH] using rev_ind.
  - by intros ?%elem_of_nil.
  - rewrite table_of_snoc, elem_of_keys_set.
    intros [H| ->%list_elem_of_singleton]%elem_of_app; [right; by apply IH|].
    by left.
Qed.

Lemma table_of_get ds d :
  NoDup (Detection.masked <$> ds) → d ∈ ds →
  get (table_of ds) (Detection.masked d) = Some (Detection.original d).
Proof.
  induction ds as [|d' ds IH] using rev_ind.
  - by intros _ ?%elem_of_nil.
  - rewrite fmap_app, table_of_snoc. intros (Hnd & Hdisj & _)%NoDup_app.
    intros [H| ->%list_elem_of_singleton]%elem_of_app.
    + rewrite get_set_ne; [by apply IH|]. intros Heq.
      apply (Hdisj (Detection.masked d)).
      * by apply list_elem_of_fmap_2.
      * rewrite <-Heq. simpl. by apply list_elem_of_singleton.
    + apply get_set_eq.
Qed.

(** A placeholder is bracket-delimited. *)
Lemma isMasked_maskLabel label n : isMasked (maskLabel label n) = true.
Proof.
  unfold isMasked, maskLabel, startsWith, endsWith. simpl.
  apply bool_decide_eq_true_2.
  change (91%N :: label ++ [95%N; fromCharCode (64 + n); 93%N])
    with ((91%N :: label) ++ [95%N; fromCharCode (64 + n)] ++ [93%N]).
  rewrite (assoc (++)). apply drop_app_length'.
  rewrite !length_app. simpl. lia.
Qed.

(** Every detection carries a bracket-delimited placeholder. *)
Lemma maskPatterns_placeholders rules (f : Frame) :
  Forall (λ d, isMasked (Detection.masked d) = true) (detections f) →
  Forall (λ d, isMasked (Detection.masked d) = true)
    (detections (fold_left maskPattern rules f)).
Proof.
  apply (maskPatterns_preserves
    (λ f, Forall (λ d, isMasked (Detection.masked d) = true)
            (detections f))).
  - intros key cfg g m Hg. unfold maskMatch.
    destruct (isMasked (RegExp.matched m)); [done|]. simpl.
    apply Forall_app. split; [done|]. apply Forall_singleton.
    cbn [Detection.masked].
    destruct (maskLabelAt_maskLabel (Pattern.label cfg)
                (read (write (counter (this g)) key
                         (add 1 (ToNumber (read (counter (this g)) key))))
                   key)) as (n & _ & ->).
    apply isMasked_maskLabel.
  - intros key g Hg. unfold initCounter. by destruct (falsy _).
Qed.

End table_facts.

(** ** The registry of rules *)

Section registry.
Import JS MaskingEngine Spec.



End registry.

(** ** Determinism *)

Section determinism.
Import JS MaskingEngine Spec.

(** C8. What [mask] returns depends on the text, the rules and the
    enabled keys only: two engines with the same rules, in whatever
    state earlier calls left their counters, Maps and heaps, return the
    same masked text, the same detections in the same order and the same
    mapping; a call leaves the rules as they were, so a second call on
    the same engine repeats the result of the first. *)
Theorem mask_deterministic (this1 this2 : t)
    (heap1 heap2 : list (list (list N * list N))) (text : list N)
    (enabledPatterns : option (list (list N)))
    (Hrules : patterns this1 = patterns this2) :
  view (mask this1 heap1 text enabledPatterns)
  = view (mask this2 heap2 text enabledPatterns)
  ∧ patterns (mask this1 heap1 text enabledPatterns).1.2 = patterns this1
  ∧ let out := mask this1 heap1 text enabledPatterns in
    view (mask out.1.2 out.2 text enabledPatterns) = view out.
Proof.
  assert (∀ (thisa thisb : t) (heapa heapb : list (list (list N * list N))),
    patterns thisa = patterns thisb →
    view (mask thisa heapa text enabledPatterns)
    = view (mask thisb heapb text enabledPatterns)) as Hview.
  { intros thisa thisb heapa heapb Hp. rewrite !view_mask.
    destruct text as [|c text]; [done|].
    assert (abs (final thisa heapa (c :: text) enabledPatterns)
            = abs (final thisb heapb (c :: text) enabledPatterns)) as Habs.
    { unfold final.
      replace (patternsToUse thisb enabledPatterns)
        with (patternsToUse thisa enabledPatterns)
        by (unfold patternsToUse; by rewrite Hp).
      apply maskPatterns_abs. unfold abs, table, start. simpl.
      by rewrite Hp, !list_lookup_middle. }
    unfold abs in Habs. congruence. }
  assert (patterns (mask this1 heap1 text enabledPatterns).1.2
          = patterns this1) as Hkeep.
  { destruct text as [|c text]; [done|].
    rewrite mask_nonempty by done. apply final_this. }
  split_and!; [by apply Hview|done|]. simpl. by apply Hview.
Qed.

Lemma mask_deterministic_witness :
  patterns engine0 = patterns (mask engine0 heap0 (utf16 "a@b.co") None).1.2
  ∧ view (mask engine0 heap0 (utf16 "a@b.co") None)
    = view (mask (mask engine0 heap0 (utf16 "a@b.co") None).1.2
              (mask engine0 heap0 (utf16 "a@b.co") None).2
              (utf16 "a@b.co") None).
Proof.
  assert (patterns engine0
          = patterns (mask engine0 heap0 (utf16 "a@b.co") None).1.2) as H0
    by reflexivity.
  split; [exact H0|].
  exact (proj1 (mask_deterministic engine0 _ heap0 _ (utf16 "a@b.co") None H0)).
Defined.

End determinism.

(** ** Detections and the mapping table *)

Section coherence.
Import JS MaskingEngine Spec.

(** C10. The Map that [mask] returns has every detection's placeholder
    as a key and, when the placeholders of the detections are pairwise
    distinct, maps each to the detection's original text; it is a new
    Map, neither one that existed before the call nor the engine's own,
    and no later sequence of [mask] calls on the engine changes it. *)
Theorem detections_mapping_coherent (this : t)
    (heap : list (list (list N * list N))) (text : list N)
    (enabledPatterns : option (list (list N)))
    (Hallocated : mappingTable this < length heap) :
  let out := mask this heap text enabledPatterns in
  let r := out.1.1 in
  ∃ M, out.2 !! MaskResult.mappingTable r = Some M
    ∧ (∀ d, d ∈ MaskResult.detections r →
         Detection.masked d ∈ keys M
         ∧ (NoDup (Detection.masked <$> MaskResult.detections r) →
            get M (Detection.masked d) = Some (Detection.original d)))
    ∧ length heap ≤ MaskResult.mappingTable r
    ∧ MaskResult.mappingTable r ≠ mappingTable out.1.2
    ∧ ∀ inputs,
        (calls (out.1.2, out.2) inputs).2 !! MaskResult.mappingTable r
        = Some M.
Proof.
  intros out r.
  assert (∀ M, out.2 !! MaskResult.mappingTable r = Some M →
          ∀ inputs,
            (calls (out.1.2, out.2) inputs).2 !! MaskResult.mappingTable r
            = Some M) as Hlater.
  { intros M HM inputs.
    destruct (calls_frame inputs (out.1.2, out.2)) as [_ Hl].
    rewrite Hl; [done|]. by eapply lookup_lt_Some. }
  subst out r. destruct text as [|c text].
  - rewrite mask_empty in *. cbn [fst snd MaskResult.mappingTable
      MaskResult.detections] in *.
    exists []. split_and!.
    + by rewrite list_lookup_middle.
    + by intros d ?%elem_of_nil.
    + done.
    + lia.
    + apply Hlater. by rewrite list_lookup_middle.
  - rewrite mask_nonempty in * by done.
    cbn [fst snd MaskResult.mappingTable MaskResult.detections] in *.
    set (f := final this heap (c :: text) enabledPatterns) in *.
    assert ((heap ++ [table_of (detections f); table_of (detections f)])
              !! S (length heap) = Some (table_of (detections f))) as HM.
    { rewrite lookup_app_r by lia. by replace (S _ - _) with 1 by lia. }
    exists (table_of (detections f)). split_and!.
    + done.
    + intros d Hd. rewrite elem_of_reverse in Hd.
      split; [by apply table_of_keys|].
      rewrite fmap_reverse, reverse_Permutation. intros Hnd.
      by apply table_of_get.
    + lia.
    + subst f. rewrite (proj2 (final_this _ _ _ _)). lia.
    + by apply Hlater.
Qed.

Lemma detections_mapping_coherent_witness :
  mappingTable engine0 < length heap0
  ∧ ∃ M, (mask engine0 heap0 (utf16 "a@b.co") None).2
           !! MaskResult.mappingTable
                (mask engine0 heap0 (utf16 "a@b.co") None).1.1 = Some M
      ∧ ∀ inputs,
          (calls ((mask engine0 heap0 (utf16 "a@b.co") None).1.2,
                  (mask engine0 heap0 (utf16 "a@b.co") None).2) inputs).2
            !! MaskResult.mappingTable
                 (mask engine0 heap0 (utf16 "a@b.co") None).1.1 = Some M.
Proof.
  assert (mappingTable engine0 < length heap0) as H0 by (vm_compute; lia).
  split; [exact H0|].
  destruct (detections_mapping_coherent engine0 heap0 (utf16 "a@b.co") None H0)
    as (M & HM & _ & _ & _ & Hlater).
  exists M. split; [exact HM|exact Hlater].
Defined.

(** C2. A match whose text is bracket-delimited is passed over: the
    frame is left as it was, with no detection, no entry in the Map, no
    step of the counter and no change of the text.  So no detection and
    no value of the mapping of any call is bracket-delimited; the
    placeholders [mask] writes are bracket-delimited; and a second call
    on the masked text of a first one detects no bracket-delimited
    text, so none of the placeholders of the first. *)
Theorem no_double_masking :
  (∀ key cfg f m,
     isMasked (RegExp.matched m) = true → maskMatch key cfg f m = f)
  ∧ (∀ label n, isMasked (maskLabel label n) = true)
  ∧ (∀ (this : t) (heap : list (list (list N * list N))) (text : list N)
       (enabledPatterns : option (list (list N))),
       let out := mask this heap text enabledPatterns in
       Forall (λ d, isMasked (Detection.original d) = false)
         (MaskResult.detections out.1.1)
       ∧ ∀ M, out.2 !! MaskResult.mappingTable out.1.1 = Some M →
           Forall (λ kv, isMasked kv.2 = false) M)
  ∧ (∀ (this : t) (heap : list (list (list N * list N))) (text : list N)
       (enabledPatterns : option (list (list N))),
       let out1 := mask this heap text enabledPatterns in
       let out2 := mask out1.1.2 out1.2 (MaskResult.maskedText out1.1.1)
                     enabledPatterns in
       Forall (λ d, isMasked (Detection.original d) = false)
         (MaskResult.detections out2.1.1)
       ∧ ∀ d1 d2, d1 ∈ MaskResult.detections out1.1.1 →
           d2 ∈ MaskResult.detections out2.1.1 →
           Detection.original d2 ≠ Detection.masked d1).
Proof.
  assert (∀ (this : t) (heap : list (list (list N * list N))) (text : list N)
       (enabledPatterns : option (list (list N))),
       let out := mask this heap text enabledPatterns in
       Forall (λ d, isMasked (Detection.original d) = false)
         (MaskResult.detections out.1.1)
       ∧ ∀ M, out.2 !! MaskResult.mappingTable out.1.1 = Some M →
           Forall (λ kv, isMasked kv.2 = false) M) as Hall.
  { intros this heap text en out.
    assert (Forall (λ d, isMasked (Detection.original d) = false)
              (detections (final this heap text en))) as Hds
      by (apply maskPatterns_unmasked; constructor).
    pose proof (view_mask this heap text en) as Hv. fold out in Hv.
    pose proof (f_equal (λ v, v.1.2) Hv) as Hd.
    pose proof (f_equal snd Hv) as Hm. unfold view in Hd, Hm.
    cbn [fst snd] in Hd, Hm. rewrite Hd, Hm. destruct text as [|c text].
    - split; [constructor|]. intros M [= <-]. constructor.
    - split; [by apply Forall_reverse|].
      intros M [= <-]. apply Forall_forall. intros kv Hkv.
      destruct (table_of_entries _ _ Hkv) as (d & Hin & ->). simpl.
      by apply (proj1 (Forall_forall _ _) Hds). }
  assert (∀ (this : t) (heap : list (list (list N * list N))) (text : list N)
       (enabledPatterns : option (list (list N))) d,
       d ∈ MaskResult.detections (mask this heap text enabledPatterns).1.1 →
       isMasked (Detection.masked d) = true) as Hplaceholders.
  { intros this heap text en d. destruct text as [|c text].
    - rewrite mask_empty. by intros ?%elem_of_nil.
    - rewrite mask_nonempty by done. cbn [fst MaskResult.detections].
      rewrite elem_of_reverse. revert d. apply Forall_forall.
      apply maskPatterns_placeholders. constructor. }
  split_and!.
  - apply maskMatch_skip.
  - apply isMasked_maskLabel.
  - apply Hall.
  - intros this heap text en out1 out2. split; [apply Hall|].
    intros d1 d2 Hd1 Hd2 Heq.
    apply Hplaceholders in Hd1.
    destruct (Hall out1.1.2 out1.2 (MaskResult.maskedText out1.1.1) en)
      as [Hds _].
    rewrite Forall_forall in Hds. specialize (Hds d2 Hd2).
    congruence.
Qed.

Lemma no_double_masking_witness :
  isMasked (utf16 "[Person_A]") = true
  ∧ maskMatch (utf16 "custom") (rule (RegExp.lit "[Person_A]") "Tag" "tag")
      (start engine0 heap0 (utf16 "[Person_A]"))
      {| RegExp.index := 0; RegExp.matched := utf16 "[Person_A]" |}
    = start engine0 heap0 (utf16 "[Person_A]").
Proof.
  assert (isMasked (utf16 "[Person_A]") = true) as H0 by reflexivity.
  split; [exact H0|].
  exact (proj1 no_double_masking (utf16 "custom")
           (rule (RegExp.lit "[Person_A]") "Tag" "tag")
           (start engine0 heap0 (utf16 "[Person_A]"))
           {| RegExp.index := 0; RegExp.matched := utf16 "[Person_A]" |} H0).
Defined.

End coherence.

(** ** Placeholders *)

Section placeholders.
Import JS MaskingEngine Spec.

Lemma fromCharCode_cases n :
  (1 ≤ n ≤ 65536)%N →
  ((64 + n < 65536)%N ∧ fromCharCode (64 + n) = (64 + n)%N)
  ∨ ((65536 ≤ 64 + n)%N ∧ (fromCharCode (64 + n) + 65472)%N = n).
Proof.
  intros Hn. unfold fromCharCode.
  destruct (N.lt_ge_cases (64 + n) 65536) as [Hlt|Hge].
  - left. split; [done|]. by apply N.mod_small.
  - right. split; [done|].
    rewrite <-(N.mod_unique (64 + n) 65536 1 (n - 65472)); lia.
Qed.

Lemma fromCharCode_inj n1 n2 :
  (1 ≤ n1 ≤ 65536)%N → (1 ≤ n2 ≤ 65536)%N →
  fromCharCode (64 + n1) = fromCharCode (64 + n2) → n1 = n2.
Proof.
  intros H1 H2 Heq.
  destruct (fromCharCode_cases n1 H1) as [[? E1]|[? E1]],
    (fromCharCode_cases n2 H2) as [[? E2]|[? E2]]; lia.
Qed.

Lemma maskLabel_inj l1 n1 l2 n2 :
  maskLabel l1 n1 = maskLabel l2 n2 →
  l1 = l2 ∧ fromCharCode (64 + n1) = fromCharCode (64 + n2).
Proof.
  unfold maskLabel. simpl. intros [= H].
  apply app_inj_2 in H as [-> [= ->]]; done.
Qed.

Lemma block_NoDup rule (block : list Detection.t) :
  block_of 0 rule block → (N.of_nat (length block) ≤ 65536)%N →
  NoDup (Detection.masked <$> block).
Proof.
  intros Hb Hlen. apply NoDup_alt. intros i j x Hi Hj.
  apply list_lookup_fmap_Some in Hi as (di & -> & Hdi).
  apply list_lookup_fmap_Some in Hj as (dj & Heq & Hdj).
  pose proof (lookup_lt_Some _ _ _ Hdi). pose proof (lookup_lt_Some _ _ _ Hdj).
  destruct (Hb i di Hdi) as [_ Hmi]. destruct (Hb j dj Hdj) as [_ Hmj].
  rewrite Hmi, Hmj in Heq. apply maskLabel_inj in Heq as [_ Heq].
  apply fromCharCode_inj in Heq; lia.
Qed.

Lemma elem_of_concat {A} (x : A) (ls : list (list A)) :
  x ∈ concat ls → ∃ l, x ∈ l ∧ l ∈ ls.
Proof.
  induction ls as [|l ls IH]; simpl.
  - by intros ?%elem_of_nil.
  - intros [H|H]%elem_of_app.
    + exists l. split; [done|]. apply elem_of_cons. by left.
    + destruct (IH H) as (l' & Hx & Hl'). exists l'. split; [done|].
      apply elem_of_cons. by right.
Qed.

Lemma blocks_NoDup rules (blocks : list (list Detection.t)) :
  Forall2 (block_of 0) rules blocks →
  NoDup ((λ rule, Pattern.label rule.2) <$> rules) →
  (∀ b, b ∈ blocks → (N.of_nat (length b) ≤ 65536)%N) →
  NoDup (Detection.masked <$> concat blocks).
Proof.
  induction 1 as [|rule b rules blocks Hb Hbs IH]; intros Hlab Hlen.
  - constructor.
  - rewrite fmap_cons in Hlab. apply NoDup_cons in Hlab as [Hnotin Hlab].
    simpl. rewrite fmap_app. apply NoDup_app. split_and!.
    + eapply block_NoDup; [done|]. apply Hlen. apply elem_of_cons. by left.
    + intros x (d & -> & Hd)%list_elem_of_fmap (d' & Heq & Hd')%list_elem_of_fmap.
      apply elem_of_concat in Hd' as (b' & Hd' & Hb').
      apply list_elem_of_lookup in Hb' as (j & Hj).
      destruct (Forall2_lookup_r _ _ _ _ _ Hbs Hj) as (rule' & Hr' & Hb'j).
      apply list_elem_of_lookup in Hd as (i & Hi).
      apply list_elem_of_lookup in Hd' as (i' & Hi').
      destruct (Hb i d Hi) as [_ Hm]. destruct (Hb'j i' d' Hi') as [_ Hm'].
      rewrite Hm, Hm' in Heq. apply maskLabel_inj in Heq as [Heq _].
      apply Hnotin. rewrite Heq. apply list_elem_of_fmap.
      exists rule'. split; [done|]. by eapply list_elem_of_lookup_2.
    + apply IH; [done|]. intros b' Hb'. apply Hlen. apply elem_of_cons.
      by right.
Qed.

Lemma blocks_nil (rules : list (list N * Pattern.t)) :
  Forall2 (block_of 0) rules ((λ _, []) <$> rules).
Proof.
  induction rules as [|rule rules IH]; constructor; [|done].
  intros i d Hd. by rewrite lookup_nil in Hd.
Qed.

Lemma keys_filter_NoDup {V} (P : list N * V → Prop) `{∀ x, Decision (P x)}
    (o : list (list N * V)) :
  NoDup (keys o) → NoDup (keys (filter P o)).
Proof.
  unfold keys. intros Hnd. apply (sublist_NoDup _ (o.*1)); [done|].
  apply fmap_sublist, sublist_filter.
Qed.

Lemma patternsToUse_NoDup (this : t) en :
  NoDup (keys (patterns this)) → NoDup (keys (patternsToUse this en)).
Proof.
  intros H. unfold patternsToUse. destruct en.
  - apply keys_filter_NoDup. by apply Object_entries_keys_NoDup.
  - by apply Object_entries_keys_NoDup.
Qed.

(** The detections of a call, in the order they were pushed, are the
    blocks of the rules in the order of the rules, when no rule in use
    has a key that [Object.prototype] has too. *)
Lemma mask_blocks (this : t) (heap : list (list (list N * list N)))
    (text : list N) en :
  NoDup (keys (patterns this)) →
  (∀ k, k ∈ keys (patternsToUse this en) → k ∉ Object_prototype) →
  ∃ blocks,
    reverse (MaskResult.detections (mask this heap text en).1.1)
    = concat blocks
    ∧ Forall2 (block_of 0) (patternsToUse this en) blocks.
Proof.
  intros Hnd Hown. destruct text as [|c text].
  - rewrite mask_empty. simpl. exists ((λ _, []) <$> patternsToUse this en).
    split; [|apply blocks_nil]. clear Hown.
    induction (patternsToUse this en); [done|]. by rewrite fmap_cons.
  - rewrite mask_nonempty by done. simpl. rewrite reverse_involutive.
    unfold final.
    destruct (maskPatterns_blocks (patternsToUse this en)
                (start this heap (c :: text))) as (blocks & Hds & Hbs).
    + by apply patternsToUse_NoDup.
    + done.
    + intros k _. simpl. by rewrite lookup_empty.
    + exists blocks. by rewrite Hds.
Qed.

(** C7. A rule whose key is the name of a property of
    [Object.prototype] gets no counter of its own: [this.counter[key]]
    reads the inherited function, the guard of line 81 takes it for a
    counter that is set, and [++] makes it [NaN].  Every match of the
    rule then carries the character of code 0 where the claim has [A],
    [B], ...: the two matches of a rule keyed [constructor] and labelled
    [Nick] are both written [[Nick_] U+0000 []], not [[Nick_A]] and
    [[Nick_B]]. *)
Theorem placeholder_sequence_fails :
  let this := addCustomPattern engine0 (utf16 "constructor")
                (RegExp.compile (RegExp.Cls RegExp.cls_w 1 None))
                (utf16 "Nick") (utf16 "nickname") in
  let out := mask this heap0 (utf16 "ab cd") None in
  (λ d, (Detection.type d, Detection.original d, Detection.masked d))
    <$> MaskResult.detections out.1.1
  = [ (utf16 "constructor", utf16 "ab", utf16 "[Nick_" ++ [0%N] ++ utf16 "]");
      (utf16 "constructor", utf16 "cd", utf16 "[Nick_" ++ [0%N] ++ utf16 "]") ]
  ∧ MaskResult.maskedText out.1.1
    = utf16 "[Nick_" ++ [0%N] ++ utf16 "] [Nick_" ++ [0%N] ++ utf16 "]"
  ∧ maskLabel (utf16 "Nick") 1 = utf16 "[Nick_A]"
  ∧ maskLabel (utf16 "Nick") 2 = utf16 "[Nick_B]"
  ∧ utf16 "[Nick_" ++ [0%N] ++ utf16 "]" ≠ utf16 "[Nick_A]"
  ∧ utf16 "[Nick_" ++ [0%N] ++ utf16 "]" ≠ utf16 "[Nick_B]".
Proof. vm_compute. split_and!; done. Qed.

(** With a key of its own a rule counts from 1: the last match in the
    text is the first one processed, so of two names the second gets
    [Person_A] and the first [Person_B]. *)
Example two_names_backwards :
  let out := mask engine0 heap0 (utf16 "田中太郎と山田花子") None in
  MaskResult.maskedText out.1.1 = utf16 "[Person_B]と[Person_A]"
  ∧ Detection.masked <$> MaskResult.detections out.1.1
    = [utf16 "[Person_B]"; utf16 "[Person_A]"].
Proof. vm_compute. done. Qed.

End placeholders.

(** ** Distinct placeholders *)

Section distinct.
Import JS MaskingEngine Spec.

(** Every match that is not bracket-delimited makes a detection. *)
Lemma maskMatches_length key cfg (ms : list RegExp.Match) (f : Frame) :
  length (detections (fold_left (maskMatch key cfg) ms f))
  = length (detections f)
    + length (filter (λ m, isMasked (RegExp.matched m) = false) ms).
Proof.
  revert f. induction ms as [|m ms IH]; intros f; cbn [fold_left].
  - rewrite filter_nil. cbn. lia.
  - rewrite IH. destruct (isMasked (RegExp.matched m)) eqn:Hm.
    + rewrite maskMatch_skip by done.
      by rewrite filter_cons_False by congruence.
    + rewrite filter_cons_True by done. unfold maskMatch. rewrite Hm.
      cbn [detections length]. rewrite length_app. cbn [length]. lia.
Qed.

(** One rule in use, with a key of its own: the detections in the order
    in which they were made are as many as the rule has matches that
    are not bracket-delimited, and the [i]-th (from 1) has number
    [i]. *)
Lemma one_rule_processing (this : t)
    (heap : list (list (list N * list N))) (text : list N) en key cfg :
  patternsToUse this en = [(key, cfg)] → key ∉ Object_prototype →
  text ≠ [] →
  let made := reverse (MaskResult.detections (mask this heap text en).1.1) in
  length made
  = length (filter (λ m, isMasked (RegExp.matched m) = false)
              (RegExp.matchAll text (Pattern.regex cfg)))
  ∧ ∀ i d, made !! i = Some d →
      Detection.masked d = maskLabel (Pattern.label cfg) (N.of_nat (S i)).
Proof.
  intros Hrule Hkey Htext made. subst made.
  rewrite mask_nonempty by done. cbn [fst MaskResult.detections].
  rewrite reverse_involutive. unfold final. rewrite Hrule. cbn [fold_left].
  unfold maskPattern. cbn [start maskedText]. fold (start this heap text).
  destruct (RegExp.matchAll text (Pattern.regex cfg)) as [|m0 ms] eqn:Hms.
  { split; [done|]. by intros i d [=]. }
  rewrite <-Hms. clear m0 ms Hms.
  destruct (initCounter_fresh key (start this heap text) Hkey)
    as (Hzero & Hds0 & _ & _); [done|].
  split.
  - rewrite maskMatches_length, Hds0. cbn [start detections length].
    by rewrite filter_reverse, length_reverse.
  - destruct (maskMatches_block key cfg
                (reverse (RegExp.matchAll text (Pattern.regex cfg)))
                (initCounter key (start this heap text)) 0 Hkey Hzero)
      as (block & Hds & Hb & _ & _).
    rewrite Hds, Hds0. cbn [start detections app].
    intros i d Hd. by destruct (Hb i d Hd) as [_ ->].
Qed.

(** The rule [/a/g] on a text of [n] letters [a] has [n] matches. *)
Lemma exec_from_letters n fuel i :
  i ≤ n → n - i < fuel →
  length (filter (λ m, isMasked (RegExp.matched m) = false)
            (RegExp.exec_from (RegExp.compile (RegExp.lit "a"))
               (replicate n 97%N) fuel i))
  = n - i.
Proof.
  revert i. induction fuel as [|fuel IH]; intros i Hi Hfuel; [lia|].
  cbn [RegExp.exec_from]. rewrite length_replicate.
  rewrite bool_decide_eq_false_2 by lia.
  unfold RegExp.compile at 1. cbn [RegExp.lit RegExp.run].
  rewrite drop_replicate.
  destruct (n - i) as [|k] eqn:Hk.
  - cbn [replicate]. change (utf16 "a") with [97%N].
    cbn [startsWith length take bool_decide decide_rel]. cbn.
    destruct fuel as [|fuel]; [done|]. cbn [RegExp.exec_from].
    rewrite length_replicate. by rewrite bool_decide_eq_true_2 by lia.
  - cbn [replicate]. change (utf16 "a") with [97%N].
    assert (startsWith (97%N :: replicate k 97%N) [97%N] = true) as ->
      by (by apply bool_decide_eq_true_2).
    cbn [fmap option_fmap option_map length drop].
    rewrite drop_0, length_replicate. replace (S k - k) with 1 by lia.
    assert (slice (replicate n 97%N) i (i + 1) = [97%N]) as ->.
    { unfold slice. rewrite drop_replicate, Hk.
      by replace (i + 1 - i) with 1 by lia. }
    cbn [bool_decide decide_rel]. rewrite bool_decide_eq_false_2 by done.
    rewrite filter_cons_True by done. cbn [length].
    rewrite IH by lia. lia.
Qed.

Lemma matchAll_letters n :
  length (filter (λ m, isMasked (RegExp.matched m) = false)
            (RegExp.matchAll (replicate n 97%N)
               (RegExp.compile (RegExp.lit "a"))))
  = n.
Proof.
  unfold RegExp.matchAll. rewrite exec_from_letters;
    rewrite ?length_replicate; lia.
Qed.

(** More than 65536 detections of one rule: the first and the 65537th
    carry the same placeholder. *)
Lemma one_rule_wraps (this : t)
    (heap : list (list (list N * list N))) (text : list N) en key cfg :
  patternsToUse this en = [(key, cfg)] → key ∉ Object_prototype →
  text ≠ [] →
  N.to_nat 65536
  < length (filter (λ m, isMasked (RegExp.matched m) = false)
              (RegExp.matchAll text (Pattern.regex cfg))) →
  ¬ NoDup (Detection.masked
             <$> MaskResult.detections (mask this heap text en).1.1).
Proof.
  intros Hrule Hkey Htext Hmany Hnd.
  destruct (one_rule_processing this heap text en key cfg Hrule Hkey Htext)
    as [Hlen Hnum].
  rewrite <-(reverse_involutive (MaskResult.detections _)) in Hnd.
  rewrite fmap_reverse, reverse_Permutation in Hnd.
  rewrite <-Hlen in Hmany.
  destruct (lookup_lt_is_Some_2 _ _ Hmany) as [d1 Hd1].
  assert (0 < length (reverse (MaskResult.detections
                                 (mask this heap text en).1.1))) as Hsome
    by lia.
  destruct (lookup_lt_is_Some_2 _ _ Hsome) as [d0 Hd0].
  pose proof (Hnum _ _ Hd0) as Hm0. pose proof (Hnum _ _ Hd1) as Hm1.
  assert (Detection.masked d1 = Detection.masked d0) as Heq.
  { rewrite Hm0, Hm1.
    replace (N.of_nat (S (N.to_nat 65536))) with 65537%N by lia.
    reflexivity. }
  rewrite NoDup_alt in Hnd.
  assert (N.to_nat 65536 = 0) as Hi; [|lia].
  eapply Hnd; rewrite list_lookup_fmap.
  - by rewrite Hd1.
  - rewrite Hd0. cbn. by rewrite Heq.
Qed.

(** C3, as stated, fails. A custom rule may carry the label of another
    rule, and the two rules then write the same placeholder; and
    [String.fromCharCode] wraps at 2^16, so that the 65537th detection
    of a rule carries the placeholder of its first.  (A rule keyed by a
    name that [Object.prototype] has writes one placeholder for all its
    matches: that is the defect of C7.) *)
Lemma placeholders_distinct_counterexample :
  (let this := addCustomPattern engine0 (utf16 "nickname")
                 (RegExp.compile (RegExp.lit "Bob")) (utf16 "Person")
                 (utf16 "nickname") in
   let out := mask this heap0 (utf16 "田中太郎 Bob") None in
   Detection.masked <$> MaskResult.detections out.1.1
   = [utf16 "[Person_A]"; utf16 "[Person_A]"]
   ∧ ¬ NoDup (Detection.masked <$> MaskResult.detections out.1.1))
  ∧ (let this := addCustomPattern engine0 (utf16 "letter")
                   (RegExp.compile (RegExp.lit "a")) (utf16 "Letter")
                   (utf16 "letter") in
     let out := mask this heap0 (replicate (N.to_nat 65537) 97%N)
                  (Some [utf16 "letter"]) in
     ¬ NoDup (Detection.masked <$> MaskResult.detections out.1.1)).
Proof.
  split.
  - vm_compute. split; [done|].
    intros [Hnotin _]%NoDup_cons. apply Hnotin. apply elem_of_cons. by left.
  - cbv zeta.
    apply (one_rule_wraps _ _ _ _ (utf16 "letter")
             {| Pattern.regex := RegExp.compile (RegExp.lit "a");
                Pattern.label := utf16 "Letter";
                Pattern.description := utf16 "letter" |}).
    + vm_compute. reflexivity.
    + apply (bool_decide_unpack _). vm_compute. reflexivity.
    + intros Hnil. apply (f_equal length) in Hnil.
      rewrite length_replicate in Hnil. cbn [length] in Hnil. lia.
    + cbn [Pattern.regex]. rewrite matchAll_letters. lia.
Qed.

Lemma block_length (key : list N) (blocks : list (list Detection.t))
    (b : list Detection.t) :
  b ∈ blocks → Forall (λ d, Detection.type d = key) b →
  length b ≤ length (filter (λ d, Detection.type d = key) (concat blocks)).
Proof.
  intros Hb Hkey. induction blocks as [|b' blocks IH];
    [by apply elem_of_nil in Hb|].
  cbn [concat]. rewrite filter_app, length_app.
  apply elem_of_cons in Hb as [->|Hb].
  - assert (filter (λ d, Detection.type d = key) b' = b') as ->; [|lia].
    clear IH. induction Hkey as [|d b Hd _ IH]; [done|].
    rewrite filter_cons_True by done. by rewrite IH.
  - specialize (IH Hb). lia.
Qed.

(** C3, amended. When the rules in use carry pairwise distinct labels
    and keys that [Object.prototype] does not have, and no rule makes
    more than 65536 detections, the placeholders of the detections of
    the call are pairwise distinct. *)
Theorem placeholders_distinct (this : t)
    (heap : list (list (list N * list N))) (text : list N)
    (enabledPatterns : option (list (list N)))
    (Hunique : NoDup (keys (patterns this)))
    (Hkeys : ∀ key, key ∈ keys (patternsToUse this enabledPatterns) →
               key ∉ Object_prototype)
    (Hlabels : NoDup ((λ rule, Pattern.label rule.2)
                        <$> patternsToUse this enabledPatterns))
    (Hcount : ∀ key,
       (N.of_nat (length (filter (λ d, Detection.type d = key)
          (MaskResult.detections
             (mask this heap text enabledPatterns).1.1))) ≤ 65536)%N) :
  NoDup (Detection.masked
           <$> MaskResult.detections (mask this heap text enabledPatterns).1.1).
Proof.
  destruct (mask_blocks this heap text enabledPatterns Hunique Hkeys)
    as (blocks & Hds & Hbs).
  rewrite <-(reverse_involutive (MaskResult.detections _)).
  rewrite fmap_reverse, reverse_Permutation, Hds.
  apply (blocks_NoDup _ _ Hbs Hlabels).
  intros b Hb. pose proof Hb as Hin.
  apply list_elem_of_lookup in Hb as (j & Hj).
  destruct (Forall2_lookup_r _ _ _ _ _ Hbs Hj) as (rule & _ & Hblock).
  assert (Forall (λ d, Detection.type d = rule.1) b) as Htype.
  { apply Forall_forall. intros d (i & Hi)%list_elem_of_lookup.
    by destruct (Hblock i d Hi). }
  pose proof (block_length rule.1 blocks b Hin Htype) as Hle.
  rewrite <-Hds, filter_reverse, length_reverse in Hle.
  specialize (Hcount rule.1). lia.
Qed.

Lemma placeholders_distinct_witness :
  NoDup (keys (patterns engine0))
  ∧ (∀ key, key ∈ keys (patternsToUse engine0 None) →
       key ∉ Object_prototype)
  ∧ NoDup ((λ rule, Pattern.label rule.2) <$> patternsToUse engine0 None)
  ∧ NoDup (Detection.masked <$> MaskResult.detections
             (mask engine0 heap0 (utf16 "田中太郎 a@b.co") None).1.1).
Proof.
  assert (NoDup (keys (patterns engine0))) as H0.
  { apply (bool_decide_unpack _). vm_compute. reflexivity. }
  assert (∀ key, key ∈ keys (patternsToUse engine0 None) →
            key ∉ Object_prototype) as H1.
  { apply Forall_forall. apply (bool_decide_unpack _). vm_compute.
    reflexivity. }
  assert (NoDup ((λ rule, Pattern.label rule.2) <$> patternsToUse engine0 None))
    as H2.
  { apply (bool_decide_unpack _). vm_compute. reflexivity. }
  assert (∀ key,
    (N.of_nat (length (filter (λ d, Detection.type d = key)
       (MaskResult.detections
          (mask engine0 heap0 (utf16 "田中太郎 a@b.co") None).1.1)))
     ≤ 65536)%N) as H3.
  { intros key.
    pose proof (length_filter (λ d, Detection.type d = key)
      (MaskResult.detections
         (mask engine0 heap0 (utf16 "田中太郎 a@b.co") None).1.1)) as Hle.
    assert (length (MaskResult.detections
              (mask engine0 heap0 (utf16 "田中太郎 a@b.co") None).1.1) = 2)
      as Hlen by (vm_compute; reflexivity).
    lia. }
  split_and!; [exact H0|exact H1|exact H2|].
  exact (placeholders_distinct engine0 heap0 (utf16 "田中太郎 a@b.co") None
           H0 H1 H2 H3).
Defined.

End distinct.

(** ** Matching *)

Section matching.
Import JS RegExp Spec.

(** The fuel of [matchAll] is never used up: more fuel, same matches. *)
Lemma exec_from_fuel (re : t) (s : list N) fuel fuel' i :
  length s < i + fuel → length s < i + fuel' →
  exec_from re s fuel i = exec_from re s fuel' i.
Proof.
  revert fuel' i. induction fuel as [|fuel IH]; intros fuel' i H H'.
  - destruct fuel' as [|fuel']; [done|]. simpl.
    by rewrite bool_decide_eq_true_2 by lia.
  - destruct fuel' as [|fuel']; simpl.
    { by rewrite bool_decide_eq_true_2 by lia. }
    destruct (bool_decide (length s < i)) eqn:Hi; [done|].
    apply bool_decide_eq_false in Hi.
    destruct (re s i) as [n|]; [|apply IH; lia].
    f_equal. destruct (bool_decide (slice s i (i + n) = [])) eqn:He.
    + apply IH; lia.
    + apply bool_decide_eq_false in He.
      assert (n ≠ 0).
      { intros ->. apply He. unfold slice. by replace (i + 0 - i) with 0 by lia. }
      apply IH; lia.
Qed.

Lemma matchAll_fuel (re : t) (s : list N) fuel :
  length s < fuel → exec_from re s fuel 0 = matchAll s re.
Proof. intros H. unfold matchAll. apply exec_from_fuel; lia. Qed.

(** A regular expression that matches nowhere has no match. *)
Lemma matchAll_none (re : t) (s : list N) :
  (∀ i, re s i = None) → matchAll s re = [].
Proof.
  intros H. unfold matchAll. generalize (S (length s)) 0.
  induction n as [|fuel IH]; intros i; simpl; [done|].
  destruct (bool_decide _); [done|]. by rewrite H.
Qed.

(** On a text of white space only, a continuation that fails on white
    space is all a matcher can reach. *)
Lemma rep_blank p min max (s : list N) k :
  Forall (λ c, cls_s c = true) s →
  (∀ s', Forall (λ c, cls_s c = true) s' → k s' = None) →
  rep p min max s k = None.
Proof.
  intros Hs Hk. revert min max.
  induction Hs as [|c s Hc Hs IH]; intros min max; simpl.
  - destruct min; [|done]. by apply Hk.
  - assert (match min with 0 => k (c :: s) | S _ => None end = None) as Hstop.
    { destruct min; [|done]. apply Hk. by constructor. }
    destruct (p c && _); [|done]. by rewrite IH.
Qed.

Lemma run_blank r (s : list N) k :
  Forall (λ c, cls_s c = true) s →
  (∀ s', Forall (λ c, cls_s c = true) s' → k s' = None) →
  run r s k = None.
Proof.
  revert s k. induction r as [l|p min max|a IHa b IHb|a IHa b IHb|a IHa];
    intros s k Hs Hk; simpl.
  - destruct (startsWith s l); [|done]. apply Hk. by apply Forall_drop.
  - by apply rep_blank.
  - apply IHa; [done|]. intros s' Hs'. by apply IHb.
  - rewrite IHa by done. by apply IHb.
  - rewrite IHa by done. by apply Hk.
Qed.

Lemma inked_lit c l : cls_s c = false → inked (Lit (c :: l)).
Proof.
  intros Hc s k Hs. simpl. unfold startsWith.
  rewrite bool_decide_eq_false_2; [done|].
  destruct Hs as [|c' s Hc' Hs]; [done|]. simpl. intros [= -> _]. congruence.
Qed.

Lemma inked_cls p min max :
  (∀ c, cls_s c = true → p c = false) → inked (Cls p (S min) max).
Proof.
  intros Hp s k Hs. simpl. destruct Hs as [|c s Hc Hs]; [done|].
  cbn [rep]. by rewrite (Hp c Hc).
Qed.

Lemma inked_seq_l a b : inked a → inked (Seq a b).
Proof. intros Ha s k Hs. simpl. by apply Ha. Qed.

Lemma inked_seq_r a b : inked b → inked (Seq a b).
Proof.
  intros Hb s k Hs. simpl. apply run_blank; [done|].
  intros s' Hs'. by apply Hb.
Qed.

Lemma inked_alt a b : inked a → inked b → inked (Alt a b).
Proof. intros Ha Hb s k Hs. simpl. rewrite Ha by done. by apply Hb. Qed.

Lemma inked_no_match r (s : list N) :
  inked r → Forall (λ c, cls_s c = true) s → matchAll s (compile r) = [].
Proof.
  intros Hr Hs. apply matchAll_none. intros i. unfold compile.
  rewrite Hr; [done|]. by apply Forall_drop.
Qed.

(** The classes that open the built-in rules hold no white space. *)
Lemma kanji_not_blank c : cls_s c = true → cls_kanji c = false.
Proof. classes. lia. Qed.

Lemma mail_not_blank c : cls_s c = true → cls_mail c = false.
Proof. classes. lia. Qed.

Lemma body_not_blank c : cls_s c = true → cls_body c = false.
Proof. intros H. unfold cls_body. by rewrite H. Qed.

Lemma inked_alts a l : inked a → Forall inked l → inked (alts a l).
Proof.
  intros Ha Hl. revert a Ha. induction Hl as [|b l Hb Hl IH]; intros a Ha.
  - done.
  - simpl. apply inked_alt; [done|]. by apply IH.
Qed.

Lemma name_regex_inked : inked name_regex.
Proof. apply inked_seq_l, inked_cls, kanji_not_blank. Qed.

Lemma email_regex_inked : inked email_regex.
Proof. apply inked_seq_l, inked_cls, mail_not_blank. Qed.

Lemma phone_regex_inked : inked phone_regex.
Proof. apply inked_seq_l. by apply inked_lit. Qed.

Lemma address_regex_inked : inked address_regex.
Proof.
  apply inked_seq_l, inked_alts; [by apply inked_lit|].
  repeat apply Forall_cons_2; [| | |done].
  - by apply inked_lit.
  - apply inked_seq_r. by apply inked_lit.
  - apply inked_seq_r. by apply inked_lit.
Qed.

Lemma company_regex_inked : inked company_regex.
Proof.
  apply inked_alt.
  - apply inked_seq_l, inked_alts; [by apply inked_lit|].
    repeat apply Forall_cons_2; [| | | |done]; by apply inked_lit.
  - apply inked_seq_l, inked_cls, body_not_blank.
Qed.

Lemma default_patterns_inked rule :
  rule ∈ MaskingEngine.default_patterns →
  ∃ r, Pattern.regex rule.2 = compile r ∧ inked r.
Proof.
  unfold MaskingEngine.default_patterns.
  rewrite !elem_of_cons, elem_of_nil.
  intros [->|[->|[->|[->|[->|[]]]]]]; eexists; (split; [reflexivity|]).
  - apply name_regex_inked.
  - apply email_regex_inked.
  - apply phone_regex_inked.
  - apply address_regex_inked.
  - apply company_regex_inked.
Qed.

End matching.

(** ** Empty and blank input *)

Section blank.
Import JS MaskingEngine Spec.

Lemma patternsToUse_subset (this : t) en rule :
  rule ∈ patternsToUse this en → rule ∈ patterns this.
Proof.
  unfold patternsToUse. destruct en as [enabled|].
  - intros [_ H]%list_elem_of_filter. by rewrite Object_entries_perm in H.
  - intros H. by rewrite Object_entries_perm in H.
Qed.

(** C5, as stated, fails: [mask] returns early for the empty text only,
    and a text of white space comes back as it is. *)
Lemma mask_blank_counterexample :
  Forall (λ c, RegExp.cls_s c = true) (utf16 " ")
  ∧ MaskResult.maskedText (mask engine0 heap0 (utf16 " ") None).1.1
    = utf16 " "
  ∧ MaskResult.maskedText (mask engine0 heap0 (utf16 " ") None).1.1 ≠ [].
Proof. vm_compute. split_and!; [by repeat constructor|done|done]. Qed.

(** C5, amended. For the empty text [mask] returns the empty text, no
    detection and a new empty Map, and leaves the engine as it was.  A
    text of white space only is not returned early: when no rule in use
    matches in it, as is the case for the five built-in rules, [mask]
    returns the text itself, no detection and an empty Map. *)
Theorem mask_blank (this : t) (heap : list (list (list N * list N)))
    (text : list N) (enabledPatterns : option (list (list N)))
    (Hblank : Forall (λ c, RegExp.cls_s c = true) text) :
  mask this heap [] enabledPatterns
  = ({| MaskResult.maskedText := [];
        MaskResult.detections := [];
        MaskResult.mappingTable := length heap |}, this, heap ++ [[]])
  ∧ ((∀ rule, rule ∈ patternsToUse this enabledPatterns →
        RegExp.matchAll text (Pattern.regex rule.2) = []) →
     view (mask this heap text enabledPatterns) = (text, [], Some []))
  ∧ (patterns this = default_patterns →
     view (mask this heap text enabledPatterns) = (text, [], Some [])).
Proof.
  assert ((∀ rule, rule ∈ patternsToUse this enabledPatterns →
             RegExp.matchAll text (Pattern.regex rule.2) = []) →
          view (mask this heap text enabledPatterns) = (text, [], Some []))
    as Hnone.
  { intros Hnone. rewrite view_mask. destruct text as [|c text]; [done|].
    unfold final. by rewrite maskPatterns_no_match. }
  split_and!; [done|done|].
  intros Hdefault. apply Hnone. intros rule Hrule%patternsToUse_subset.
  rewrite Hdefault in Hrule.
  destruct (default_patterns_inked rule Hrule) as (r & -> & Hr).
  by apply inked_no_match.
Qed.

Lemma mask_blank_witness :
  Forall (λ c, RegExp.cls_s c = true) (utf16 "  ")
  ∧ patterns engine0 = default_patterns
  ∧ view (mask engine0 heap0 (utf16 "  ") None) = (utf16 "  ", [], Some []).
Proof.
  assert (Forall (λ c, RegExp.cls_s c = true) (utf16 "  ")) as H0
    by (vm_compute; by repeat constructor).
  split_and!; [exact H0|reflexivity|].
  exact (proj2 (proj2 (mask_blank engine0 heap0 (utf16 "  ") None H0))
           eq_refl).
Defined.

End blank.

(** ** Restoring *)

Section restoring.
Import JS MaskingEngine Spec.

Lemma indexOf_from_bounds (search rest : list N) i p :
  indexOf_from search rest i = Some p → i ≤ p ≤ i + length rest.
Proof.
  revert i. induction rest as [|c rest IH]; intros i; simpl.
  - destruct (startsWith [] search); [|done]. intros [= <-]. lia.
  - destruct (startsWith (c :: rest) search); [intros [= <-]; lia|].
    intros H%IH. lia.
Qed.

Lemma StringIndexOf_bounds (s search : list N) from p :
  StringIndexOf s search from = Some p → from ≤ p ≤ length s.
Proof.
  unfold StringIndexOf. case_bool_decide as Hle; [|done].
  intros H%indexOf_from_bounds. rewrite length_drop in H. lia.
Qed.

(** The fuel of [replaceAll] is never used up. *)
Lemma matchPositions_fuel (s search : list N) fuel fuel' position :
  length s < position + fuel → length s < position + fuel' →
  matchPositions fuel s search position
  = matchPositions fuel' s search position.
Proof.
  revert fuel' position.
  induction fuel as [|fuel IH]; intros fuel' position H H'.
  - destruct fuel' as [|fuel']; [done|]. simpl.
    destruct (StringIndexOf s search position) as [p|] eqn:Hp; [|done].
    apply StringIndexOf_bounds in Hp. lia.
  - destruct fuel' as [|fuel']; simpl;
      destruct (StringIndexOf s search position) as [p|] eqn:Hp; try done.
    + apply StringIndexOf_bounds in Hp. lia.
    + apply StringIndexOf_bounds in Hp. f_equal. apply IH; lia.
Qed.

Lemma replaceAll_fuel (s search replaceValue : list N) fuel :
  length s < fuel →
  spliceAll s search replaceValue (matchPositions fuel s search 0) 0
  = replaceAll s search replaceValue.
Proof.
  intros H. unfold replaceAll. f_equal. apply matchPositions_fuel; lia.
Qed.

(** A search string that does not occur: nothing is replaced. *)
Lemma replaceAll_absent (s search replaceValue : list N) :
  StringIndexOf s search 0 = None → replaceAll s search replaceValue = s.
Proof. intros H. unfold replaceAll. simpl. by rewrite H. Qed.

(** A replacement value without [$] stands for itself. *)
Lemma GetSubstitution_plain (matched str : list N) position template :
  36%N ∉ template → GetSubstitution matched str position template = template.
Proof.
  induction template as [|c template IH]; [done|].
  intros [Hc Ht]%not_elem_of_cons. simpl.
  destruct (N.eqb_spec c 36) as [->|_]; [done|]. by rewrite IH.
Qed.

Lemma restore_empty_text table : restore [] table = [].
Proof. done. Qed.

Lemma restore_no_table (s : list N) : restore s None = s.
Proof. by destruct s. Qed.

Lemma restore_empty_table (s : list N) : restore s (Some []) = s.
Proof. by destruct s. Qed.

(** Placeholders of the table that do not occur in the text, and
    tokens of the text that are not in the table, are no error: the text
    is left as it is. *)
Lemma restore_absent (s : list N) (table : list (list N * list N)) :
  Forall (λ kv, StringIndexOf s kv.1 0 = None) table →
  restore s (Some table) = s.
Proof.
  intros H. destruct s as [|c s]; [done|]. unfold restore.
  induction H as [|[k v] table Hk _ IH]; [done|].
  simpl in *. by rewrite replaceAll_absent.
Qed.

Example restore_scenario :
  restore (utf16 "[Person_A] called")
    (Some [(utf16 "[Person_A]", utf16 "Satoshi")])
  = utf16 "Satoshi called"
  ∧ restore (utf16 "no tokens here") (Some []) = utf16 "no tokens here"
  ∧ restore (utf16 "[Person_A] and [Thing_Q]")
      (Some [(utf16 "[Person_A]", utf16 "Satoshi");
             (utf16 "[Email_A]", utf16 "s@example.com")])
    = utf16 "Satoshi and [Thing_Q]".
Proof. vm_compute. done. Qed.

(** C6. [restore] searches each placeholder as a literal string, but
    [replaceAll] reads the original text it puts in its place as a
    replacement pattern: [$$] in an original comes back as [$] (and
    [$&] as the placeholder).  The address rule masks such a text. *)
Theorem restore_dollar_pattern :
  restore (utf16 "[Location_A]")
    (Some [(utf16 "[Location_A]", utf16 "東京都$$100")])
  = utf16 "東京都$100"
  ∧ utf16 "東京都$100" ≠ utf16 "東京都$$100"
  ∧ let out := mask engine0 heap0 (utf16 "東京都$$100") None in
    MaskResult.maskedText out.1.1 = utf16 "[Location_A]"
    ∧ out.2 !! MaskResult.mappingTable out.1.1
      = Some [(utf16 "[Location_A]", utf16 "東京都$$100")].
Proof. vm_compute. done. Qed.

(** C1. The round trip fails on a text without any bracket: the name
    rule masks the name, the address rule then masks a span that holds
    the placeholder of the name, and [restore], which goes through the
    Map in insertion order, puts the name back before the address. *)
Theorem round_trip_fails :
  let text := utf16 "東京都に田中太郎" in
  let out := mask engine0 heap0 text None in
  (91%N ∉ text) ∧ (93%N ∉ text)
  ∧ MaskResult.maskedText out.1.1 = utf16 "[Location_A]"
  ∧ out.2 !! MaskResult.mappingTable out.1.1
    = Some [(utf16 "[Person_A]", utf16 "田中太郎");
            (utf16 "[Location_A]", utf16 "東京都に[Person_A]")]
  ∧ restore (MaskResult.maskedText out.1.1)
      (out.2 !! MaskResult.mappingTable out.1.1)
    = utf16 "東京都に[Person_A]"
  ∧ restore (MaskResult.maskedText out.1.1)
      (out.2 !! MaskResult.mappingTable out.1.1) ≠ text.
Proof.
  vm_compute. split_and!; try done.
  - intros H. repeat (apply elem_of_cons in H as [H|H]; [done|]).
    by apply elem_of_nil in H.
  - intros H. repeat (apply elem_of_cons in H as [H|H]; [done|]).
    by apply elem_of_nil in H.
Qed.

(** The round trip of the scenario of the specification holds. *)
Example round_trip_scenario :
  let text := utf16 "田中太郎さんのメールはtanaka@example.comです" in
  let out := mask engine0 heap0 text None in
  MaskResult.maskedText out.1.1
  = utf16 "[Person_A]のメールは[Email_A]です"
  ∧ restore (MaskResult.maskedText out.1.1)
      (out.2 !! MaskResult.mappingTable out.1.1) = text.
Proof. vm_compute. done. Qed.

End restoring.

(** ** Order of the detections *)

Section order.
Import JS MaskingEngine Spec.

(** [matchAll] lists its matches from left to right. *)
Lemma exec_from_ascending (re : RegExp.t) (s : list N) fuel i :
  StronglySorted lt (RegExp.index <$> RegExp.exec_from re s fuel i)
  ∧ Forall (λ j, i ≤ j) (RegExp.index <$> RegExp.exec_from re s fuel i).
Proof.
  revert i. induction fuel as [|fuel IH]; intros i; simpl.
  { split; constructor. }
  destruct (bool_decide (length s < i)); [split; constructor|].
  destruct (re s i) as [n|].
  - set (i' := if bool_decide _ then S i else i + n).
    assert (S i ≤ i') as Hi'.
    { subst i'. case_bool_decide as He; [done|].
      destruct n; [|lia]. exfalso. apply He. unfold slice.
      by replace (i + 0 - i) with 0 by lia. }
    destruct (IH i') as [Hs Hf]. rewrite fmap_cons. cbn [RegExp.index].
    split.
    + apply StronglySorted_cons. split; [|done].
      eapply Forall_impl; [exact Hf|]. intros j Hj. simpl in Hj. lia.
    + constructor; [done|].
      eapply Forall_impl; [exact Hf|]. intros j Hj. simpl in Hj. lia.
  - destruct (IH (S i)) as [Hs Hf]. split; [done|].
    eapply Forall_impl; [exact Hf|]. intros j Hj. simpl in Hj. lia.
Qed.

(** The detections a rule pushes start where its matches that are not
    bracket-delimited start, in the order of processing. *)
Lemma maskMatches_startIndex key cfg (ms : list RegExp.Match) (f : Frame) :
  Detection.startIndex <$> detections (fold_left (maskMatch key cfg) ms f)
  = (Detection.startIndex <$> detections f)
    ++ (RegExp.index
          <$> filter (λ m, isMasked (RegExp.matched m) = false) ms).
Proof.
  revert f. induction ms as [|m ms IH]; intros f; cbn [fold_left].
  - by rewrite app_nil_r.
  - rewrite IH. destruct (isMasked (RegExp.matched m)) eqn:Hm.
    + rewrite maskMatch_skip by done.
      by rewrite filter_cons_False by congruence.
    + rewrite filter_cons_True by done. unfold maskMatch. rewrite Hm.
      cbn [detections]. rewrite !fmap_app, fmap_cons.
      by rewrite <-(assoc (++)).
Qed.

Lemma filter_ascending (P : RegExp.Match → Prop) `{∀ m, Decision (P m)}
    (l : list RegExp.Match) :
  StronglySorted lt (RegExp.index <$> l) →
  StronglySorted lt (RegExp.index <$> filter P l).
Proof.
  induction l as [|m l IH]; [constructor|].
  rewrite fmap_cons. intros [Hall Hs]%StronglySorted_cons.
  destruct (decide (P m)).
  - rewrite filter_cons_True by done. rewrite fmap_cons.
    apply StronglySorted_cons. split; [|by apply IH].
    rewrite Forall_forall in Hall. apply Forall_forall.
    intros j (x & -> & Hx)%list_elem_of_fmap.
    apply list_elem_of_filter in Hx as [_ Hx].
    apply Hall. by apply list_elem_of_fmap_2.
  - rewrite filter_cons_False by done. by apply IH.
Qed.

(** With one rule in use the detections come out in text order: the
    final [reverse] undoes the order in which the rule went through its
    matches. *)
Lemma single_rule_order (this : t) (heap : list (list (list N * list N)))
    (text : list N) (enabledPatterns : option (list (list N))) rule :
  patternsToUse this enabledPatterns = [rule] →
  StronglySorted lt
    (Detection.startIndex
       <$> MaskResult.detections (mask this heap text enabledPatterns).1.1).
Proof.
  intros Hrule. destruct text as [|c text]; [constructor|].
  rewrite mask_nonempty by done. cbn [fst MaskResult.detections].
  unfold final. rewrite Hrule. cbn [fold_left]. destruct rule as [key cfg].
  unfold maskPattern.
  destruct (RegExp.matchAll _ _) as [|m0 ms] eqn:Hms; [constructor|].
  rewrite fmap_reverse, maskMatches_startIndex.
  assert (detections (initCounter key (start this heap (c :: text))) = [])
    as -> by (unfold initCounter; by destruct (falsy _)).
  rewrite fmap_nil, app_nil_l.
  rewrite filter_reverse, fmap_reverse, reverse_involutive.
  apply filter_ascending. rewrite <-Hms. apply exec_from_ascending.
Qed.

(** C4. With two rules the detections are not in text order: the
    blocks of the rules come out in reverse rule order.  The name at
    index 0 is listed after the address of the mail at index 5 of the
    text (index 11 of the text as masked by then). *)
Theorem detections_order_fails :
  let text := utf16 "田中太郎 a@b.co" in
  let out := mask engine0 heap0 text None in
  slice text 0 4 = utf16 "田中太郎"
  ∧ slice text 5 11 = utf16 "a@b.co"
  ∧ (λ d, (Detection.type d, Detection.original d, Detection.startIndex d))
      <$> MaskResult.detections out.1.1
    = [(utf16 "email", utf16 "a@b.co", 11); (utf16 "name", utf16 "田中太郎", 0)].
Proof. vm_compute. done. Qed.

End order.

(** * Further properties *)

(** ** Statistics *)

Section statistics.
Import JS MaskingEngine Spec.

Lemma get_update {V} (o : list (list N * V)) k k' (f : V → V) :
  get (update o k f) k' = if decide (k = k') then f <$> get o k' else get o k'.
Proof.
  unfold update. induction o as [|[k0 v0] o IH]; csimpl.
  - by destruct (decide (k = k')).
  - rewrite IH. clear IH.
    destruct (decide (k0 = k)) as [->|Hne]; simpl;
      destruct (decide (k = k')) as [->|Hne']; simpl;
      repeat case_decide; simplify_eq; done.
Qed.

Lemma keys_update {V} (o : list (list N * V)) k (f : V → V) :
  keys (update o k f) = keys o.
Proof.
  unfold keys, update. induction o as [|[k0 v0] o IH]; [done|].
  rewrite !fmap_cons. rewrite IH. by destruct (decide _).
Qed.

Lemma getStatistics_snoc ds d :
  getStatistics (ds ++ [d]) = countDetection (getStatistics ds) d.
Proof. unfold getStatistics. by rewrite fold_left_app. Qed.

Lemma countDetection_inherited stats d :
  Detection.type d ∈ Object_prototype → get stats (Detection.type d) = None →
  countDetection stats d = stats.
Proof.
  intros Hin Hnone. unfold countDetection. rewrite Hnone.
  by rewrite bool_decide_eq_true_2.
Qed.

Lemma get_countDetection stats d k :
  Detection.type d ∉ Object_prototype →
  get (countDetection stats d) k
  = if decide (Detection.type d = k) then
      Some {| Statistic.description :=
                default (Detection.description d)
                  (Statistic.description <$> get stats k);
              Statistic.count :=
                S (default 0 (Statistic.count <$> get stats k)) |}
    else get stats k.
Proof.
  intros Hown. unfold countDetection.
  destruct (get stats (Detection.type d)) as [s|] eqn:Hs;
    [|rewrite bool_decide_eq_false_2 by done]; rewrite get_update;
    destruct (decide (Detection.type d = k)) as [<-|Hne].
  - by rewrite Hs.
  - done.
  - by rewrite get_set_eq, Hs.
  - by rewrite get_set_ne.
Qed.

Lemma keys_countDetection_NoDup stats d :
  NoDup (keys stats) → NoDup (keys (countDetection stats d)).
Proof.
  intros H. unfold countDetection.
  destruct (get stats _); [by rewrite keys_update|].
  case_bool_decide; [done|]. rewrite keys_update. by apply NoDup_keys_set.
Qed.

Lemma getStatistics_entry (detections : list Detection.t) (k : list N) :
  NoDup (keys (getStatistics detections))
  ∧ get (getStatistics detections) k
    = if bool_decide (k ∈ Object_prototype) then None
      else
        match filter (λ d, Detection.type d = k) detections with
        | [] => None
        | d :: ds =>
          Some {| Statistic.description := Detection.description d;
                  Statistic.count := S (length ds) |}
        end.
Proof.
  revert k. induction detections as [|d detections IH] using rev_ind; intros k.
  - split; [apply NoDup_nil_2|]. by case_bool_decide.
  - rewrite getStatistics_snoc.
    split; [apply keys_countDetection_NoDup, (IH k)|].
    destruct (decide (Detection.type d ∈ Object_prototype)) as [Hin|Hown].
    + rewrite countDetection_inherited; [|done|].
      2: { destruct (IH (Detection.type d)) as [_ ->].
           by rewrite bool_decide_eq_true_2. }
      destruct (IH k) as [_ ->]. case_bool_decide as Hk; [done|].
      rewrite filter_app, (filter_cons_False _ d) by (by intros <-).
      by rewrite filter_nil, app_nil_r.
    + rewrite get_countDetection by done. destruct (IH k) as [_ ->].
      rewrite filter_app.
      destruct (decide (Detection.type d = k)) as [Hk|Hk].
      * rewrite bool_decide_eq_false_2 by (by rewrite <-Hk).
        rewrite (filter_cons_True _ d) by done. rewrite filter_nil.
        destruct (filter _ detections) as [|d0 ds0]; simpl; [done|].
        rewrite length_app. simpl. do 3 f_equal. lia.
      * rewrite (filter_cons_False _ d) by done. rewrite filter_nil.
        by rewrite app_nil_r.
Qed.

Lemma sum_update_count (stats : list (list N * Statistic.t)) k :
  NoDup (keys stats) → k ∈ keys stats →
  sum_list ((λ kv, Statistic.count kv.2) <$> update stats k
     (λ s, {| Statistic.description := Statistic.description s;
              Statistic.count := S (Statistic.count s) |}))
  = S (sum_list ((λ kv, Statistic.count kv.2) <$> stats)).
Proof.
  unfold keys, update. induction stats as [|[k0 s0] stats IH]; csimpl.
  - by intros _ ?%elem_of_nil.
  - intros [Hnotin Hnd]%NoDup_cons Hin.
    destruct (decide (k0 = k)) as [->|Hne]; csimpl.
    + f_equal. f_equal. clear IH Hin Hnd.
      induction stats as [|[k1 s1] stats IH]; [done|]. csimpl in *.
      apply not_elem_of_cons in Hnotin as [Hne Hnotin].
      rewrite decide_False by done. by rewrite IH.
    + apply elem_of_cons in Hin as [?|Hin]; [done|].
      rewrite IH by done. lia.
Qed.

Lemma sum_countDetection (stats : list (list N * Statistic.t)) d :
  Detection.type d ∉ Object_prototype → NoDup (keys stats) →
  sum_list ((λ kv, Statistic.count kv.2) <$> countDetection stats d)
  = S (sum_list ((λ kv, Statistic.count kv.2) <$> stats)).
Proof.
  intros Hown Hnd. unfold countDetection.
  destruct (get stats (Detection.type d)) as [s|] eqn:Hs.
  - apply sum_update_count; [done|].
    apply get_elem_of in Hs. by apply (list_elem_of_fmap_2 fst) in Hs.
  - rewrite bool_decide_eq_false_2 by done.
    apply get_None in Hs. rewrite sum_update_count.
    + f_equal. clear Hnd. induction stats as [|[k1 s1] stats IH]; [done|].
      unfold keys in Hs. csimpl in *.
      apply not_elem_of_cons in Hs as [Hne Hs].
      rewrite decide_False by done. csimpl. by rewrite IH.
    + by apply NoDup_keys_set.
    + apply elem_of_keys_set. by left.
Qed.

Lemma getStatistics_sum (detections : list Detection.t) :
  sum_list ((λ kv, Statistic.count kv.2) <$> getStatistics detections)
  = length (filter (λ d, Detection.type d ∉ Object_prototype) detections).
Proof.
  induction detections as [|d detections IH] using rev_ind; [done|].
  rewrite getStatistics_snoc, filter_app, length_app.
  destruct (getStatistics_entry detections (Detection.type d))
    as [Hunique Hget].
  destruct (decide (Detection.type d ∈ Object_prototype)) as [Hin|Hown].
  - rewrite countDetection_inherited;
      [|done|by rewrite Hget, bool_decide_eq_true_2].
    rewrite (filter_cons_False _ d) by (by intros ?).
    rewrite filter_nil, IH. cbn [length]. lia.
  - rewrite sum_countDetection by done.
    rewrite (filter_cons_True _ d) by done.
    rewrite filter_nil, IH. cbn [length]. lia.
Qed.

(** X1. [getStatistics] has one entry for each type that occurs among
    the detections and is no name of a property of [Object.prototype],
    and none for any other key; the entry counts the detections of
    that type and carries the description of the first of them.  A
    detection whose type is such a name is counted nowhere: the counts
    add up to the number of the other detections. *)
Theorem getStatistics_counts (detections : list Detection.t) (k : list N) :
  NoDup (keys (getStatistics detections))
  ∧ get (getStatistics detections) k
    = (if bool_decide (k ∈ Object_prototype) then None
       else
         match filter (λ d, Detection.type d = k) detections with
         | [] => None
         | d :: ds =>
           Some {| Statistic.description := Detection.description d;
                   Statistic.count := S (length ds) |}
         end)
  ∧ sum_list ((λ kv, Statistic.count kv.2) <$> getStatistics detections)
    = length (filter (λ d, Detection.type d ∉ Object_prototype) detections).
Proof.
  destruct (getStatistics_entry detections k) as [Hunique Hget].
  split_and!; [done | done | apply getStatistics_sum].
Qed.

End statistics.

(** ** Detection without masking *)

Section detect.
Import JS MaskingEngine Spec.

Lemma detectPatterns_fold (text : list N) (rules : list (list N * Pattern.t))
    (acc : list (list N * Summary.t) * nat) :
  NoDup (keys rules) →
  (fold_left (detectPattern text) rules acc).2
  = acc.2 + sum_list_with
              (λ rule, length (RegExp.matchAll text (Pattern.regex rule.2)))
              rules
  ∧ ∀ k, get (fold_left (detectPattern text) rules acc).1 k
      = match get rules k with
        | Some cfg =>
          match RegExp.matchAll text (Pattern.regex cfg) with
          | [] => get acc.1 k
          | ms =>
            Some {| Summary.count := length ms;
                    Summary.description := Pattern.description cfg;
                    Summary.samples := RegExp.matched <$> take 3 ms |}
          end
        | None => get acc.1 k
        end.
Proof.
  unfold keys. revert acc.
  induction rules as [|[key cfg] rules IH]; intros acc Hnd.
  - simpl. split; [lia|done].
  - rewrite fmap_cons in Hnd. apply NoDup_cons in Hnd as [Hnotin Hnd].
    cbn [fold_left]. destruct (IH (detectPattern text acc (key, cfg)) Hnd)
      as [IH2 IHg]. clear IH. split.
    + rewrite IH2. unfold detectPattern. cbn [fst snd sum_list_with].
      case_bool_decide as Hlen; cbn [snd]; [lia|].
      destruct (RegExp.matchAll text (Pattern.regex cfg)); simpl in *; lia.
    + intros k. rewrite IHg. cbn [get]. cbn [fst] in Hnotin.
      destruct (decide (key = k)) as [->|Hne].
      * assert (get rules k = None) as -> by by apply get_None.
        unfold detectPattern. cbn [fst snd].
        destruct (RegExp.matchAll text (Pattern.regex cfg)) as [|m ms] eqn:Hms.
        -- by rewrite bool_decide_eq_false_2 by (simpl; lia).
        -- rewrite bool_decide_eq_true_2 by (simpl; lia). cbn [fst].
           by rewrite get_set_eq.
      * assert (get (detectPattern text acc (key, cfg)).1 k = get acc.1 k) as ->.
        { unfold detectPattern. cbn [fst snd]. case_bool_decide; [|done].
          cbn [fst]. by rewrite get_set_ne. }
        done.
Qed.

Lemma get_perm {V} (o o' : list (list N * V)) k :
  NoDup (keys o) → o ≡ₚ o' → get o k = get o' k.
Proof.
  intros Hnd Hperm.
  assert (NoDup (keys o')) as Hnd' by (unfold keys in *; by rewrite <-Hperm).
  destruct (get o k) as [v|] eqn:Hk.
  - apply get_elem_of in Hk. rewrite Hperm in Hk. symmetry.
    clear Hperm Hnd. unfold keys in Hnd'.
    induction o' as [|[k0 v0] o' IH]; [by apply elem_of_nil in Hk|].
    rewrite fmap_cons in Hnd'. apply NoDup_cons in Hnd' as [Hnotin Hnd'].
    simpl. apply elem_of_cons in Hk as [[= <- <-]|Hk].
    + by rewrite decide_True.
    + rewrite decide_False; [by apply IH|]. intros ->. apply Hnotin.
      by apply (list_elem_of_fmap_2 fst) in Hk.
  - symmetry. apply get_None. apply get_None in Hk. unfold keys in *.
    by rewrite <-Hperm.
Qed.

Lemma detect_has_match (this : t) (c : N) (text : list N) :
  DetectResult.hasPersonalInfo (detect this (c :: text)) = true
  ↔ ∃ rule, rule ∈ patterns this
      ∧ RegExp.matchAll (c :: text) (Pattern.regex rule.2) ≠ [].
Proof.
  unfold detect. cbn [DetectResult.hasPersonalInfo].
  assert (∀ rules acc,
    0 < (fold_left (detectPattern (c :: text)) rules acc).2
    ↔ 0 < acc.2 ∨ ∃ rule, rule ∈ rules
        ∧ RegExp.matchAll (c :: text) (Pattern.regex rule.2) ≠ []) as Hfold.
  { induction rules as [|rule rules IH]; intros acc; cbn [fold_left].
    - split; [by left|]. intros [?|(rule & ?%elem_of_nil & _)]; done.
    - rewrite IH. unfold detectPattern at 1.
      destruct (RegExp.matchAll (c :: text) (Pattern.regex rule.2))
        as [|m ms] eqn:Hm.
      + rewrite bool_decide_eq_false_2 by (simpl; lia). split.
        * intros [?|(rule' & Hin & Hne)]; [by left|]. right. exists rule'.
          split; [|done]. apply elem_of_cons. by right.
        * intros [?|(rule' & [->|Hin]%elem_of_cons & Hne)]; [by left|done|].
          right. by exists rule'.
      + rewrite bool_decide_eq_true_2 by (simpl; lia). cbn [snd]. split.
        * intros _. right. exists rule. split; [apply elem_of_cons; by left|].
          by rewrite Hm.
        * intros _. left. simpl. lia. }
  rewrite bool_decide_eq_true, Hfold. cbn [snd]. split.
  - intros [?|(rule & Hin & Hne)]; [lia|]. exists rule. split; [|done].
    by rewrite Object_entries_perm in Hin.
  - intros (rule & Hin & Hne). right. exists rule. split; [|done].
    by rewrite Object_entries_perm.
Qed.

(** X2. For a text that is not empty, [detect] counts the matches of
    every rule in the text as given: a rule with matches has an entry
    with their number, the rule's description and the first three
    matched texts at most, a rule without has none;
    [totalDetections] is the sum over the rules, and [hasPersonalInfo]
    says whether some rule matches. *)
Theorem detect_summary (this : t) (text : list N)
    (Hunique : NoDup (keys (patterns this))) (Htext : text ≠ []) :
  (∀ k, get (DetectResult.summary (detect this text)) k
        = match get (patterns this) k with
          | Some cfg =>
            match RegExp.matchAll text (Pattern.regex cfg) with
            | [] => None
            | ms =>
              Some {| Summary.count := length ms;
                      Summary.description := Pattern.description cfg;
                      Summary.samples := RegExp.matched <$> take 3 ms |}
            end
          | None => None
          end)
  ∧ DetectResult.totalDetections (detect this text)
    = Some (sum_list_with
              (λ rule, length (RegExp.matchAll text (Pattern.regex rule.2)))
              (patterns this))
  ∧ (DetectResult.hasPersonalInfo (detect this text) = true
     ↔ ∃ rule, rule ∈ patterns this
         ∧ RegExp.matchAll text (Pattern.regex rule.2) ≠ []).
Proof.
  destruct text as [|c text]; [done|]. unfold detect.
  destruct (detectPatterns_fold (c :: text) (Object_entries (patterns this))
              ([], 0)) as [Hsum Hget].
  { by apply Object_entries_keys_NoDup. }
  cbn [DetectResult.summary DetectResult.totalDetections
       DetectResult.hasPersonalInfo].
  assert (sum_list_with
            (λ rule, length (RegExp.matchAll (c :: text) (Pattern.regex rule.2)))
            (Object_entries (patterns this))
          = sum_list_with
              (λ rule, length (RegExp.matchAll (c :: text) (Pattern.regex rule.2)))
              (patterns this)) as Hperm by (by rewrite Object_entries_perm).
  rewrite Hperm in Hsum. cbn [snd] in Hsum. rewrite Nat.add_0_l in Hsum.
  split_and!.
  - intros k. rewrite Hget.
    rewrite (get_perm (Object_entries (patterns this)) (patterns this))
      by (by apply Object_entries_keys_NoDup || apply Object_entries_perm).
    destruct (get (patterns this) k) as [cfg|]; [|done].
    by destruct (RegExp.matchAll _ _).
  - by rewrite Hsum.
  - apply detect_has_match.
Qed.

Lemma detect_summary_witness :
  NoDup (keys (patterns engine0)) ∧ utf16 "a@b.co 03-1234-5678" ≠ []
  ∧ DetectResult.totalDetections (detect engine0 (utf16 "a@b.co 03-1234-5678"))
    = Some (sum_list_with
              (λ rule, length (RegExp.matchAll (utf16 "a@b.co 03-1234-5678")
                                 (Pattern.regex rule.2)))
              (patterns engine0)).
Proof.
  assert (NoDup (keys (patterns engine0))) as H0.
  { apply (bool_decide_unpack _). vm_compute. reflexivity. }
  assert (utf16 "a@b.co 03-1234-5678" ≠ []) as H1 by (vm_compute; discriminate).
  split_and!; [exact H0|exact H1|].
  exact (proj1 (proj2 (detect_summary engine0 _ H0 H1))).
Defined.

(** X3. When [detect] reports no personal information in a text,
    [mask] returns the text as it is, with no detection and an empty
    mapping, whatever rules are enabled. *)
Theorem detect_nothing_mask_unchanged (this : t)
    (heap : list (list (list N * list N))) (text : list N)
    (enabledPatterns : option (list (list N)))
    (Hnothing : DetectResult.hasPersonalInfo (detect this text) = false) :
  view (mask this heap text enabledPatterns) = (text, [], Some []).
Proof.
  rewrite view_mask. destruct text as [|c text]; [done|].
  unfold final. rewrite maskPatterns_no_match; [done|].
  intros rule Hrule%patternsToUse_subset. simpl.
  destruct (decide (RegExp.matchAll (c :: text) (Pattern.regex rule.2) = []))
    as [|Hne]; [done|].
  assert (DetectResult.hasPersonalInfo (detect this (c :: text)) = true)
    as Htrue; [|congruence].
  apply detect_has_match. by exists rule.
Qed.

Lemma detect_nothing_mask_unchanged_witness :
  DetectResult.hasPersonalInfo (detect engine0 (utf16 "hello world")) = false
  ∧ view (mask engine0 heap0 (utf16 "hello world") None)
    = (utf16 "hello world", [], Some []).
Proof.
  assert (DetectResult.hasPersonalInfo (detect engine0 (utf16 "hello world"))
          = false) as H0 by (vm_compute; reflexivity).
  split; [exact H0|].
  exact (detect_nothing_mask_unchanged engine0 heap0 _ None H0).
Defined.

End detect.

(** ** The list of rules *)

Section available.
Import JS MaskingEngine Spec.

Lemma filter_key_get {V} (o : list (list N * V)) k :
  NoDup (keys o) →
  filter (λ kv, kv.1 = k) o
  = match get o k with Some v => [(k, v)] | None => [] end.
Proof.
  unfold keys. induction o as [|[k0 v0] o IH]; [done|].
  rewrite fmap_cons. intros [Hnotin Hnd]%NoDup_cons. cbn [get].
  destruct (decide (k0 = k)) as [->|Hne].
  - rewrite filter_cons_True by done. rewrite IH by done.
    assert (get o k = None) as -> by by apply get_None. done.
  - rewrite filter_cons_False by done. by apply IH.
Qed.

Lemma filter_key_perm {V} (o o' : list (list N * V)) k :
  NoDup (keys o) → o ≡ₚ o' →
  filter (λ kv, kv.1 = k) o' = filter (λ kv, kv.1 = k) o.
Proof.
  intros Hnd Hperm. rewrite !filter_key_get.
  - by rewrite (get_perm o o').
  - done.
  - unfold keys in *. by rewrite <-Hperm.
Qed.

Lemma filter_info (l : list (list N * Pattern.t)) k :
  filter (λ i, PatternInfo.key i = k)
    ((λ entry, {| PatternInfo.key := entry.1;
                  PatternInfo.label := Pattern.label entry.2;
                  PatternInfo.description := Pattern.description entry.2 |})
       <$> l)
  = (λ entry, {| PatternInfo.key := entry.1;
                 PatternInfo.label := Pattern.label entry.2;
                 PatternInfo.description := Pattern.description entry.2 |})
      <$> filter (λ kv, kv.1 = k) l.
Proof.
  induction l as [|[k0 c0] l IH]; [done|]. rewrite fmap_cons.
  destruct (decide (k0 = k)) as [->|Hne].
  - rewrite !filter_cons_True by done. by rewrite fmap_cons, IH.
  - rewrite !filter_cons_False by done. done.
Qed.

Lemma elem_of_set_other {V} (o : list (list N * V)) k v kv :
  kv.1 ≠ k → kv ∈ set o k v ↔ kv ∈ o.
Proof.
  intros Hne. split.
  - intros [->|?]%elem_of_set; done.
  - induction o as [|[k0 v0] o IH]; [by intros ?%elem_of_nil|].
    simpl. destruct (decide (k0 = k)) as [->|Hk].
    + intros [->|?]%elem_of_cons; [done|]. apply elem_of_cons. by right.
    + intros [->|?]%elem_of_cons; apply elem_of_cons; [by left|].
      right. by apply IH.
Qed.

(** X4. [getAvailablePatterns] lists each rule of the registry once.
    After [addCustomPattern] with a key other than [__proto__] it has
    exactly one entry for the key, with the label and description just
    given, and the entries of the other keys are as before; after
    [removePattern] it has none for the key. *)
Theorem getAvailablePatterns_registry (this : t) (key : list N)
    (regex : RegExp.t) (label description : list N)
    (Hunique : NoDup (keys (patterns this)))
    (Hkey : key ≠ utf16 "__proto__") :
  let added := addCustomPattern this key regex label description in
  NoDup (PatternInfo.key <$> getAvailablePatterns this)
  ∧ length (getAvailablePatterns this) = length (patterns this)
  ∧ filter (λ i, PatternInfo.key i = key) (getAvailablePatterns added)
    = [ {| PatternInfo.key := key; PatternInfo.label := label;
           PatternInfo.description := description |} ]
  ∧ (∀ i, PatternInfo.key i ≠ key →
       i ∈ getAvailablePatterns added ↔ i ∈ getAvailablePatterns this)
  ∧ filter (λ i, PatternInfo.key i = key)
      (getAvailablePatterns (removePattern this key)) = [].
Proof.
  intros added. unfold getAvailablePatterns. split_and!.
  - rewrite <-list_fmap_compose.
    by apply (Object_entries_keys_NoDup (patterns this)).
  - by rewrite length_fmap, Object_entries_perm.
  - rewrite filter_info.
    rewrite (filter_key_perm (patterns added) (Object_entries (patterns added)))
      by (by apply NoDup_keys_set || by rewrite Object_entries_perm).
    rewrite filter_key_get by by apply NoDup_keys_set.
    subst added. cbn [patterns addCustomPattern]. by rewrite get_set_eq.
  - intros i Hi. rewrite !list_elem_of_fmap. subst added.
    cbn [patterns addCustomPattern].
    split; intros (kv & -> & Hkv); exists kv; (split; [done|]);
      rewrite Object_entries_perm in Hkv |- *.
    + by rewrite elem_of_set_other in Hkv.
    + by rewrite elem_of_set_other.
  - rewrite filter_info.
    rewrite (filter_key_perm (patterns (removePattern this key))
               (Object_entries (patterns (removePattern this key))))
      by (by apply NoDup_keys_delete || by rewrite Object_entries_perm).
    rewrite filter_key_get by by apply NoDup_keys_delete.
    cbn [patterns removePattern]. by rewrite get_delete_eq.
Qed.

Lemma getAvailablePatterns_registry_witness :
  NoDup (keys (patterns engine0))
  ∧ filter (λ i, PatternInfo.key i = utf16 "order")
      (getAvailablePatterns
         (addCustomPattern engine0 (utf16 "order")
            (RegExp.compile (RegExp.lit "ORD-")) (utf16 "Order")
            (utf16 "order id")))
    = [ {| PatternInfo.key := utf16 "order";
           PatternInfo.label := utf16 "Order";
           PatternInfo.description := utf16 "order id" |} ].
Proof.
  assert (NoDup (keys (patterns engine0))) as H0.
  { apply (bool_decide_unpack _). vm_compute. reflexivity. }
  split; [exact H0|].
  assert (utf16 "order" ≠ utf16 "__proto__") as H1
    by (vm_compute; discriminate).
  exact (proj1 (proj2 (proj2 (getAvailablePatterns_registry engine0
    (utf16 "order") (RegExp.compile (RegExp.lit "ORD-")) (utf16 "Order")
    (utf16 "order id") H0 H1)))).
Defined.

End available.

(** ** What a pass records *)

Section records.
Import JS MaskingEngine Spec.

Lemma length_set {V} (o : list (list N * V)) k v :
  length (set o k v) ≤ S (length o).
Proof.
  induction o as [|[k0 v0] o IH]; simpl; [lia|].
  destruct (decide (k0 = k)); simpl; lia.
Qed.

Lemma table_of_length (ds : list Detection.t) :
  length (table_of ds) ≤ length ds.
Proof.
  induction ds as [|d ds IH] using rev_ind; [done|].
  rewrite table_of_snoc, length_app. simpl.
  pose proof (length_set (table_of ds) (Detection.masked d)
                (Detection.original d)). lia.
Qed.

(** X5. The Map that [mask] returns holds nothing but what the
    detections recorded: its keys are pairwise distinct, each entry is
    the placeholder and the original text of one of the detections
    returned, and it has at most as many entries as there are
    detections. *)
Theorem mapping_from_detections (this : t)
    (heap : list (list (list N * list N))) (text : list N)
    (enabledPatterns : option (list (list N))) :
  let out := mask this heap text enabledPatterns in
  ∃ M, out.2 !! MaskResult.mappingTable out.1.1 = Some M
    ∧ NoDup (keys M)
    ∧ length M ≤ length (MaskResult.detections out.1.1)
    ∧ ∀ kv, kv ∈ M →
        ∃ d, d ∈ MaskResult.detections out.1.1
          ∧ kv = (Detection.masked d, Detection.original d).
Proof.
  intros out. pose proof (view_mask this heap text enabledPatterns) as Hv.
  fold out in Hv. unfold view in Hv.
  pose proof (f_equal (λ v, v.1.2) Hv) as Hd.
  pose proof (f_equal snd Hv) as Hm. cbn [fst snd] in Hd, Hm.
  rewrite Hd, Hm. destruct text as [|c text].
  - exists []. split_and!; [done|apply NoDup_nil_2|done|].
    by intros kv ?%elem_of_nil.
  - cbn [fst snd]. eexists. split_and!; [done|apply table_of_NoDup| |].
    + rewrite length_reverse. apply table_of_length.
    + intros kv (d & Hin & ->)%table_of_entries. exists d.
      by rewrite elem_of_reverse.
Qed.

Lemma maskMatch_fields (Q : Detection.t → Prop) key cfg (f : Frame)
    (m : RegExp.Match) :
  (∀ d, Detection.type d = key →
        Detection.description d = Pattern.description cfg →
        Detection.endIndex d
        = Detection.startIndex d + length (Detection.original d) →
        (∃ n, (1 ≤ n)%N
           ∧ Detection.masked d = maskLabel (Pattern.label cfg) n) →
        Q d) →
  Forall Q (detections f) → Forall Q (detections (maskMatch key cfg f m)).
Proof.
  intros HQ Hf. unfold maskMatch. destruct (isMasked _); [done|].
  cbn [detections]. apply Forall_app. split; [done|].
  apply Forall_singleton. apply HQ; cbn [Detection.type
    Detection.description Detection.endIndex Detection.startIndex
    Detection.original Detection.masked]; [done..|].
  apply maskLabelAt_maskLabel.
Qed.

Lemma maskPatterns_fields (Q : Detection.t → Prop) rules (f : Frame) :
  (∀ key cfg d, (key, cfg) ∈ rules →
        Detection.type d = key →
        Detection.description d = Pattern.description cfg →
        Detection.endIndex d
        = Detection.startIndex d + length (Detection.original d) →
        (∃ n, (1 ≤ n)%N
           ∧ Detection.masked d = maskLabel (Pattern.label cfg) n) →
        Q d) →
  Forall Q (detections f) →
  Forall Q (detections (fold_left maskPattern rules f)).
Proof.
  revert f. induction rules as [|[key cfg] rules IH]; intros f HQ Hf; [done|].
  cbn [fold_left]. apply IH.
  - intros key' cfg' d Hin. apply HQ. apply elem_of_cons. by right.
  - unfold maskPattern.
    destruct (RegExp.matchAll _ _) as [|m0 ms]; [done|].
    apply (fold_left_preserves (λ f, Forall Q (detections f))).
    + intros g m Hg. apply (maskMatch_fields Q key cfg); [|done].
      intros d. apply HQ. apply elem_of_cons. by left.
    + unfold initCounter. by destruct (falsy _).
Qed.



(** The keys of the Map [mask] returns are placeholders, and no two
    are the same. *)
Lemma mask_table_placeholders (this : MaskingEngine.t)
    (heap : list (list (list N * list N))) (text : list N)
    (en : option (list (list N))) M :
  (mask this heap text en).2
    !! MaskResult.mappingTable (mask this heap text en).1.1 = Some M →
  NoDup (keys M) ∧ Forall (λ kv, ∃ label n, kv.1 = maskLabel label n) M.
Proof.
  intros HM. pose proof (view_mask this heap text en) as Hview.
  unfold view in Hview. apply (f_equal snd) in Hview. cbn [snd] in Hview.
  rewrite HM in Hview. destruct text as [| c text].
  { injection Hview as ->. split; constructor. }
  injection Hview as ->. split; [apply table_of_NoDup |].
  apply Forall_forall. intros kv (d & Hd & ->)%table_of_entries.
  cbn [fst]. revert d Hd. apply Forall_forall. unfold final.
  apply maskPatterns_fields; [| constructor].
  intros key cfg d _ _ _ _ (n & _ & ->). by eexists _, _.
Qed.

End records.

(** ** Replacing every occurrence *)

Section replacing.
Import JS.

Lemma startsWith_cons a (s : list N) b p :
  startsWith (a :: s) (b :: p) = true ↔ a = b ∧ startsWith s p = true.
Proof.
  unfold startsWith. cbn [length take]. rewrite !bool_decide_eq_true.
  split; [by intros [= -> ->] | by intros [-> ->]].
Qed.

Lemma startsWith_head a (s : list N) b p :
  a ≠ b → startsWith (a :: s) (b :: p) = false.
Proof.
  intros Hne. apply not_true_iff_false. by intros [? _]%startsWith_cons.
Qed.

Lemma startsWith_app (p s : list N) : startsWith (p ++ s) p = true.
Proof. unfold startsWith. by rewrite take_app_length, bool_decide_eq_true. Qed.

Lemma indexOf_from_shift (search rest : list N) a i :
  indexOf_from search rest (a + i)
  = (λ p, a + p) <$> indexOf_from search rest i.
Proof.
  revert i. induction rest as [| c rest IH]; intros i; simpl.
  - by destruct (startsWith [] search).
  - destruct (startsWith (c :: rest) search); [done |].
    rewrite <- IH. f_equal. lia.
Qed.

Lemma StringIndexOf_prefix (pre s search : list N) p :
  StringIndexOf (pre ++ s) search (length pre + p)
  = (λ q, length pre + q) <$> StringIndexOf s search p.
Proof.
  unfold StringIndexOf. rewrite length_app, drop_app_add.
  repeat case_bool_decide; try lia; [| done].
  apply indexOf_from_shift.
Qed.

Lemma matchPositions_prefix fuel (pre s search : list N) p :
  matchPositions fuel (pre ++ s) search (length pre + p)
  = (λ q, length pre + q) <$> matchPositions fuel s search p.
Proof.
  revert p. induction fuel as [| fuel IH]; intros p; [done |].
  cbn [matchPositions]. rewrite StringIndexOf_prefix.
  destruct (StringIndexOf s search p) as [q |]; [| done].
  csimpl. f_equal. rewrite <- IH. f_equal. lia.
Qed.

Lemma spliceAll_prefix (pre s search r : list N) ps e :
  36%N ∉ r →
  spliceAll (pre ++ s) search r ((λ q, length pre + q) <$> ps)
    (length pre + e)
  = spliceAll s search r ps e.
Proof.
  intros Hplain. revert e. induction ps as [| p ps IH]; intros e.
  - cbn [fmap list_fmap spliceAll]. apply drop_app_add.
  - rewrite fmap_cons. cbn [spliceAll].
    rewrite !GetSubstitution_plain by done.
    unfold slice. rewrite drop_app_add.
    replace (length pre + p - (length pre + e)) with (p - e) by lia.
    rewrite <- (IH (p + length search)). do 3 f_equal. lia.
Qed.

Lemma indexOf_from_skip (pre s search : list N) i :
  (∀ k, k < length pre → startsWith (drop k (pre ++ s)) search = false) →
  indexOf_from search (pre ++ s) i = indexOf_from search s (length pre + i).
Proof.
  revert i. induction pre as [| c pre IH]; intros i Hno; [done |].
  cbn [app indexOf_from].
  pose proof (Hno 0 ltac:(cbn; lia)) as H0. cbn [drop app] in H0.
  rewrite H0, IH.
  - f_equal. cbn [length]. lia.
  - intros k Hk. apply (Hno (S k)). cbn [length]. lia.
Qed.

Lemma replaceAll_nil (search r : list N) :
  search ≠ [] → replaceAll [] search r = [].
Proof. by destruct search. Qed.

(** A stretch in which the search string starts nowhere is kept. *)
Lemma replaceAll_skip (pre s search r : list N) :
  36%N ∉ r →
  (∀ k, k < length pre → startsWith (drop k (pre ++ s)) search = false) →
  replaceAll (pre ++ s) search r = pre ++ replaceAll s search r.
Proof.
  intros Hplain Hno. unfold replaceAll.
  assert (matchPositions (S (length (pre ++ s))) (pre ++ s) search 0
          = (λ q, length pre + q) <$> matchPositions (S (length s)) s search 0)
    as ->.
  { rewrite (matchPositions_fuel s search (S (length s))
               (S (length (pre ++ s))) 0) by (rewrite ?length_app; lia).
    cbn [matchPositions]. unfold StringIndexOf.
    rewrite !bool_decide_eq_true_2 by lia. rewrite !drop_0.
    rewrite indexOf_from_skip by done.
    rewrite indexOf_from_shift.
    destruct (indexOf_from search s 0) as [q |]; [| done].
    csimpl. f_equal.
    rewrite <- matchPositions_prefix. f_equal. lia. }
  destruct (matchPositions (S (length s)) s search 0) as [| q ps].
  - cbn [fmap list_fmap spliceAll]. by rewrite !drop_0.
  - rewrite fmap_cons. cbn [spliceAll].
    rewrite !GetSubstitution_plain by done.
    unfold slice at 1 2. rewrite !drop_0, !Nat.sub_0_r, take_app_add.
    rewrite <- !(assoc (++)). do 3 f_equal.
    replace (length pre + q + length search)
      with (length pre + (q + length search)) by lia.
    by apply spliceAll_prefix.
Qed.

(** Where the search string starts, the replacement is put. *)
Lemma replaceAll_hit (s search r : list N) :
  search ≠ [] → 36%N ∉ r →
  replaceAll (search ++ s) search r = r ++ replaceAll s search r.
Proof.
  intros Hsearch Hplain. unfold replaceAll.
  assert (1 ≤ length search) as Hlen by (destruct search; [done | cbn; lia]).
  assert (matchPositions (S (length (search ++ s))) (search ++ s) search 0
          = 0 :: ((λ q, length search + q)
                    <$> matchPositions (S (length s)) s search 0)) as ->.
  { remember (matchPositions (S (length s)) s search 0) as ps eqn:Hps.
    cbn [matchPositions]. unfold StringIndexOf at 1.
    rewrite bool_decide_eq_true_2 by lia. rewrite drop_0.
    assert (indexOf_from search (search ++ s) 0 = Some 0) as ->.
    { destruct search as [| c search]; [done |].
      pose proof (startsWith_app (c :: search) s) as Hstart.
      cbn [app] in Hstart |- *. cbn [indexOf_from]. by rewrite Hstart. }
    f_equal.
    replace (0 + 1 `max` length search) with (length search + 0) by lia.
    rewrite matchPositions_prefix. f_equal. subst ps.
    apply matchPositions_fuel; rewrite ?length_app; lia. }
  cbn [spliceAll]. rewrite GetSubstitution_plain by done.
  unfold slice at 1. rewrite drop_0, Nat.sub_diag, take_0. cbn [app].
  f_equal.
  replace (0 + length search) with (length search + 0) by lia.
  by apply spliceAll_prefix.
Qed.

End replacing.

(** ** Restoring a masked text in pieces *)

Section pieces.
Import JS MaskingEngine Spec Pieces.

Implicit Types (label s : list N) (pieces : list (list N + N)).

Lemma render_app label pieces more :
  render label (pieces ++ more) = render label pieces ++ render label more.
Proof.
  induction pieces as [| [stretch | n] pieces IH]; [done | |]; cbn [app render];
    by rewrite IH, (assoc (++)).
Qed.

Lemma maskLabel_cons label n :
  maskLabel label n = 91%N :: (label ++ [95%N; fromCharCode (64 + n); 93%N]).
Proof. done. Qed.

Lemma length_maskLabel label n : length (maskLabel label n) = length label + 4.
Proof. rewrite maskLabel_cons. cbn [length]. rewrite length_app. cbn. lia. Qed.

(** Inside a placeholder no placeholder of the same label starts: the
    label holds no bracket, and a sequence character [[] is followed by
    the closing bracket. *)
Lemma label_apart (rest : list N) c a search (tail : list N) k :
  91%N ∉ rest → a ≠ 93%N → k < length rest + 3 →
  startsWith (drop k ((rest ++ [95%N; c; 93%N]) ++ tail))
    (91%N :: a :: search) = false.
Proof.
  revert k. induction rest as [| b rest IH]; intros k Hrest Ha Hk.
  - destruct k as [| [| [| k]]]; cbn in Hk |- *; [| | | lia].
    + by apply startsWith_head.
    + apply not_true_iff_false.
      intros [_ [? _]%startsWith_cons]%startsWith_cons. congruence.
    + by apply startsWith_head.
  - apply not_elem_of_cons in Hrest as [Hb Hrest].
    destruct k as [| k]; cbn [app drop].
    + apply startsWith_head. congruence.
    + apply IH; [done | done |]. cbn [length] in Hk. lia.
Qed.

Lemma maskLabel_apart label n n0 (tail : list N) k :
  91%N ∉ label → 93%N ∉ label →
  maskLabel label n ≠ maskLabel label n0 →
  k < length (maskLabel label n) →
  startsWith (drop k (maskLabel label n ++ tail)) (maskLabel label n0) = false.
Proof.
  intros Hopen Hclose Hne Hk. destruct k as [| k].
  - apply not_true_iff_false. intros Hstart. apply Hne.
    unfold startsWith in Hstart. apply bool_decide_eq_true in Hstart.
    rewrite <- Hstart. rewrite drop_0.
    by rewrite take_app_length' by by rewrite !length_maskLabel.
  - rewrite length_maskLabel in Hk.
    rewrite (maskLabel_cons label n). cbn [app drop].
    destruct label as [| a label].
    + rewrite (maskLabel_cons [] n0). cbn [app].
      apply (label_apart []); [apply not_elem_of_nil | done | cbn in *; lia].
    + apply not_elem_of_cons in Hclose as [Ha _].
      rewrite (maskLabel_cons (a :: label) n0). cbn [app].
      apply (label_apart (a :: label) _ a);
        [done | congruence | cbn [length] in *; lia].
Qed.

Lemma maskLabel_nonempty label n : maskLabel label n ≠ [].
Proof. by rewrite maskLabel_cons. Qed.

(** One [replaceAll] of [restore] on a masked text in pieces. *)
Lemma replaceAll_render label pieces n0 r :
  91%N ∉ label → 93%N ∉ label → 36%N ∉ r → Forall plain pieces →
  replaceAll (render label pieces) (maskLabel label n0) r
  = render label (fill1 label (maskLabel label n0) r <$> pieces).
Proof.
  intros Hopen Hclose Hr Hplain.
  induction Hplain as [| [stretch | n] pieces Hpiece _ IH].
  - apply replaceAll_nil, maskLabel_nonempty.
  - rewrite fmap_cons. cbn [render fill1]. rewrite <- IH.
    apply replaceAll_skip; [done |]. intros k Hk.
    rewrite drop_app_le by lia.
    destruct (drop k stretch) as [| c rest] eqn:Hdrop.
    { apply (f_equal length) in Hdrop. rewrite length_drop in Hdrop.
      cbn in Hdrop. lia. }
    rewrite maskLabel_cons. apply startsWith_head. intros ->.
    apply Hpiece. apply (subseteq_drop k). rewrite Hdrop. left.
  - rewrite fmap_cons. cbn [render fill1]. rewrite <- IH.
    destruct (decide (maskLabel label n = maskLabel label n0)) as [-> | Hne].
    + cbn [render]. by apply replaceAll_hit; [apply maskLabel_nonempty |].
    + cbn [render]. apply replaceAll_skip; [done |]. intros k Hk.
      by apply maskLabel_apart.
Qed.

Lemma fill1_plain label search r piece :
  91%N ∉ r → plain piece → plain (fill1 label search r piece).
Proof.
  intros Hr Hpiece. destruct piece as [stretch | n]; [done |].
  cbn [fill1]. by destruct (decide _).
Qed.

Lemma fill_fill1 label table search r piece :
  fill label table (fill1 label search r piece)
  = fill label ((search, r) :: table) piece.
Proof.
  destruct piece as [stretch | n]; [done |]. cbn [fill1 fill get fst snd].
  destruct (decide (maskLabel label n = search)) as [-> | Hne].
  - by rewrite decide_True.
  - by rewrite decide_False by congruence.
Qed.

(** [restore] on a masked text in pieces fills every placeholder the
    table has. *)
Lemma restore_render label pieces (table : list (list N * list N)) :
  91%N ∉ label → 93%N ∉ label →
  Forall (λ kv, (∃ n, kv.1 = maskLabel label n) ∧ (91%N ∉ kv.2) ∧ (36%N ∉ kv.2))
    table →
  Forall plain pieces →
  restore (render label pieces) (Some table)
  = render label (fill label table <$> pieces).
Proof.
  intros Hopen Hclose Htable Hplain.
  assert (fold_left (λ restoredText kv, replaceAll restoredText kv.1 kv.2)
            table (render label pieces)
          = render label (fill label table <$> pieces)) as Hfold.
  { revert pieces Hplain.
    induction Htable as [| [k r] table [[n0 Hk] [Hr Hplainr]] _ IH];
      intros pieces Hplain; cbn [fold_left fst snd] in *.
    - f_equal. clear Hplain.
      induction pieces as [| [stretch | n] pieces IHp]; [done | |];
        rewrite fmap_cons; cbn [fill get]; by f_equal.
    - subst k. rewrite replaceAll_render by done. rewrite IH.
      + f_equal. rewrite <- list_fmap_compose. apply list_fmap_ext.
        intros i piece _. apply fill_fill1.
      + apply Forall_fmap. eapply Forall_impl; [exact Hplain |].
        intros piece. by apply fill1_plain. }
  unfold restore. destruct (render label pieces) as [| c rest] eqn:Hrender;
    [| exact Hfold].
  rewrite <- Hfold. clear -Htable.
  induction Htable as [| [k r] table [[n0 Hk] _] _ IH]; [done |].
  cbn [fold_left fst snd] in *. subst k.
  by rewrite replaceAll_nil by apply maskLabel_nonempty.
Qed.

End pieces.

(** ** One rule in use: masking, then restoring *)

Section round_trip.
Import JS MaskingEngine Spec Pieces.

Implicit Types (label s : list N) (pieces : list (list N + N)).

Lemma take_length_take {A} n (l : list A) : take (length (take n l)) l = take n l.
Proof.
  rewrite length_take. destruct (Nat.min_spec n (length l)) as [[_ ->] | [Hle ->]];
    [done |]. by rewrite !take_ge by lia.
Qed.

(** The matches of [matchAll] lie in the text, one after the other. *)
Lemma exec_from_separated (re : RegExp.t) s fuel i :
  StronglySorted before (RegExp.exec_from re s fuel i)
  ∧ Forall (λ m, i ≤ RegExp.index m ∧ within s m)
      (RegExp.exec_from re s fuel i).
Proof.
  revert i. induction fuel as [| fuel IH]; intros i; cbn [RegExp.exec_from].
  { split; constructor. }
  case_bool_decide as Hend; [split; constructor |].
  destruct (re s i) as [n |].
  - set (str := slice s i (i + n)).
    set (i' := if bool_decide (str = []) then S i else i + n).
    assert (i + length str ≤ i') as Hi'.
    { subst i'. case_bool_decide as Hstr; [rewrite Hstr; cbn; lia |].
      subst str. unfold slice. rewrite length_take. lia. }
    assert (i ≤ i') as Hle by lia.
    destruct (IH i') as [Hsorted Hall]. split.
    + constructor; [done |]. eapply Forall_impl; [exact Hall |].
      intros m [Hm _]. unfold before. cbn [RegExp.index RegExp.matched]. lia.
    + constructor.
      * split; [done |]. unfold within. cbn [RegExp.index RegExp.matched].
        subst str. unfold slice.
        replace (i + n - i) with n by lia. split.
        -- rewrite length_take, length_drop. lia.
        -- replace (i + length (take n (drop i s)) - i)
             with (length (take n (drop i s))) by lia.
           by rewrite take_length_take.
      * eapply Forall_impl; [exact Hall |]. intros m [Hm Hin].
        split; [lia | done].
  - destruct (IH (S i)) as [Hsorted Hall]. split; [done |].
    eapply Forall_impl; [exact Hall |]. intros m [Hm Hin]. split; [lia | done].
Qed.

Lemma isMasked_plain (originalText : list N) :
  91%N ∉ originalText → isMasked originalText = false.
Proof.
  intros Hplain. unfold isMasked. apply andb_false_iff. left.
  destruct originalText as [| c rest]; [done |].
  apply startsWith_head. intros ->. apply Hplain. left.
Qed.

Lemma take_three s a n b :
  a + n ≤ b →
  take a s ++ slice s a (a + n) ++ slice s (a + n) b = take b s.
Proof.
  intros Hle. unfold slice. replace (a + n - a) with n by lia.
  rewrite (assoc (++)), !take_take_drop. f_equal. lia.
Qed.

(** The inner loop on a text in pieces: the matches are gone through
    from the last one of a stretch [take b s] that is still whole. *)
Lemma maskMatches_pieces key cfg s rs : ∀ f b pieces n,
  key ∉ Object_prototype → counter (this f) !! key = Some (Num n) →
  91%N ∉ s →
  StronglySorted (flip before) rs →
  Forall (λ m, RegExp.index m + length (RegExp.matched m) ≤ b ∧ within s m)
    rs →
  b ≤ length s →
  maskedText f = take b s ++ render (Pattern.label cfg) pieces →
  ∃ pre dets,
    maskedText (fold_left (maskMatch key cfg) rs f)
      = render (Pattern.label cfg) (pre ++ pieces)
    ∧ detections (fold_left (maskMatch key cfg) rs f) = detections f ++ dets
    ∧ length dets = length rs
    ∧ (∀ j d, dets !! j = Some d →
         Detection.masked d
           = maskLabel (Pattern.label cfg) (n + N.of_nat (S j))
         ∧ Detection.original d ⊆ s)
    ∧ Forall plain pre
    ∧ ∀ table,
        (∀ d, d ∈ dets →
           get table (Detection.masked d) = Some (Detection.original d)) →
        render (Pattern.label cfg) (fill (Pattern.label cfg) table <$> pre)
        = take b s.
Proof.
  induction rs as [| m rs IH];
    intros f b pieces n Hkey Hn Hs Hsorted Hall Hb Htext.
  { exists [inl (take b s)], []. cbn [fold_left]. split_and!.
    - done.
    - by rewrite app_nil_r.
    - done.
    - by intros j d [=].
    - constructor; [| constructor]. cbn [plain]. intros Hin.
      by apply Hs, (subseteq_take b).
    - intros table _. cbn. by rewrite app_nil_r. }
  apply StronglySorted_cons in Hsorted as [Hbefore Hsorted].
  apply Forall_cons in Hall as [[Hend [Hin Hmatched]] Hall].
  set (a := RegExp.index m) in *.
  set (original := RegExp.matched m) in *.
  assert (original ⊆ s) as Hsub.
  { rewrite Hmatched. unfold slice.
    etrans; [apply subseteq_take | apply subseteq_drop]. }
  assert (isMasked original = false) as Hplain.
  { apply isMasked_plain. intros Hopen. by apply Hs, Hsub. }
  cbn [fold_left].
  pose proof (maskMatch_numbered key cfg f m n Hkey Hn Hplain) as Hstep.
  fold original a in Hstep.
  destruct (IH (maskMatch key cfg f m) a
              (inr (N.succ n) :: inl (slice s (a + length original) b)
                 :: pieces) (N.succ n))
    as (pre & dets & Htext' & Hdets & Hlen & Hnum & Hpre & Hfill).
  - done.
  - rewrite Hstep. apply lookup_insert_eq.
  - done.
  - done.
  - apply Forall_forall. intros m' Hm'. split.
    + rewrite Forall_forall in Hbefore. apply (Hbefore m' Hm').
    + rewrite Forall_forall in Hall. by apply Hall.
  - lia.
  - rewrite Hstep. cbn [maskedText render]. rewrite Htext.
    unfold slice at 1, slice_from. rewrite drop_0, Nat.sub_0_r.
    rewrite take_app_le by (rewrite length_take; lia).
    rewrite take_take, Nat.min_l by lia.
    rewrite drop_app_le by (rewrite length_take; lia).
    rewrite skipn_firstn_comm. unfold slice.
    done.
  - assert (detections (maskMatch key cfg f m)
            = detections f ++ [
                {| Detection.type := key;
                   Detection.description := Pattern.description cfg;
                   Detection.original := original;
                   Detection.masked :=
                     maskLabel (Pattern.label cfg) (N.succ n);
                   Detection.startIndex := a;
                   Detection.endIndex := a + length original |} ]) as Hpush
      by by rewrite Hstep.
    rewrite Hpush in Hdets.
    eexists (pre ++ [inr (N.succ n);
                     inl (slice s (a + length original) b)]), (_ :: dets).
    split_and!.
    + by rewrite <- (assoc (++)).
    + by rewrite Hdets, <- (assoc (++)).
    + cbn [length]. by rewrite Hlen.
    + intros [| j] d Hd.
      * injection Hd as <-. cbn [Detection.masked Detection.original].
        split; [f_equal; lia | done].
      * destruct (Hnum j d Hd) as [-> Hd']. split; [| done].
        f_equal. lia.
    + apply Forall_app. split; [done |]. repeat constructor.
      cbn [plain]. intros Hopen. apply Hs. unfold slice in Hopen.
      by eapply subseteq_drop, subseteq_take.
    + intros table Htable. rewrite fmap_app, render_app.
      rewrite Hfill by (intros d Hd; apply Htable; by right).
      rewrite !fmap_cons. cbn [fill fmap list_fmap].
      pose proof (Htable _ (list_elem_of_here _ _)) as Hget.
      cbn [Detection.masked Detection.original] in Hget. rewrite Hget.
      cbn [render]. rewrite app_nil_r.
      rewrite Hmatched at 1. by apply take_three.
Qed.

Lemma StronglySorted_flip_reverse {A} (R : relation A) (l : list A) :
  StronglySorted R l → StronglySorted (flip R) (reverse l).
Proof.
  induction 1 as [| x l _ IH Hx]; [constructor |].
  rewrite reverse_cons. apply StronglySorted_app_2; [| done | repeat constructor].
  intros y z Hy Hz. apply list_elem_of_singleton in Hz as ->.
  rewrite elem_of_reverse in Hy. rewrite Forall_forall in Hx. by apply Hx.
Qed.

(** With one rule in use, [restore] undoes [mask]. *)
Lemma one_rule_round_trip (this : t)
    (heap : list (list (list N * list N))) (text : list N)
    (enabledPatterns : option (list (list N))) key cfg
    (Hrule : patternsToUse this enabledPatterns = [(key, cfg)])
    (Hkey : key ∉ Object_prototype)
    (Hlabel : (91%N ∉ Pattern.label cfg) ∧ (93%N ∉ Pattern.label cfg))
    (Htext : (91%N ∉ text) ∧ (36%N ∉ text))
    (Hcount :
       (N.of_nat (length (RegExp.matchAll text (Pattern.regex cfg)))
        ≤ 65536)%N) :
  let out := mask this heap text enabledPatterns in
  restore (MaskResult.maskedText out.1.1)
    (out.2 !! MaskResult.mappingTable out.1.1) = text.
Proof.
  intros out. pose proof (view_mask this heap text enabledPatterns) as Hview.
  unfold view in Hview. fold out in Hview.
  pose proof (f_equal (λ v, v.1.1) Hview) as Hmasked.
  pose proof (f_equal snd Hview) as Htable. clear Hview.
  destruct text as [| c text]; cbn [fst snd] in Hmasked, Htable;
    rewrite Hmasked, Htable; [done |].
  clear Hmasked Htable out. set (s := c :: text) in *.
  destruct Hlabel as [Hopen Hclose]. destruct Htext as [Hs Hdollar].
  unfold final. rewrite Hrule. cbn [fold_left]. unfold maskPattern.
  cbn [start maskedText]. fold (start this heap s).
  destruct (RegExp.matchAll s (Pattern.regex cfg)) as [| m0 ms] eqn:Hms.
  { by rewrite restore_empty_table. }
  rewrite <- Hms in *. clear m0 ms Hms.
  set (f0 := initCounter key (start this heap s)).
  destruct (initCounter_fresh key (start this heap s) Hkey)
    as (Hcounter & Hdets0 & Htext0 & _); [done |].
  fold f0 in Hcounter, Hdets0, Htext0.
  cbn [start detections maskedText] in Hdets0, Htext0.
  destruct (exec_from_separated (Pattern.regex cfg) s (S (length s)) 0)
    as [Hsorted Hall].
  fold (RegExp.matchAll s (Pattern.regex cfg)) in Hsorted, Hall.
  destruct (maskMatches_pieces key cfg s
              (reverse (RegExp.matchAll s (Pattern.regex cfg)))
              f0 (length s) [] 0)
    as (pre & dets & Htext' & Hdets & Hlen & Hnum & Hpre & Hfill).
  - done.
  - done.
  - done.
  - by apply StronglySorted_flip_reverse.
  - apply Forall_reverse. eapply Forall_impl; [exact Hall |].
    intros m [_ Hin]. split; [apply Hin | done].
  - done.
  - by rewrite Htext0, take_ge, app_nil_r.
  - rewrite Htext', Hdets, Hdets0, app_nil_r, app_nil_l.
    rewrite length_reverse in Hlen.
    assert (NoDup (Detection.masked <$> dets)) as Hunique.
    { apply NoDup_alt. intros i j x Hi Hj.
      apply list_lookup_fmap_Some in Hi as (di & -> & Hi).
      apply list_lookup_fmap_Some in Hj as (dj & Heq & Hj).
      pose proof (lookup_lt_Some _ _ _ Hi).
      pose proof (lookup_lt_Some _ _ _ Hj).
      destruct (Hnum i di Hi) as [Hmi _]. destruct (Hnum j dj Hj) as [Hmj _].
      rewrite Hmi, Hmj in Heq. apply maskLabel_inj in Heq as [_ Heq].
      apply fromCharCode_inj in Heq; lia. }
    rewrite restore_render.
    + rewrite Hfill; [by apply take_ge |].
      intros d Hd. by apply table_of_get.
    + done.
    + done.
    + apply Forall_forall. intros kv Hkv.
      apply table_of_entries in Hkv as (d & Hd & ->). cbn [fst snd].
      apply list_elem_of_lookup in Hd as [j Hj].
      destruct (Hnum j d Hj) as [Hm Hsub]. split_and!.
      * by eexists.
      * intros Hin. by apply Hs, Hsub.
      * intros Hin. by apply Hdollar, Hsub.
    + done.
Qed.

(** X7 ([mask] then [restore], lines 59 to 143): with one rule in use,
    whose label holds no bracket, a text without [[] and without [$]
    comes back from its masked text and the returned table as it was,
    as long as the rule matches at most 65536 times. *)
Theorem single_rule_round_trip (this : t)
    (heap : list (list (list N * list N))) (text : list N)
    (enabledPatterns : option (list (list N))) key cfg
    (Hrule : patternsToUse this enabledPatterns = [(key, cfg)])
    (Hkey : key ∉ Object_prototype)
    (Hlabel : (91%N ∉ Pattern.label cfg) ∧ (93%N ∉ Pattern.label cfg))
    (Htext : (91%N ∉ text) ∧ (36%N ∉ text))
    (Hcount :
       (N.of_nat (length (RegExp.matchAll text (Pattern.regex cfg)))
        ≤ 65536)%N) :
  let out := mask this heap text enabledPatterns in
  restore (MaskResult.maskedText out.1.1)
    (out.2 !! MaskResult.mappingTable out.1.1) = text.
Proof.
  exact (one_rule_round_trip this heap text enabledPatterns key cfg
           Hrule Hkey Hlabel Htext Hcount).
Qed.

Lemma single_rule_round_trip_witness :
  let text := utf16 "write to a@b.co or c@d.org" in
  let out := mask engine0 heap0 text (Some [utf16 "email"]) in
  MaskResult.maskedText out.1.1 = utf16 "write to [Email_B] or [Email_A]"
  ∧ restore (MaskResult.maskedText out.1.1)
      (out.2 !! MaskResult.mappingTable out.1.1) = text.
Proof.
  split; [vm_compute; reflexivity |].
  assert (patternsToUse engine0 (Some [utf16 "email"])
          = [(utf16 "email",
              rule RegExp.email_regex "Email" "メールアドレス")]) as H0
    by (vm_compute; reflexivity).
  assert ((91%N ∉ Pattern.label
             (rule RegExp.email_regex "Email" "メールアドレス"))
          ∧ (93%N ∉ Pattern.label
               (rule RegExp.email_regex "Email" "メールアドレス"))) as H1
    by (split; apply (bool_decide_unpack _); vm_compute; reflexivity).
  assert ((91%N ∉ utf16 "write to a@b.co or c@d.org")
          ∧ (36%N ∉ utf16 "write to a@b.co or c@d.org")) as H2
    by (split; apply (bool_decide_unpack _); vm_compute; reflexivity).
  assert ((N.of_nat
             (length (RegExp.matchAll (utf16 "write to a@b.co or c@d.org")
                (Pattern.regex
                   (rule RegExp.email_regex "Email" "メールアドレス"))))
           ≤ 65536)%N) as H3
    by (vm_compute; discriminate).
  assert (utf16 "email" ∉ Object_prototype) as H4
    by (apply (bool_decide_unpack _); vm_compute; reflexivity).
  exact (single_rule_round_trip engine0 heap0 _ _ _ _ H0 H4 H1 H2 H3).
Defined.

End round_trip.

(** ** One rule in use: the detections *)

Section one_rule.
Import JS MaskingEngine Spec Pieces.

(** The detections a rule pushes are its matches that are not
    bracket-delimited, in the order of processing. *)
Lemma maskMatches_spans key cfg (ms : list RegExp.Match) (f : Frame) :
  (λ d, (Detection.original d, Detection.startIndex d, Detection.endIndex d))
    <$> detections (fold_left (maskMatch key cfg) ms f)
  = ((λ d, (Detection.original d, Detection.startIndex d,
            Detection.endIndex d)) <$> detections f)
    ++ ((λ m, (RegExp.matched m, RegExp.index m,
               RegExp.index m + length (RegExp.matched m)))
          <$> filter (λ m, isMasked (RegExp.matched m) = false) ms).
Proof.
  revert f. induction ms as [| m ms IH]; intros f; cbn [fold_left].
  - by rewrite app_nil_r.
  - rewrite IH. destruct (isMasked (RegExp.matched m)) eqn:Hm.
    + rewrite maskMatch_skip by done.
      by rewrite filter_cons_False by congruence.
    + rewrite filter_cons_True by done. unfold maskMatch. rewrite Hm.
      cbn [detections]. rewrite !fmap_app, fmap_cons.
      by rewrite <- (assoc (++)).
Qed.

(** X8 ([mask], lines 59 to 124): with one rule in use on a text that
    is not empty, the detections are the matches of the rule in the
    text that are not bracket-delimited, from left to right; the
    indices of a detection are those of its original text in the text
    given. *)
Theorem single_rule_detections (this : t)
    (heap : list (list (list N * list N))) (text : list N)
    (enabledPatterns : option (list (list N))) key cfg
    (Hrule : patternsToUse this enabledPatterns = [(key, cfg)])
    (Htext : text ≠ []) :
  let detections :=
    MaskResult.detections (mask this heap text enabledPatterns).1.1 in
  (λ d, (Detection.original d, Detection.startIndex d, Detection.endIndex d))
    <$> detections
  = (λ m, (RegExp.matched m, RegExp.index m,
           RegExp.index m + length (RegExp.matched m)))
      <$> filter (λ m, isMasked (RegExp.matched m) = false)
            (RegExp.matchAll text (Pattern.regex cfg))
  ∧ StronglySorted lt (Detection.startIndex <$> detections)
  ∧ ∀ d, d ∈ detections →
      Detection.endIndex d ≤ length text
      ∧ slice text (Detection.startIndex d) (Detection.endIndex d)
        = Detection.original d.
Proof.
  intros dets.
  assert ((λ d, (Detection.original d, Detection.startIndex d,
                 Detection.endIndex d)) <$> dets
          = (λ m, (RegExp.matched m, RegExp.index m,
                   RegExp.index m + length (RegExp.matched m)))
              <$> filter (λ m, isMasked (RegExp.matched m) = false)
                    (RegExp.matchAll text (Pattern.regex cfg))) as Hspans.
  { subst dets. rewrite mask_nonempty by done.
    cbn [fst MaskResult.detections]. unfold final. rewrite Hrule.
    cbn [fold_left]. unfold maskPattern. cbn [start maskedText].
    fold (start this heap text).
    destruct (RegExp.matchAll text (Pattern.regex cfg)) as [| m0 ms] eqn:Hms;
      [done |].
    rewrite <- Hms. rewrite fmap_reverse, maskMatches_spans.
    assert (detections (initCounter key (start this heap text)) = []) as ->
      by (unfold initCounter; by destruct (falsy _)).
    rewrite fmap_nil, app_nil_l.
    by rewrite filter_reverse, fmap_reverse, reverse_involutive. }
  split_and!; [done | by eapply single_rule_order |].
  intros d Hd.
  apply (list_elem_of_fmap_2
           (λ d, (Detection.original d, Detection.startIndex d,
                  Detection.endIndex d))) in Hd.
  rewrite Hspans in Hd. apply list_elem_of_fmap in Hd as (m & Heq & Hm).
  injection Heq as -> -> ->.
  apply list_elem_of_filter in Hm as [_ Hm].
  destruct (exec_from_separated (Pattern.regex cfg) text
              (S (length text)) 0) as [_ Hall].
  rewrite Forall_forall in Hall. destruct (Hall m Hm) as [_ [Hend Hmatched]].
  by rewrite <- Hmatched.
Qed.

Lemma single_rule_detections_witness :
  let text := utf16 "write to a@b.co or c@d.org" in
  let detections :=
    MaskResult.detections
      (mask engine0 heap0 text (Some [utf16 "email"])).1.1 in
  (λ d, (Detection.original d, Detection.startIndex d, Detection.endIndex d))
    <$> detections
  = [(utf16 "a@b.co", 9, 15); (utf16 "c@d.org", 19, 26)]
  ∧ StronglySorted lt (Detection.startIndex <$> detections).
Proof.
  split; [vm_compute; reflexivity |].
  assert (patternsToUse engine0 (Some [utf16 "email"])
          = [(utf16 "email",
              rule RegExp.email_regex "Email" "メールアドレス")]) as H0
    by (vm_compute; reflexivity).
  assert (utf16 "write to a@b.co or c@d.org" ≠ []) as H1
    by (vm_compute; discriminate).
  exact (proj1 (proj2
    (single_rule_detections engine0 heap0 _ _ _ _ H0 H1))).
Defined.

(** X19 ([mask], lines 76 to 116): with one rule in use, whose key is no
    name of a property of [Object.prototype], on a text that is not
    empty, there is one detection for each match of the rule that is
    not bracket-delimited, and of [k] detections the one at index [j]
    (from 0, in the order returned) carries the number [k - j]: the
    last match in the text has number 1.  Up to 26 the number is
    rendered as the capital letter of that rank. *)
Theorem single_rule_placeholders (this : t)
    (heap : list (list (list N * list N))) (text : list N)
    (enabledPatterns : option (list (list N))) key cfg
    (Hrule : patternsToUse this enabledPatterns = [(key, cfg)])
    (Hkey : key ∉ Object_prototype)
    (Htext : text ≠ []) :
  let detections :=
    MaskResult.detections (mask this heap text enabledPatterns).1.1 in
  let k := length (filter (λ m, isMasked (RegExp.matched m) = false)
                     (RegExp.matchAll text (Pattern.regex cfg))) in
  length detections = k
  ∧ (∀ j d, detections !! j = Some d →
       Detection.masked d = maskLabel (Pattern.label cfg) (N.of_nat (k - j)))
  ∧ ∀ n, (1 ≤ n ≤ 26)%N →
      maskLabel (Pattern.label cfg) n
      = utf16 "[" ++ Pattern.label cfg ++ utf16 "_" ++ [(64 + n)%N]
          ++ utf16 "]".
Proof.
  intros dets k.
  destruct (one_rule_processing this heap text enabledPatterns key cfg
              Hrule Hkey Htext) as [Hlen Hnum].
  fold dets in Hlen, Hnum. fold k in Hlen. rewrite length_reverse in Hlen.
  split_and!; [done | |].
  - intros j d Hd. pose proof (lookup_lt_Some _ _ _ Hd) as Hj.
    assert (reverse dets !! (k - S j) = Some d) as Hmade.
    { apply reverse_lookup_Some. split; [|lia].
      by replace (length dets - S (k - S j)) with j by lia. }
    rewrite (Hnum _ _ Hmade). f_equal. lia.
  - intros n Hn. unfold maskLabel, fromCharCode.
    by rewrite N.mod_small by lia.
Qed.

Lemma single_rule_placeholders_witness :
  let text := utf16 "write to a@b.co or c@d.org" in
  let detections :=
    MaskResult.detections
      (mask engine0 heap0 text (Some [utf16 "email"])).1.1 in
  Detection.masked <$> detections = [utf16 "[Email_B]"; utf16 "[Email_A]"]
  ∧ length detections
    = length (filter (λ m, isMasked (RegExp.matched m) = false)
                (RegExp.matchAll text
                   (Pattern.regex
                      (rule RegExp.email_regex "Email" "メールアドレス")))).
Proof.
  split; [vm_compute; reflexivity |].
  assert (patternsToUse engine0 (Some [utf16 "email"])
          = [(utf16 "email",
              rule RegExp.email_regex "Email" "メールアドレス")]) as H0
    by (vm_compute; reflexivity).
  assert (utf16 "email" ∉ Object_prototype) as H1
    by (apply (bool_decide_unpack _); vm_compute; reflexivity).
  assert (utf16 "write to a@b.co or c@d.org" ≠ []) as H2
    by (vm_compute; discriminate).
  exact (proj1 (single_rule_placeholders engine0 heap0 _ _ _ _ H0 H1 H2)).
Defined.

End one_rule.

(** ** The side panel *)

Section side_panel.
Import JS MaskingEngine Spec SidePanel.

Lemma isWhiteSpace_cls_s c : isWhiteSpace c = RegExp.cls_s c.
Proof. reflexivity. Qed.

Lemma trimStart_blank (s : list N) :
  trimStart s = [] ↔ Forall (λ c, isWhiteSpace c = true) s.
Proof.
  induction s as [|c s IH]; simpl.
  - split; [constructor|done].
  - destruct (isWhiteSpace c) eqn:Hc.
    + rewrite IH. split; [by constructor|]. by intros [_ ?]%Forall_cons.
    + split; [done|]. intros [? _]%Forall_cons. congruence.
Qed.

Lemma trimStart_keeps_ink (s : list N) :
  Forall (λ c, isWhiteSpace c = true) (trimStart s) → trimStart s = [].
Proof.
  induction s as [|c s IH]; simpl; [done|].
  destruct (isWhiteSpace c) eqn:Hc; [done|].
  intros [? _]%Forall_cons. congruence.
Qed.

Lemma trim_blank (s : list N) :
  trim s = [] ↔ Forall (λ c, isWhiteSpace c = true) s.
Proof.
  unfold trim. rewrite <-trimStart_blank. split.
  - intros H. apply (f_equal reverse) in H.
    rewrite reverse_involutive, reverse_nil in H.
    rewrite trimStart_blank, Forall_reverse in H.
    by apply trimStart_keeps_ink.
  - intros ->. done.
Qed.

(** X9. For an original text that is empty or white space only,
    [performMasking] does not call the engine: the masked text shown
    is empty, every stat count is 0 without the [has-detection] class,
    [currentMappingTable] is a new empty Map and
    [notifyContentScript] is not called.  For any other text it shows
    what [mask] returns and hands it to [notifyContentScript], which
    sends it to the first tab of the query exactly when there is one
    with an id that is not 0. *)
Theorem performMasking_blank (panel : t)
    (heap : list (list (list N * list N))) (tabs : option (list Tab.t)) :
  (Forall (λ c, isWhiteSpace c = true) (originalText panel) →
   performMasking panel heap
   = ({| originalText := originalText panel;
         maskedText := [];
         statElements := (λ key, (key, (0, false))) <$> statKeys;
         maskingEngine := maskingEngine panel;
         currentMappingTable := length heap |}, heap ++ [[]], None))
  ∧ (¬ Forall (λ c, isWhiteSpace c = true) (originalText panel) →
     let out := mask (maskingEngine panel) heap (originalText panel) None in
     let message :=
       {| MaskedTextUpdated.maskedText := MaskResult.maskedText out.1.1;
          MaskedTextUpdated.detections := MaskResult.detections out.1.1 |} in
     (performMasking panel heap).1.2 = out.2
     ∧ SidePanel.maskedText (performMasking panel heap).1.1
       = MaskResult.maskedText out.1.1
     ∧ currentMappingTable (performMasking panel heap).1.1
       = MaskResult.mappingTable out.1.1
     ∧ maskingEngine (performMasking panel heap).1.1 = out.1.2
     ∧ (performMasking panel heap).2 = Some message
     ∧ ∀ tabId sent,
         (performMasking panel heap).2 ≫= notifyContentScript tabs
         = Some (tabId, sent)
         ↔ sent = message ∧ tabId ≠ 0%Z
           ∧ ∃ rest, tabs = Some ({| Tab.id := Some tabId |} :: rest)).
Proof.
  split.
  - intros Hblank%trim_blank. unfold performMasking. by rewrite Hblank.
  - intros Hink out message. subst out message. unfold performMasking.
    destruct (trim (originalText panel)) as [|c s] eqn:Ht.
    { by apply trim_blank in Ht. }
    destruct (mask (maskingEngine panel) heap (originalText panel) None)
      as [[result engine1] heap1].
    cbn [fst snd]. split_and!; [done..|].
    intros tabId sent. cbn [mbind option_bind]. unfold notifyContentScript.
    split.
    + destruct tabs as [[|[[i|]] rest]|]; cbn [Tab.id]; try done.
      case_bool_decide as Hzero; [done|]. intros [= <- <-].
      split_and!; [done..|]. by exists rest.
    + intros (-> & Hzero & rest & ->). cbn [Tab.id].
      by rewrite bool_decide_eq_false_2.
Qed.

Lemma performMasking_blank_witness :
  let panel := {| originalText := utf16 "  ";
                  maskedText := utf16 "old";
                  statElements := [];
                  maskingEngine := engine0;
                  currentMappingTable := 0 |} in
  Forall (λ c, isWhiteSpace c = true) (originalText panel)
  ∧ SidePanel.maskedText (performMasking panel heap0).1.1 = [].
Proof.
  intros panel.
  assert (Forall (λ c, isWhiteSpace c = true) (originalText panel)) as H0
    by (vm_compute; by repeat constructor).
  split; [exact H0|].
  exact (f_equal (λ r, SidePanel.maskedText r.1.1)
           (proj1 (performMasking_blank panel heap0 None) H0)).
Defined.

Lemma get_updateStats stats key :
  get (updateStats stats) key
  = if bool_decide (key ∈ statKeys) then
      Some (default 0 (Statistic.count <$> get stats key),
            bool_decide (0 < default 0 (Statistic.count <$> get stats key)))
    else None.
Proof.
  unfold updateStats. induction statKeys as [|k ks IH]; [done|].
  rewrite fmap_cons. cbn [get fst]. destruct (decide (k = key)) as [->|Hne].
  - rewrite (bool_decide_eq_true_2 (key ∈ key :: ks)); [done|].
    apply elem_of_cons. by left.
  - rewrite IH. destruct (decide (key ∈ ks)) as [Hin|Hnin].
    + rewrite (bool_decide_eq_true_2 (key ∈ ks)) by done.
      rewrite (bool_decide_eq_true_2 (key ∈ k :: ks)); [done|].
      apply elem_of_cons. by right.
    + rewrite (bool_decide_eq_false_2 (key ∈ ks)) by done.
      rewrite (bool_decide_eq_false_2 (key ∈ k :: ks)); [done|].
      intros [?|?]%elem_of_cons; done.
Qed.

(** X10. For a text that is not blank, the count [performMasking] shows
    for each of the five stat elements is the number of detections of
    that key that [mask] returns, with the class [has-detection] when
    it is positive; detections of other keys (custom rules) are shown
    nowhere. *)
Theorem performMasking_counts (panel : t)
    (heap : list (list (list N * list N))) (key : list N)
    (Hink : ¬ Forall (λ c, isWhiteSpace c = true) (originalText panel)) :
  let n := length (filter (λ d, Detection.type d = key)
             (MaskResult.detections
                (mask (maskingEngine panel) heap (originalText panel) None).1.1)) in
  keys (statElements (performMasking panel heap).1.1) = statKeys
  ∧ get (statElements (performMasking panel heap).1.1) key
    = if bool_decide (key ∈ statKeys) then Some (n, bool_decide (0 < n))
      else None.
Proof.
  intros n. unfold performMasking.
  destruct (trim (originalText panel)) as [|c s] eqn:Ht.
  { by apply trim_blank in Ht. }
  subst n.
  destruct (mask (maskingEngine panel) heap (originalText panel) None)
    as [[result engine1] heap1]. cbn [fst snd statElements].
  split.
  - unfold updateStats, keys. by rewrite <-list_fmap_compose, list_fmap_id.
  - rewrite get_updateStats. case_bool_decide as Hkey; [|done].
    destruct (getStatistics_entry (MaskResult.detections result) key)
      as [_ ->].
    rewrite bool_decide_eq_false_2; [by destruct (filter _ _)|].
    assert (Forall (λ k, k ∉ statKeys) Object_prototype) as Hown
      by (apply (bool_decide_unpack _); vm_compute; reflexivity).
    rewrite Forall_forall in Hown. intros Hin. by apply (Hown key Hin).
Qed.

Lemma performMasking_counts_witness :
  let panel := {| originalText := utf16 "a@b.co, c@d.org";
                  maskedText := [];
                  statElements := [];
                  maskingEngine := engine0;
                  currentMappingTable := 0 |} in
  ¬ Forall (λ c, isWhiteSpace c = true) (originalText panel)
  ∧ get (statElements (performMasking panel heap0).1.1) (utf16 "email")
    = Some (2, true).
Proof.
  intros panel.
  assert (¬ Forall (λ c, isWhiteSpace c = true) (originalText panel)) as H0
    by (apply (bool_decide_unpack _); vm_compute; reflexivity).
  split; [exact H0|].
  exact (proj2 (performMasking_counts panel heap0 (utf16 "email") H0)).
Defined.

End side_panel.

(** ** The side panel: restoring *)

Section panel_restore.
Import JS MaskingEngine Spec SidePanel.

(** X11 (sidepanel.js, [clearText]): after [clearText] the panel holds
    a new empty Map, the Maps there were are as they were, and
    restoring, decrypting and saving do nothing. *)
Theorem clearText_resets (panel : t)
    (heap : list (list (list N * list N))) :
  let cleared := clearText panel heap in
  cleared.2 !! currentMappingTable cleared.1 = Some []
  ∧ (∀ l, l < length heap → cleared.2 !! l = heap !! l)
  ∧ originalText cleared.1 = [] ∧ SidePanel.maskedText cleared.1 = []
  ∧ restoreText cleared.1 cleared.2 = cleared.1
  ∧ (∀ clipboard,
       decryptAIResponse cleared.1 cleared.2 clipboard = cleared.1)
  ∧ ∀ savedMappings newId name createdAt,
      saveMapping cleared.1 cleared.2 savedMappings newId name createdAt
      = savedMappings.
Proof.
  intros cleared. subst cleared. unfold clearText.
  cbn [new_Map fst snd currentMappingTable originalText SidePanel.maskedText].
  assert ((heap ++ [Map_of []]) !! length heap = Some []) as Hnew
    by by rewrite list_lookup_middle.
  split_and!; [done | | done | done | | |].
  - intros l Hl. by rewrite lookup_app_l.
  - unfold restoreText, size. cbn [currentMappingTable]. by rewrite Hnew.
  - intros clipboard. unfold decryptAIResponse, size.
    cbn [currentMappingTable]. by rewrite Hnew.
  - intros savedMappings newId name createdAt. unfold saveMapping, size.
    cbn [currentMappingTable]. by rewrite Hnew.
Qed.

Lemma indexOf_from_absent (c : N) (search rest : list N) i :
  c ∉ rest → indexOf_from (c :: search) rest i = None.
Proof.
  revert i. induction rest as [| b rest IH]; intros i Hc; [done |].
  apply not_elem_of_cons in Hc as [Hne Hc]. cbn [indexOf_from].
  rewrite startsWith_head by done. by apply IH.
Qed.

(** X12 (sidepanel.js, [performMasking], [restoreText] and
    [decryptAIResponse]): when the engine has one rule, whose label
    holds no bracket, and the original text has a character that is no
    white space, no [[] and no [$], [restoreText] after
    [performMasking] shows the original text again, and so does
    [decryptAIResponse] on a clipboard that holds the masked text. *)
Theorem panel_round_trip (panel : t)
    (heap : list (list (list N * list N))) key cfg
    (Hrule : patternsToUse (maskingEngine panel) None = [(key, cfg)])
    (Hkey : key ∉ Object_prototype)
    (Hlabel : (91%N ∉ Pattern.label cfg) ∧ (93%N ∉ Pattern.label cfg))
    (Hink : ¬ Forall (λ c, isWhiteSpace c = true) (originalText panel))
    (Htext : (91%N ∉ originalText panel) ∧ (36%N ∉ originalText panel))
    (Hcount :
       (N.of_nat (length (RegExp.matchAll (originalText panel)
                            (Pattern.regex cfg))) ≤ 65536)%N) :
  let masked := performMasking panel heap in
  SidePanel.maskedText (restoreText masked.1.1 masked.1.2)
  = originalText panel
  ∧ SidePanel.maskedText
      (decryptAIResponse masked.1.1 masked.1.2
         (Some (SidePanel.maskedText masked.1.1)))
    = originalText panel.
Proof.
  intros masked. subst masked.
  pose proof (one_rule_round_trip (maskingEngine panel) heap
                (originalText panel) None key cfg Hrule Hkey Hlabel Htext
                Hcount)
    as Hback. cbv zeta in Hback.
  pose proof (mask_table_placeholders (maskingEngine panel) heap
                (originalText panel) None) as Hkeys.
  unfold performMasking.
  destruct (trim (originalText panel)) as [| c0 s0] eqn:Htrim.
  { by apply trim_blank in Htrim. }
  destruct (mask (maskingEngine panel) heap (originalText panel) None)
    as [[result engine1] heap1].
  cbn [fst snd] in *.
  unfold restoreText, decryptAIResponse, size.
  cbn [currentMappingTable SidePanel.maskedText].
  destruct (heap1 !! MaskResult.mappingTable result) as [M |] eqn:HM.
  2: { cbn [default from_option id length].
       rewrite !bool_decide_eq_true_2 by done.
       by rewrite restore_no_table in Hback. }
  cbn [default from_option id].
  destruct M as [| kv M].
  { cbn [length]. rewrite !bool_decide_eq_true_2 by done.
    cbn [SidePanel.maskedText]. rewrite restore_empty_table in Hback.
    done. }
  cbn [length]. rewrite !bool_decide_eq_false_2 by done.
  split; [done |].
  destruct (trim (MaskResult.maskedText result)) as [| c1 s1] eqn:Hshown;
    [| done].
  cbn [SidePanel.maskedText]. rewrite <- Hback. symmetry.
  apply restore_absent. apply trim_blank in Hshown.
  destruct (Hkeys _ eq_refl) as [_ Hplaceholders].
  eapply Forall_impl; [exact Hplaceholders |].
  intros [k v] (label & n & ->). cbn [fst]. unfold StringIndexOf.
  rewrite bool_decide_eq_true_2 by lia. rewrite drop_0.
  apply indexOf_from_absent. intros Hin.
  rewrite Forall_forall in Hshown. by specialize (Hshown _ Hin).
Qed.

Lemma panel_round_trip_witness :
  let engine := removePattern (removePattern (removePattern (removePattern
                  engine0 (utf16 "name")) (utf16 "phone")) (utf16 "address"))
                  (utf16 "company") in
  let panel := {| originalText := utf16 "write to a@b.co or c@d.org";
                  maskedText := [];
                  statElements := [];
                  maskingEngine := engine;
                  currentMappingTable := 0 |} in
  SidePanel.maskedText (performMasking panel heap0).1.1
  = utf16 "write to [Email_B] or [Email_A]"
  ∧ SidePanel.maskedText
      (restoreText (performMasking panel heap0).1.1
         (performMasking panel heap0).1.2)
    = originalText panel.
Proof.
  intros engine panel. split; [vm_compute; reflexivity |].
  assert (patternsToUse (maskingEngine panel) None
          = [(utf16 "email",
              rule RegExp.email_regex "Email" "メールアドレス")]) as H0
    by (vm_compute; reflexivity).
  assert ((91%N ∉ Pattern.label
             (rule RegExp.email_regex "Email" "メールアドレス"))
          ∧ (93%N ∉ Pattern.label
               (rule RegExp.email_regex "Email" "メールアドレス"))) as H1
    by (split; apply (bool_decide_unpack _); vm_compute; reflexivity).
  assert (¬ Forall (λ c, isWhiteSpace c = true) (originalText panel)) as H2
    by (apply (bool_decide_unpack _); vm_compute; reflexivity).
  assert ((91%N ∉ originalText panel) ∧ (36%N ∉ originalText panel)) as H3
    by (split; apply (bool_decide_unpack _); vm_compute; reflexivity).
  assert ((N.of_nat (length (RegExp.matchAll (originalText panel)
             (Pattern.regex
                (rule RegExp.email_regex "Email" "メールアドレス"))))
           ≤ 65536)%N) as H4
    by (vm_compute; discriminate).
  assert (utf16 "email" ∉ Object_prototype) as H5
    by (apply (bool_decide_unpack _); vm_compute; reflexivity).
  exact (proj1 (panel_round_trip panel heap0 _ _ H0 H5 H1 H2 H3 H4)).
Defined.

End panel_restore.

(** ** Saved mappings *)

Section saved_mappings.
Import JS MaskingEngine Spec SidePanel.

Lemma Object_fromEntries_id (m : list (list N * list N)) :
  NoDup (keys m) → Object_fromEntries m = m.
Proof. apply Map_of_id. Qed.

(** X13. A mapping table that is saved and then selected by its id
    comes back as it was: when the current Map is not empty and none of
    its keys is an array index, as is the case for the placeholders of
    [mask], [selectMapping] after [saveMapping] sets
    [currentMappingTable] to a new Map with the same entries in the
    same order, whatever else was stored and whatever the panel did in
    between. *)
Theorem save_select_round_trip (panel panel' : t)
    (heap heap' : list (list (list N * list N)))
    (savedMappings : list SavedMapping.t) (newId name createdAt : list N)
    (M : list (list N * list N))
    (Htable : heap !! currentMappingTable panel = Some M)
    (Hsome : M ≠ [])
    (Hunique : NoDup (keys M))
    (Hplain : Forall (λ kv, array_index kv.1 = None) M)
    (Hid : newId ≠ []) :
  let stored := saveMapping panel heap savedMappings newId name createdAt in
  let selected := selectMapping panel' heap' stored newId in
  selected.2 !! currentMappingTable selected.1 = Some M
  ∧ length heap' ≤ currentMappingTable selected.1
  ∧ length stored ≤ 10.
Proof.
  intros stored selected. subst selected stored. unfold saveMapping, size.
  rewrite Htable. cbn [default from_option id].
  rewrite bool_decide_eq_false_2 by (by destruct M).
  cbn [take]. unfold selectMapping. destruct newId as [|c id']; [done|].
  cbn [find SavedMapping.id]. rewrite decide_True by done.
  cbn [SavedMapping.mappingTable new_Map fst snd currentMappingTable].
  rewrite (Object_fromEntries_id M Hunique).
  rewrite (Object_entries_plain M Hplain). rewrite (Map_of_id M Hunique).
  split_and!; [by rewrite list_lookup_middle|done|].
  simpl. rewrite length_take. lia.
Qed.

Lemma save_select_round_trip_witness :
  let out := mask engine0 heap0 (utf16 "mail a@b.co") None in
  let panel := {| originalText := utf16 "mail a@b.co";
                  maskedText := MaskResult.maskedText out.1.1;
                  statElements := [];
                  maskingEngine := out.1.2;
                  currentMappingTable := MaskResult.mappingTable out.1.1 |} in
  let M := [(utf16 "[Email_A]", utf16 "a@b.co")] in
  out.2 !! currentMappingTable panel = Some M
  ∧ M ≠ [] ∧ NoDup (keys M)
  ∧ Forall (λ kv, array_index kv.1 = None) M
  ∧ utf16 "1700000000000" ≠ []
  ∧ (selectMapping panel out.2
       (saveMapping panel out.2 [] (utf16 "1700000000000") (utf16 "11/14 12:00")
          (utf16 "2023-11-14T22:13:20.000Z"))
       (utf16 "1700000000000")).2
      !! currentMappingTable
           (selectMapping panel out.2
              (saveMapping panel out.2 [] (utf16 "1700000000000")
                 (utf16 "11/14 12:00") (utf16 "2023-11-14T22:13:20.000Z"))
              (utf16 "1700000000000")).1
     = Some M.
Proof.
  intros out panel M.
  assert (out.2 !! currentMappingTable panel = Some M) as H0
    by (vm_compute; reflexivity).
  assert (M ≠ []) as H1 by discriminate.
  assert (NoDup (keys M)) as H2
    by (apply (bool_decide_unpack _); vm_compute; reflexivity).
  assert (Forall (λ kv, array_index kv.1 = None) M) as H3
    by (repeat constructor).
  assert (utf16 "1700000000000" ≠ []) as H4 by (vm_compute; discriminate).
  split_and!; [exact H0|exact H1|exact H2|exact H3|exact H4|].
  exact (proj1 (save_select_round_trip panel panel out.2 out.2 []
    (utf16 "1700000000000") (utf16 "11/14 12:00")
    (utf16 "2023-11-14T22:13:20.000Z") M H0 H1 H2 H3 H4)).
Defined.

(** X14. The stored list never grows past ten mappings: [saveMapping]
    puts the new mapping first and keeps the nine newest of the old
    ones after it, in their order, and stores nothing for an empty
    table; [deleteMapping] removes every mapping of the selected id and
    leaves the others in their order, after which [selectMapping] of
    that id changes nothing. *)
Theorem saved_mappings_store (panel : t)
    (heap : list (list (list N * list N)))
    (savedMappings : list SavedMapping.t) (newId name createdAt : list N) :
  let stored := saveMapping panel heap savedMappings newId name createdAt in
  length stored ≤ Nat.max 10 (length savedMappings)
  ∧ (length savedMappings ≤ 10 → length stored ≤ 10)
  ∧ (size panel heap = 0 → stored = savedMappings)
  ∧ (size panel heap ≠ 0 →
       ∃ new, stored = new :: take 9 savedMappings
         ∧ SavedMapping.id new = newId
         ∧ SavedMapping.itemCount new = size panel heap)
  ∧ length (deleteMapping savedMappings newId) ≤ length savedMappings
  ∧ (newId ≠ [] →
       deleteMapping savedMappings newId
       = filter (λ m, SavedMapping.id m ≠ newId) savedMappings
       ∧ selectMapping panel heap (deleteMapping savedMappings newId) newId
         = (panel, heap)).
Proof.
  intros stored. subst stored. unfold saveMapping.
  case_bool_decide as Hsize.
  - split_and!; [lia|done|done|done| |].
    + unfold deleteMapping. destruct newId; [done|]. apply length_filter.
    + intros Hid. unfold deleteMapping, selectMapping.
      destruct newId as [|c id']; [done|]. split; [done|].
      assert (find (filter (λ m, SavedMapping.id m ≠ c :: id') savedMappings)
                (c :: id') = None) as ->; [|done].
      induction savedMappings as [|m ms IH]; [done|].
      destruct (decide (SavedMapping.id m = c :: id')) as [Heq|Hne].
      * rewrite filter_cons_False by (by intros ?). done.
      * rewrite filter_cons_True by done. simpl. by rewrite decide_False.
  - cbn [take]. split_and!.
    + simpl. rewrite length_take. lia.
    + intros _. simpl. rewrite length_take. lia.
    + done.
    + intros _. by eexists.
    + unfold deleteMapping. destruct newId; [done|]. apply length_filter.
    + intros Hid. unfold deleteMapping, selectMapping.
      destruct newId as [|c id']; [done|]. split; [done|].
      assert (find (filter (λ m, SavedMapping.id m ≠ c :: id') savedMappings)
                (c :: id') = None) as ->; [|done].
      clear. induction savedMappings as [|m ms IH]; [done|].
      destruct (decide (SavedMapping.id m = c :: id')) as [Heq|Hne].
      * rewrite filter_cons_False by (by intros ?). done.
      * rewrite filter_cons_True by done. simpl. by rewrite decide_False.
Qed.

Lemma saved_mappings_store_witness :
  let panel := {| originalText := []; maskedText := []; statElements := [];
                  maskingEngine := engine0; currentMappingTable := 0 |} in
  size panel heap0 = 0
  ∧ saveMapping panel heap0 [] (utf16 "1") (utf16 "n") (utf16 "c") = [].
Proof.
  intros panel.
  assert (size panel heap0 = 0) as H0 by reflexivity.
  split; [exact H0|].
  exact (proj1 (proj2 (proj2 (saved_mappings_store panel heap0 []
           (utf16 "1") (utf16 "n") (utf16 "c")))) H0).
Defined.

End saved_mappings.

(** ** Settings of the panel *)

Section panel_settings.
Import JS MaskingEngine Spec SidePanel.

(** X15. A font size index between 0 and 3 stays there under
    [increaseFontSize] and [decreaseFontSize]: at 3 an increase and at 0
    a decrease change nothing, and elsewhere each undoes the other. *)
Theorem fontSize_bounds (currentFontSizeIndex : Z)
    (Hrange : (0 ≤ currentFontSizeIndex ≤ 3)%Z) :
  (0 ≤ increaseFontSize currentFontSizeIndex ≤ 3)%Z
  ∧ (0 ≤ decreaseFontSize currentFontSizeIndex ≤ 3)%Z
  ∧ increaseFontSize 3 = 3%Z
  ∧ decreaseFontSize 0 = 0%Z
  ∧ ((currentFontSizeIndex < 3)%Z →
     decreaseFontSize (increaseFontSize currentFontSizeIndex)
     = currentFontSizeIndex)
  ∧ ((0 < currentFontSizeIndex)%Z →
     increaseFontSize (decreaseFontSize currentFontSizeIndex)
     = currentFontSizeIndex).
Proof.
  unfold increaseFontSize, decreaseFontSize.
  split_and!; repeat case_bool_decide; lia.
Qed.

Lemma fontSize_bounds_witness :
  (0 ≤ 1 ≤ 3)%Z ∧ (0 ≤ increaseFontSize 1 ≤ 3)%Z.
Proof.
  assert (0 ≤ 1 ≤ 3)%Z as H0 by lia.
  split; [exact H0|]. exact (proj1 (fontSize_bounds 1 H0)).
Defined.

Lemma removePatterns_get (disabled : list (list N)) (engine : MaskingEngine.t) k :
  get (patterns (fold_left removePattern disabled engine)) k
  = if bool_decide (k ∈ disabled) then None else get (patterns engine) k.
Proof.
  revert engine. induction disabled as [|d ds IH]; intros engine; [done|].
  cbn [fold_left]. rewrite IH. cbn [patterns removePattern].
  destruct (decide (d = k)) as [->|Hne].
  - rewrite get_delete_eq.
    rewrite (bool_decide_eq_true_2 (k ∈ k :: ds)) by (apply elem_of_cons; by left).
    by case_bool_decide.
  - rewrite get_delete_ne by done. destruct (decide (k ∈ ds)) as [Hin|Hnin].
    + rewrite !bool_decide_eq_true_2; [done| |done]. apply elem_of_cons. by right.
    + rewrite !bool_decide_eq_false_2; [done| |done].
      intros [?|?]%elem_of_cons; done.
Qed.

Lemma removePatterns_NoDup (disabled : list (list N)) (engine : MaskingEngine.t) :
  NoDup (keys (patterns engine)) →
  NoDup (keys (patterns (fold_left removePattern disabled engine))).
Proof.
  revert engine. induction disabled as [|d ds IH]; intros engine H; [done|].
  cbn [fold_left]. apply IH. by apply NoDup_keys_delete.
Qed.

Lemma addPatterns_NoDup RegExp_new (customs : list CustomPattern.t)
    (engine : MaskingEngine.t) :
  NoDup (keys (patterns engine)) →
  NoDup (keys (patterns (fold_left
    (λ e pattern,
       match RegExp_new (CustomPattern.regex pattern) with
       | Some regex =>
         addCustomPattern e (CustomPattern.key pattern) regex
           (CustomPattern.label pattern) (CustomPattern.description pattern)
       | None => e
       end) customs engine))).
Proof.
  revert engine. induction customs as [|p ps IH]; intros engine H; [done|].
  cbn [fold_left]. apply IH. destruct (RegExp_new _); [|done].
  by apply NoDup_keys_set.
Qed.

Lemma addPatterns_get RegExp_new (customs : list CustomPattern.t)
    (engine : MaskingEngine.t) k :
  (∀ q, q ∈ customs → CustomPattern.key q = k →
        RegExp_new (CustomPattern.regex q) = None) →
  get (patterns (fold_left
    (λ e pattern,
       match RegExp_new (CustomPattern.regex pattern) with
       | Some regex =>
         addCustomPattern e (CustomPattern.key pattern) regex
           (CustomPattern.label pattern) (CustomPattern.description pattern)
       | None => e
       end) customs engine)) k
  = get (patterns engine) k.
Proof.
  revert engine. induction customs as [|p ps IH]; intros engine H; [done|].
  cbn [fold_left]. rewrite IH.
  - destruct (RegExp_new (CustomPattern.regex p)) as [re|] eqn:Hre; [|done].
    cbn [patterns addCustomPattern]. apply get_set_ne. intros Hk.
    rewrite (H p) in Hre; [done|apply elem_of_cons; by left|done].
  - intros q Hq. apply H. apply elem_of_cons. by right.
Qed.

(** X16. When no custom pattern is keyed [__proto__],
    [loadCustomPatterns] leaves the keys of the registry unique.
    A custom pattern whose source compiles is registered under its key
    with its label and description, the last such pattern of a key
    winning, also over a built-in or disabled rule of that key.  A key
    that no compiling custom pattern carries is absent when disabled
    and otherwise as it was: no rule is invented, and a rule removed by
    an earlier call is not brought back. *)
Theorem loadCustomPatterns_registry (RegExp_new : list N → option RegExp.t)
    (engine : MaskingEngine.t) (customPatterns : list CustomPattern.t)
    (disabledPatterns : list (list N))
    (Hunique : NoDup (keys (patterns engine)))
    (Hkeys : Forall (λ pattern, CustomPattern.key pattern ≠ utf16 "__proto__")
               customPatterns) :
  let loaded :=
    loadCustomPatterns RegExp_new engine customPatterns disabledPatterns in
  NoDup (keys (patterns loaded))
  ∧ (∀ before pattern after regex,
       customPatterns = before ++ pattern :: after →
       RegExp_new (CustomPattern.regex pattern) = Some regex →
       (∀ q, q ∈ after → CustomPattern.key q = CustomPattern.key pattern →
             RegExp_new (CustomPattern.regex q) = None) →
       get (patterns loaded) (CustomPattern.key pattern)
       = Some {| Pattern.regex := regex;
                 Pattern.label := CustomPattern.label pattern;
                 Pattern.description := CustomPattern.description pattern |})
  ∧ (∀ k,
       (∀ q, q ∈ customPatterns → CustomPattern.key q = k →
             RegExp_new (CustomPattern.regex q) = None) →
       get (patterns loaded) k
       = if bool_decide (k ∈ disabledPatterns) then None
         else get (patterns engine) k).
Proof.
  intros loaded. subst loaded. unfold loadCustomPatterns. split_and!.
  - apply addPatterns_NoDup. by apply removePatterns_NoDup.
  - intros before pattern after regex -> Hre Hafter.
    rewrite fold_left_app. cbn [fold_left]. rewrite addPatterns_get by done.
    rewrite Hre. cbn [patterns addCustomPattern]. apply get_set_eq.
  - intros k Hk. rewrite addPatterns_get by done. apply removePatterns_get.
Qed.

Lemma loadCustomPatterns_registry_witness :
  let RegExp_new := λ source : list N,
    if bool_decide (source = utf16 "(") then None
    else Some (RegExp.compile (RegExp.Lit source)) in
  let customs := [ {| CustomPattern.key := utf16 "order";
                      CustomPattern.label := utf16 "Order";
                      CustomPattern.regex := utf16 "ORD-";
                      CustomPattern.description := utf16 "order id" |} ] in
  NoDup (keys (patterns engine0))
  ∧ get (patterns (loadCustomPatterns RegExp_new engine0 customs
                     [utf16 "phone"])) (utf16 "phone") = None.
Proof.
  intros RegExp_new customs.
  assert (NoDup (keys (patterns engine0))) as H0.
  { apply (bool_decide_unpack _). vm_compute. reflexivity. }
  split; [exact H0|].
  assert (Forall (λ pattern, CustomPattern.key pattern ≠ utf16 "__proto__")
            customs) as H1
    by (repeat constructor; vm_compute; discriminate).
  refine (proj2 (proj2 (loadCustomPatterns_registry RegExp_new engine0 customs
                          [utf16 "phone"] H0 H1)) (utf16 "phone") _).
  intros q [->|Hq%elem_of_nil]%elem_of_cons; [|done].
  vm_compute. discriminate.
Defined.

End panel_settings.

(** ** The content script *)

Section content_script.
Import JS ContentScript.

Lemma handle_sent acc event :
  ∃ new, (handle acc event).2 = acc.2 ++ new ∧
    match new with
    | [] => lastInputValue (handle acc event).1 = lastInputValue acc.1
    | [x] =>
      event = Input x ∧ isEnabled acc.1 = true ∧ trim x ≠ [] ∧
      x ≠ lastInputValue acc.1 ∧ lastInputValue (handle acc event).1 = x
    | _ => False
    end.
Proof.
  destruct acc as [state sent], event as [x | enabled]; cbn [handle fst snd].
  - unfold handleInput. destruct (isEnabled state) eqn:Hon; cbn [negb].
    + destruct (trim x) eqn:Htrim.
      * exists []. by rewrite app_nil_r.
      * case_bool_decide as Hsame.
        -- exists []. by rewrite app_nil_r.
        -- exists [x]. cbn [fst snd lastInputValue]. rewrite Htrim. done.
    + exists []. by rewrite app_nil_r.
  - exists []. by rewrite app_nil_r.
Qed.

Lemma run_snoc events event :
  run (events ++ [event]) = handle (run events) event.
Proof. unfold run. by rewrite fold_left_app. Qed.

Lemma run_invariant events :
  lastInputValue (run events).1 = default [] (last (run events).2) ∧
  Forall (λ x, trim x ≠ []) (run events).2 ∧
  ∀ i x y, (run events).2 !! i = Some x → (run events).2 !! S i = Some y →
    x ≠ y.
Proof.
  induction events as [| event events IH] using rev_ind.
  { split_and!; [done | by constructor | by intros i x y [=]]. }
  rewrite run_snoc. destruct IH as (Hlast & Hink & Hadj).
  destruct (handle_sent (run events) event) as (new & -> & Hnew).
  destruct new as [| x [| ? ?]]; [| | done].
  - rewrite app_nil_r. by rewrite Hnew.
  - destruct Hnew as (_ & _ & Htrim & Hne & ->).
    rewrite last_snoc. split_and!; [done | |].
    + apply Forall_app. split; [done | by repeat constructor].
    + intros i a b Ha Hb.
      destruct (decide (S i < length (run events).2)) as [Hlt | Hge].
      * rewrite lookup_app_l in Ha by lia. rewrite lookup_app_l in Hb by lia.
        by eapply Hadj.
      * assert (S i = length (run events).2) as Hi.
        { apply lookup_lt_Some in Hb. rewrite length_app in Hb.
          cbn [length] in Hb. lia. }
        rewrite lookup_app_l in Ha by lia.
        rewrite lookup_app_r in Hb by lia.
        rewrite Hi, Nat.sub_diag in Hb. injection Hb as <-.
        assert (last (run events).2 = Some a) as Hla.
        { rewrite last_lookup, <- Hi. exact Ha. }
        rewrite Hlast, Hla in Hne. cbn in Hne. congruence.
Qed.

Lemma disabled_sends_nothing state sent inputs :
  isEnabled state = false →
  (fold_left handle (Input <$> inputs) (state, sent)) = (state, sent).
Proof.
  intros Hoff. induction inputs as [| x inputs IH]; [done |].
  rewrite fmap_cons. cbn [fold_left handle fst snd]. unfold handleInput.
  rewrite Hoff. cbn [negb]. by rewrite app_nil_r.
Qed.

(** X17 (content.js, [handleInput] and the message listener): whatever
    the events, every text sent to the background has a character that
    is not white space, no text is sent twice in a row, and the inputs
    that follow a message disabling the extension send nothing. *)
Theorem content_script_sends events inputs :
  Forall (λ x, trim x ≠ []) (run events).2 ∧
  (∀ i x y, (run events).2 !! i = Some x → (run events).2 !! S i = Some y →
     x ≠ y) ∧
  (run (events ++ EnabledStateChanged false :: (Input <$> inputs))).2 =
    (run events).2.
Proof.
  destruct (run_invariant events) as (_ & Hink & Hadj).
  split_and!; [done | done |].
  unfold run. rewrite fold_left_app. cbn [fold_left]. fold (run events).
  cbn [handle]. by rewrite disabled_sends_nothing.
Qed.

End content_script.

(** ** The options page *)

Section options_page.
Import JS Options.

Lemma isDuplicate_false patterns i key editing :
  isDuplicate patterns i key editing = false →
  ∀ j q, patterns !! j = Some (Some q) → CustomPattern.key q = key →
    (i + Z.of_nat j)%Z = editing.
Proof.
  revert i. induction patterns as [| p patterns IH]; intros i Hdup j q Hj Hkey;
    [done |].
  cbn [isDuplicate] in Hdup. apply orb_false_iff in Hdup as [Hp Hrest].
  destruct j as [| j]; cbn in Hj.
  - injection Hj as ->. rewrite bool_decide_eq_true_2 in Hp by done.
    cbn in Hp. apply negb_false_iff, Z.eqb_eq in Hp. lia.
  - specialize (IH _ Hrest j q Hj Hkey). lia.
Qed.

Lemma patternKeys_app xs ys :
  patternKeys (xs ++ ys) = patternKeys xs ++ patternKeys ys.
Proof. unfold patternKeys. by rewrite omap_app. Qed.

Lemma patternKeys_holes n : patternKeys (replicate n None) = [].
Proof. induction n as [| n IH]; [done |]. exact IH. Qed.

Lemma elem_of_patternKeys patterns key :
  key ∈ patternKeys patterns ↔
  ∃ j q, patterns !! j = Some (Some q) ∧ CustomPattern.key q = key.
Proof.
  unfold patternKeys. rewrite list_elem_of_omap. split.
  - intros (p & Hp & Hkey). destruct p as [q |]; [| done].
    injection Hkey as <-. apply list_elem_of_lookup in Hp as [j Hj].
    by exists j, q.
  - intros (j & q & Hj & <-). exists (Some q). split; [| done].
    by eapply list_elem_of_lookup_2.
Qed.

Lemma patternKeys_sublist xs ys :
  sublist xs ys → sublist (patternKeys xs) (patternKeys ys).
Proof.
  unfold patternKeys. induction 1 as [| p xs ys _ IH | p xs ys _ IH];
    [done | |]; destruct p; csimpl; by try constructor.
Qed.

Lemma patternKeys_snoc patterns (q : CustomPattern.t) :
  NoDup (patternKeys patterns) →
  CustomPattern.key q ∉ patternKeys patterns →
  NoDup (patternKeys (patterns ++ [Some q])).
Proof.
  intros Hunique Hfresh. rewrite patternKeys_app.
  apply NoDup_app. split_and!; [done | | by apply NoDup_singleton].
  intros k Hk Hq. cbn in Hq. apply list_elem_of_singleton in Hq as ->. done.
Qed.

Lemma patternKeys_insert patterns i (q : CustomPattern.t) :
  i < length patterns →
  NoDup (patternKeys patterns) →
  (∀ j r, patterns !! j = Some (Some r) →
     CustomPattern.key r = CustomPattern.key q → j = i) →
  NoDup (patternKeys (<[i := Some q]> patterns)).
Proof.
  intros Hi Hunique Hother.
  destruct (lookup_lt_is_Some_2 patterns i Hi) as [p Hp].
  rewrite insert_take_drop by done.
  rewrite <- (take_drop_middle patterns i p Hp) in Hunique, Hother.
  assert (length (take i patterns) = i) as Hlen
    by (rewrite length_take; lia).
  revert Hunique Hother Hlen.
  generalize (take i patterns) (drop (S i) patterns). intros xs ys.
  rewrite !cons_middle, !patternKeys_app.
  intros Hunique Hother Hlen.
  assert (CustomPattern.key q ∉ patternKeys xs) as Hxs.
  { intros (j & r & Hj & Hkey)%elem_of_patternKeys.
    assert (j < length xs) by by eapply lookup_lt_Some.
    specialize (Hother j r). rewrite lookup_app_l in Hother by done.
    specialize (Hother Hj Hkey). lia. }
  assert (CustomPattern.key q ∉ patternKeys ys) as Hys.
  { intros (j & r & Hj & Hkey)%elem_of_patternKeys.
    specialize (Hother (length xs + S j) r).
    rewrite lookup_app_r in Hother by lia.
    replace (length xs + S j - length xs) with (S j) in Hother by lia.
    specialize (Hother Hj Hkey). lia. }
  apply NoDup_app in Hunique as (Hux & Hdisj & Hrest).
  apply NoDup_app in Hrest as (_ & _ & Huy).
  apply NoDup_app. split_and!; [done | |].
  - intros k Hk [Hq | Hy]%elem_of_app.
    + cbn in Hq. apply list_elem_of_singleton in Hq as ->. done.
    + eapply Hdisj; [done |]. apply elem_of_app. by right.
  - apply NoDup_app. split_and!; [by apply NoDup_singleton | | done].
    intros k Hq. cbn in Hq. apply list_elem_of_singleton in Hq as ->. done.
Qed.

Lemma assign_keys patterns i (q : CustomPattern.t) :
  NoDup (patternKeys patterns) →
  (∀ j r, patterns !! j = Some (Some r) →
     CustomPattern.key r = CustomPattern.key q → j = i) →
  NoDup (patternKeys (assign patterns i q)) ∧
  assign patterns i q !! i = Some (Some q).
Proof.
  intros Hunique Hother. unfold assign. case_bool_decide as Hi.
  - split; [by apply patternKeys_insert |].
    by rewrite list_lookup_insert_eq.
  - split.
    + rewrite app_assoc. apply patternKeys_snoc.
      * by rewrite patternKeys_app, patternKeys_holes, app_nil_r.
      * rewrite patternKeys_app, patternKeys_holes, app_nil_r.
        intros (j & r & Hj & Hkey)%elem_of_patternKeys.
        assert (j < length patterns) by by eapply lookup_lt_Some.
        specialize (Hother j r Hj Hkey). lia.
    + rewrite lookup_app_r by lia. rewrite lookup_app_r;
        rewrite length_replicate; [| lia].
      by rewrite Nat.sub_diag.
Qed.

(** X18 (options page, [savePattern] and [deletePattern]): a saved
    pattern has a key, a label and a source that are not empty, without
    white space around them, and a source [new RegExp] accepts; if the
    keys of the stored patterns were distinct they still are, after a
    save and after a deletion, and the saved pattern is among them. *)
Theorem options_keys_unique RegExp_valid state
    patternKey patternLabel patternRegex patternDescription confirmed index
    (Hunique : NoDup (patternKeys (customPatterns state))) :
  NoDup (patternKeys
    (customPatterns (deletePattern confirmed state index))) ∧
  ∀ state',
    savePattern RegExp_valid state
      patternKey patternLabel patternRegex patternDescription = Some state' →
    trim patternKey ≠ [] ∧ trim patternLabel ≠ [] ∧
    trim patternRegex ≠ [] ∧ RegExp_valid (trim patternRegex) = true ∧
    NoDup (patternKeys (customPatterns state')) ∧
    Some {| CustomPattern.key := trim patternKey;
            CustomPattern.label := trim patternLabel;
            CustomPattern.regex := trim patternRegex;
            CustomPattern.description := trim patternDescription |}
      ∈ customPatterns state' ∧
    editingPatternIndex state' = (-1)%Z.
Proof.
  split.
  { unfold deletePattern. destruct confirmed; [| done].
    eapply sublist_NoDup; [exact Hunique |].
    apply patternKeys_sublist, sublist_delete. }
  intros state'. unfold savePattern.
  destruct (bool_decide (trim patternKey = []) ||
            bool_decide (trim patternLabel = []) ||
            bool_decide (trim patternRegex = [])) eqn:Hrequired; [done |].
  apply orb_false_iff in Hrequired as [Hrequired Hregex].
  apply orb_false_iff in Hrequired as [Hkey Hlabel].
  apply bool_decide_eq_false in Hkey, Hlabel, Hregex.
  destruct (RegExp_valid (trim patternRegex)) eqn:Hvalid; [| done].
  cbn [negb].
  destruct (isDuplicate _ _ _ _) eqn:Hdup; [done |].
  intros [= <-]. cbn [customPatterns editingPatternIndex].
  split_and!; [done | done | done | done | | | done].
  - case_bool_decide as Hedit.
    + apply assign_keys; [done |]. intros j r Hj Hr.
      pose proof (isDuplicate_false _ _ _ _ Hdup j r Hj Hr). lia.
    + apply patternKeys_snoc; [done |].
      intros (j & r & Hj & Hr)%elem_of_patternKeys.
      pose proof (isDuplicate_false _ _ _ _ Hdup j r Hj Hr). lia.
  - case_bool_decide as Hedit.
    + eapply list_elem_of_lookup_2. apply assign_keys; [done |].
      intros j r Hj Hr.
      pose proof (isDuplicate_false _ _ _ _ Hdup j r Hj Hr). lia.
    + apply elem_of_app. right. by apply list_elem_of_singleton.
Qed.

Lemma options_keys_unique_witness :
  ∃ state',
    savePattern (λ _, true)
      {| customPatterns := [None]; editingPatternIndex := 2 |}
      (utf16 " zip ") (utf16 "ZIP") (utf16 "[0-9]+") [] = Some state' ∧
    NoDup (patternKeys (customPatterns state')).
Proof.
  eexists. split; [vm_compute; reflexivity |].
  assert (NoDup (patternKeys (customPatterns
    {| customPatterns := [None]; editingPatternIndex := 2 |}))) as H0
    by (vm_compute; constructor).
  refine (proj1 (proj2 (proj2 (proj2 (proj2
    (proj2 (options_keys_unique (λ _, true) _ (utf16 " zip ") (utf16 "ZIP")
       (utf16 "[0-9]+") [] true 0 H0) _ _)))))).
  vm_compute. reflexivity.
Defined.

End options_page.
